(** * File-Manager: a shallow embedding of the command parser, the
    formatting helper, the logging subsystem and the file and directory
    operations, with the properties of its specification.

    Sources embedded here:
    - [fileManager.c] (the translation unit with [parse_command],
      [execute_command]),
    - [utils.c] ([get_timestamp], [file_exists], [directory_exists],
      [string_format]),
    - [logging.c] ([init_logging], [log_operation], [show_logs]),
    - [fileops.c], which the repository holds in two variants that differ in
      [append_to_file] (one takes a blocking lock and always writes a
      newline first, one forks and inspects the last byte),
    - [dirops.c].

    C strings and file contents are [list ascii]; a path is the list of its
    characters. *)

From Stdlib Require Import Ascii String ZArith Lia.
From stdpp Require Import base tactics option list gmap strings.

#[local] Open Scope Z_scope.
#[local] Open Scope nat_scope.

(** ** Characters and C strings *)

Abbreviation cstring := (list ascii).

Definition NUL : ascii := "000"%char.
Definition LF : ascii := "010"%char.
Definition DQUOTE : ascii := "034"%char.
Definition SPACE : ascii := " "%char.
Definition BACKSLASH : ascii := "092"%char.

(** A literal of the C source.  The escapes of the C literals are written
    [\n] for the newline and [\q] for the double quote. *)
Fixpoint unescape (l : list ascii) : cstring :=
  match l with
  | [] => []
  | c :: rest =>
      if decide (c = BACKSLASH) then
        match rest with
        | "n"%char :: rest' => LF :: unescape rest'
        | "q"%char :: rest' => DQUOTE :: unescape rest'
        | _ => c :: unescape rest
        end
      else c :: unescape rest
  end.

Definition str (s : string) : cstring := unescape (list_ascii_of_string s).

(** The C string held by a buffer: the characters before the first NUL. *)
Fixpoint c_str (buf : list ascii) : cstring :=
  match buf with
  | [] => []
  | c :: rest => if decide (c = NUL) then [] else c :: c_str rest
  end.

(** ** Memory-safety outcomes

    Array stores are bounds-checked in the embedding: a store outside its
    block does not return, it yields a [Crash] that names the access. *)

Inductive fault : Type :=
  | BufferOverrun (arg idx : nat)   (* args[arg][idx], idx >= MAX_ARG_SIZE *)
  | ArgsOverrun (arg : nat)         (* args[arg], arg >= MAX_ARGS *)
  | NullDeref (arg : nat).          (* args[arg] is NULL *)

Inductive outcome (A : Type) : Type :=
  | Done (a : A)
  | Crash (f : fault).
Arguments Done {A} a.
Arguments Crash {A} f.

#[global] Instance outcome_ret : MRet outcome := fun A a => Done a.
#[global] Instance outcome_bind : MBind outcome := fun A B k m =>
  match m with
  | Done a => k a
  | Crash f => Crash f
  end.

(** ** fileManager.c: the tokenizer *)

Module Parser.

Definition MAX_INPUT_SIZE : nat := 1024.
Definition MAX_ARGS : nat := 4.
Definition MAX_ARG_SIZE : nat := 256.

(** One [malloc(MAX_ARG_SIZE)] block.  Its content is uninitialised in C;
    the embedding fills it with an arbitrary character [junk]. *)
Definition block (junk : ascii) : list ascii := replicate MAX_ARG_SIZE junk.

(** [char *args[MAX_ARGS]]: a slot is [None] for NULL. *)
Abbreviation argv := (list (option (list ascii))).

(** [free_args]: every slot is released and set to NULL. *)
Definition free_args (args : argv) : argv := (fun _ => None) <$> args.

(** [args[k][i] = c], checked against both array bounds. *)
Definition store (args : argv) (k i : nat) (c : ascii) : outcome argv :=
  match args !! k with
  | None => Crash (ArgsOverrun k)
  | Some None => Crash (NullDeref k)
  | Some (Some buf) =>
      if decide (i < MAX_ARG_SIZE)
      then Done (<[k := Some (<[i := c]> buf)]> args)
      else Crash (BufferOverrun k i)
  end.

(** The local variables of [parse_command], and [heap]: how many further
    [malloc] calls succeed. *)
Record pstate : Type := PState {
  args : argv;
  arg_count : nat;
  in_quotes : bool;
  j : nat;
  heap : nat
}.

(** The code after the loop. *)
Definition parse_finish (st : pstate) : outcome (Z * argv) :=
  if decide (0 < j st) then
    args' ← store (args st) (arg_count st) (j st) NUL;
    Done (Z.of_nat (S (arg_count st)), args')
  else if decide (0 < arg_count st) then
    match args st !! arg_count st with
    | None => Crash (ArgsOverrun (arg_count st))
    | Some _ => Done (Z.of_nat (arg_count st), <[arg_count st := None]> (args st))
    end
  else Done (Z.of_nat (arg_count st), args st).

(** The [for] loop over the input; the list ends where the C string has its
    terminator. *)
Fixpoint parse_loop (junk : ascii) (input : list ascii) (st : pstate)
  : outcome (Z * argv) :=
  match input with
  | [] => parse_finish st
  | c :: rest =>
      if decide (c = NUL \/ c = LF) then parse_finish st
      else if decide (c = DQUOTE) then
        parse_loop junk rest
          (PState (args st) (arg_count st) (negb (in_quotes st)) (j st) (heap st))
      else if decide (c = SPACE /\ in_quotes st = false) then
        if decide (0 < j st) then
          args' ← store (args st) (arg_count st) (j st) NUL;
          let n := S (arg_count st) in
          if decide (MAX_ARGS <= n) then
            (* break: j keeps its value *)
            parse_finish (PState args' n (in_quotes st) (j st) (heap st))
          else
            match heap st with
            | 0 => Done ((-1)%Z, free_args args')
            | S h =>
                parse_loop junk rest
                  (PState (<[n := Some (block junk)]> args') n (in_quotes st) 0 h)
            end
        else parse_loop junk rest st
      else
        args' ← store (args st) (arg_count st) (j st) c;
        parse_loop junk rest
          (PState args' (arg_count st) (in_quotes st) (S (j st)) (heap st))
  end.

(** [parse_command(input, args)].  The incoming [args] are released first,
    so the function starts from four NULL slots whatever they held. *)
Definition parse_command (junk : ascii) (heap : nat) (input : cstring)
  : outcome (Z * argv) :=
  match heap with
  | 0 => Done ((-1)%Z, replicate MAX_ARGS None)
  | S h =>
      parse_loop junk input
        (PState (<[0 := Some (block junk)]> (replicate MAX_ARGS None)) 0 false 0 h)
  end.

(** The tokens a caller reads back: the C strings of the first [n] slots. *)
Definition token (args : argv) (k : nat) : option cstring :=
  match args !! k with
  | Some (Some buf) => Some (c_str buf)
  | _ => None
  end.

Definition tokens (r : Z * argv) : list (option cstring) :=
  token r.2 <$> seq 0 (Z.to_nat r.1).

End Parser.

Import Parser.

(** ** utils.c: string_format *)

Module Format.

(** One variadic argument: a [const char *] (NULL is [None]) or an [int]. *)
Inductive fmt_arg : Type :=
  | ArgStr (s : option cstring)
  | ArgInt (v : Z).

Definition INT_MIN : Z := (-2147483648)%Z.

Definition digit (d : Z) : ascii := ascii_of_nat (48 + Z.to_nat d).

(** [while (value > 0 && temp_pos < 20) temp[temp_pos++] = '0' + value % 10],
    least significant digit first. *)
Fixpoint int_digits (fuel : nat) (value : Z) : list ascii :=
  match fuel with
  | 0 => []
  | S fuel' =>
      if decide (0 < value)%Z
      then digit (value mod 10) :: int_digits fuel' (value / 10)
      else []
  end.

(** The [%d] case, with [room] the bytes left before [size - 1]
    (at least one on entry). *)
Definition format_int (room : nat) (value : Z) : cstring :=
  let sign := if decide (value < 0)%Z then ["-"%char] else [] in
  if decide ((value < 0)%Z /\ room <= 1) then sign
  else
    (* -INT_MIN overflows; the value then stays negative and has no digits *)
    let value' := if decide (value < 0)%Z
                  then (if decide (value = INT_MIN) then INT_MIN else - value)%Z
                  else value in
    if decide (value' = 0)%Z then sign ++ ["0"%char]
    else sign ++ take (room - length sign) (rev (int_digits 20 value')).

(** The formatting loop; [buf] is the output so far, so [buffer_pos] is
    [length buf].  A conversion whose argument is missing or of the other
    kind is undefined in C: the embedding stops there (no call of this
    program does that). *)
Fixpoint format_loop (size : nat) (format : list ascii) (args : list fmt_arg)
    (buf : cstring) : cstring :=
  match format with
  | [] => buf
  | c :: rest =>
      if decide (length buf < size - 1) then
        if decide (c = "%"%char) then
          match rest with
          | [] => format_loop size rest args (buf ++ [c])
          | c' :: rest' =>
              if decide (c' = "s"%char) then
                match args with
                | ArgStr s :: args' =>
                    let s' := default (str "(null)") s in
                    format_loop size rest' args'
                      (buf ++ take (size - 1 - length buf) s')
                | _ => buf
                end
              else if decide (c' = "d"%char) then
                match args with
                | ArgInt v :: args' =>
                    format_loop size rest' args'
                      (buf ++ format_int (size - 1 - length buf) v)
                | _ => buf
                end
              else if decide (c' = "%"%char) then
                format_loop size rest' args (buf ++ ["%"%char])
              else format_loop size rest args (buf ++ [c])
          end
        else format_loop size rest args (buf ++ [c])
      else buf
  end.

(** [string_format(buffer, size, format, ...)]: the return value and the
    C string left in [buffer]. *)
Definition string_format (size : nat) (format : cstring) (args : list fmt_arg)
  : Z * cstring :=
  if decide (size = 0) then ((-1)%Z, [])
  else let buf := format_loop size format args [] in (Z.of_nat (length buf), buf).

(** The text a format denotes when nothing is cut off: what the
    specification calls the template of a message. *)
Definition int_text (value : Z) : cstring :=
  if decide (value < 0)%Z then
    "-"%char :: (if decide (value = INT_MIN) then [] else rev (int_digits 20 (- value)))
  else if decide (value = 0)%Z then ["0"%char]
  else rev (int_digits 20 value).

Fixpoint expand (format : list ascii) (args : list fmt_arg) : cstring :=
  match format with
  | [] => []
  | c :: rest =>
      if decide (c = "%"%char) then
        match rest with
        | [] => c :: expand rest args
        | c' :: rest' =>
            if decide (c' = "s"%char) then
              match args with
              | ArgStr s :: args' => default (str "(null)") s ++ expand rest' args'
              | _ => []
              end
            else if decide (c' = "d"%char) then
              match args with
              | ArgInt v :: args' => int_text v ++ expand rest' args'
              | _ => []
              end
            else if decide (c' = "%"%char) then "%"%char :: expand rest' args
            else c :: expand rest args
        end
      else c :: expand rest args
  end.

End Format.

Import Format.

(** ** The operating system, as far as the program uses it

    The program is a sequence of system calls on one file system, two
    output streams and a clock.  [world] is that state; a computation is a
    function [world -> A * world].

    - A path names a node verbatim (there is no normalisation: [./a] and [a]
      are different names); a name without a slash lives in the working
      directory, which always exists.  Two names are two files: there are
      no links.
    - [readdir] returns the entries of a directory in an order the file
      system chooses.  The model lists them in the order of its map; what
      is stated of a listing holds for every order.
    - Each fallible system call first consults [oracle] at its position in
      the run: [Some e] makes the call fail with [e] for a reason outside the
      model (permissions, a full disk, a contended lock, no memory).
      Otherwise the call succeeds or fails as the file system decides.
    - A transfer is all or nothing (no short reads or writes), and writes to
      the two standard streams always arrive.
    - A forked child runs to its [_exit] before the parent resumes; both
      share the file system and the streams. *)

Module Sys.

Inductive errno : Type :=
  | ENOENT | EEXIST | EISDIR | ENOTDIR | ENOTEMPTY | EBADF | EINVAL
  | EACCES | EWOULDBLOCK | EINTR | ENOMEM | ENOSPC | EIO.

#[global] Instance errno_eq_dec : EqDecision errno.
Proof. solve_decision. Defined.

Definition strerror (e : errno) : cstring :=
  match e with
  | ENOENT => str "No such file or directory"
  | EEXIST => str "File exists"
  | EISDIR => str "Is a directory"
  | ENOTDIR => str "Not a directory"
  | ENOTEMPTY => str "Directory not empty"
  | EBADF => str "Bad file descriptor"
  | EINVAL => str "Invalid argument"
  | EACCES => str "Permission denied"
  | EWOULDBLOCK => str "Resource temporarily unavailable"
  | EINTR => str "Interrupted system call"
  | ENOMEM => str "Cannot allocate memory"
  | ENOSPC => str "No space left on device"
  | EIO => str "Input/output error"
  end.

(** What a path names: a regular file with its bytes, a directory, or
    something else (a device or a pipe: it reads as empty and swallows
    writes). *)
Inductive node : Type :=
  | Reg (content : cstring)
  | Dir
  | Other.

Definition S_ISREG (n : node) : bool := if n is Reg _ then true else false.
Definition S_ISDIR (n : node) : bool := if n is Dir then true else false.

Definition st_size (n : node) : nat :=
  match n with
  | Reg c => length c
  | Dir => 4096
  | Other => 0
  end.

Record world : Type := World {
  fs : gmap cstring node;
  out : cstring;                  (* bytes written to standard output *)
  err : cstring;                  (* bytes written to standard error *)
  clock : nat -> cstring;         (* k-th reading of the clock, as strftime
                                     prints it for "[%Y-%m-%d %H:%M:%S]" *)
  ticks : nat;                    (* clock readings so far *)
  oracle : nat -> option errno;   (* environmental failure of the k-th call *)
  calls : nat                     (* fallible system calls so far *)
}.

Definition set_fs (f : gmap cstring node -> gmap cstring node) (w : world) : world :=
  World (f (fs w)) (out w) (err w) (clock w) (ticks w) (oracle w) (calls w).
Definition add_out (s : cstring) (w : world) : world :=
  World (fs w) (out w ++ s) (err w) (clock w) (ticks w) (oracle w) (calls w).
Definition add_err (s : cstring) (w : world) : world :=
  World (fs w) (out w) (err w ++ s) (clock w) (ticks w) (oracle w) (calls w).
Definition tick (w : world) : world :=
  World (fs w) (out w) (err w) (clock w) (S (ticks w)) (oracle w) (calls w).
Definition called (w : world) : world :=
  World (fs w) (out w) (err w) (clock w) (ticks w) (oracle w) (S (calls w)).

(** The state monad of the program. *)
Definition M (A : Type) : Type := world -> A * world.

#[global] Instance M_ret : MRet M := fun A a w => (a, w).
#[global] Instance M_bind : MBind M := fun A B k m w =>
  let (a, w') := m w in k a w'.

(** The result of a system call: a value, or [-1] with [errno] set. *)
Inductive res (A : Type) : Type :=
  | Ok (a : A)
  | Err (e : errno).
Arguments Ok {A} a.
Arguments Err {A} e.

Definition is_ok {A} (r : res A) : bool := if r is Ok _ then true else false.

(** A call that only the environment can fail: [flock], [close], [malloc],
    [fork]. *)
Definition env_call : M (res unit) := fun w =>
  (match oracle w (calls w) with Some e => Err e | None => Ok () end, called w).

(** [write(STDOUT_FILENO, buf, len)] and [write(STDERR_FILENO, buf, len)];
    [len] is the count the caller passes. *)
Definition write_stdout (buf : cstring) (len : Z) : M unit := fun w =>
  ((), add_out (take (Z.to_nat len) buf) w).
Definition write_stderr (buf : cstring) (len : Z) : M unit := fun w =>
  ((), add_err (take (Z.to_nat len) buf) w).

(** A [cstring] holds the characters before the terminator. *)
Definition strlen (s : cstring) : Z := Z.of_nat (length s).

(** *** Paths *)

Definition SLASH : ascii := "/"%char.

(** [split_path p] cuts [p] at its last slash into directory and name. *)
Fixpoint split_path (p : cstring) : option (cstring * cstring) :=
  match p with
  | [] => None
  | c :: rest =>
      match split_path rest with
      | Some (d, n) => Some (c :: d, n)
      | None => if decide (c = SLASH) then Some ([], rest) else None
      end
  end.

Definition parent_ok (m : gmap cstring node) (p : cstring) : bool :=
  match split_path p with
  | None => true
  | Some (d, _) => if m !! d is Some Dir then true else false
  end.

(** The names [readdir] yields for directory [d] besides [.] and [..], in
    the order of the map. *)
Definition children (m : gmap cstring node) (d : cstring) : list cstring :=
  omap (fun kn : cstring * node =>
          match split_path kn.1 with
          | Some (d', n) => if decide (d' = d) then Some n else None
          | None => None
          end) (map_to_list m).

(** *** Files *)

Definition stat (path : cstring) : M (res node) := fun w =>
  match oracle w (calls w) with
  | Some e => (Err e, called w)
  | None =>
      (match fs w !! path with Some n => Ok n | None => Err ENOENT end, called w)
  end.

Inductive accmode : Type := O_RDONLY | O_WRONLY | O_RDWR.

#[global] Instance accmode_eq_dec : EqDecision accmode.
Proof. solve_decision. Defined.

Record oflags : Type := OFlags {
  o_acc : accmode;
  o_creat : bool;
  o_excl : bool;
  o_append : bool
}.

(** An open file description: the file, the access mode, [O_APPEND], and
    the offset. *)
Record fd : Type := FD {
  fd_path : cstring;
  fd_acc : accmode;
  fd_append : bool;
  fd_off : nat
}.

Definition seek (f : fd) (off : nat) : fd :=
  FD (fd_path f) (fd_acc f) (fd_append f) off.

Definition open (path : cstring) (fl : oflags) : M (res fd) := fun w =>
  let f := FD path (o_acc fl) (o_append fl) 0 in
  match oracle w (calls w) with
  | Some e => (Err e, called w)
  | None =>
      match fs w !! path with
      | None =>
          if o_creat fl && parent_ok (fs w) path
          then (Ok f, set_fs (<[path := Reg []]>) (called w))
          else (Err ENOENT, called w)
      | Some n =>
          if o_creat fl && o_excl fl then (Err EEXIST, called w)
          else if S_ISDIR n && bool_decide (o_acc fl ≠ O_RDONLY)
          then (Err EISDIR, called w)
          else (Ok f, called w)
      end
  end.

(** The bytes of a file after [data] is written at [off]. *)
Definition pwrite (c : cstring) (off : nat) (data : cstring) : cstring :=
  take off c ++ replicate (off - length c) NUL ++ data ++ drop (off + length data) c.

(** [write(fd, buf, count)] on a file: the count written and the
    descriptor with its new offset. *)
Definition write (f : fd) (buf : cstring) (count : Z) : M (res nat * fd) := fun w =>
  let data := take (Z.to_nat count) buf in
  match oracle w (calls w) with
  | Some e => ((Err e, f), called w)
  | None =>
      if decide (fd_acc f = O_RDONLY) then ((Err EBADF, f), called w)
      else
        match fs w !! fd_path f with
        | Some (Reg c) =>
            let off := if fd_append f then length c else fd_off f in
            ((Ok (length data), seek f (off + length data)),
             set_fs (<[fd_path f := Reg (pwrite c off data)]>) (called w))
        | Some Other => ((Ok (length data), f), called w)
        | _ => ((Err EBADF, f), called w)
        end
  end.

(** [read(fd, buffer, count)]: the bytes read. *)
Definition read (f : fd) (count : nat) : M (res cstring * fd) := fun w =>
  match oracle w (calls w) with
  | Some e => ((Err e, f), called w)
  | None =>
      if decide (fd_acc f = O_WRONLY) then ((Err EBADF, f), called w)
      else
        match fs w !! fd_path f with
        | Some (Reg c) =>
            let data := take count (drop (fd_off f) c) in
            ((Ok data, seek f (fd_off f + length data)), called w)
        | Some Other => ((Ok [], f), called w)
        | Some Dir => ((Err EISDIR, f), called w)
        | None => ((Err EBADF, f), called w)
        end
  end.

(** [fstat(fd, &st)], of which the program reads [st.st_size]. *)
Definition fstat (f : fd) : M (res nat) := fun w =>
  match oracle w (calls w) with
  | Some e => (Err e, called w)
  | None =>
      (match fs w !! fd_path f with Some n => Ok (st_size n) | None => Err EBADF end,
       called w)
  end.

(** [lseek(fd, delta, SEEK_END)]. *)
Definition lseek_end (f : fd) (delta : Z) : M (res nat * fd) := fun w =>
  match oracle w (calls w) with
  | Some e => ((Err e, f), called w)
  | None =>
      match fs w !! fd_path f with
      | Some n =>
          let pos := (Z.of_nat (st_size n) + delta)%Z in
          if decide (pos < 0)%Z then ((Err EINVAL, f), called w)
          else ((Ok (Z.to_nat pos), seek f (Z.to_nat pos)), called w)
      | None => ((Err EBADF, f), called w)
      end
  end.

Definition flock : M (res unit) := env_call.
Definition close : M (res unit) := env_call.
Definition malloc : M (res unit) := env_call.
Definition fork : M (res unit) := env_call.

Definition unlink (path : cstring) : M (res unit) := fun w =>
  match oracle w (calls w) with
  | Some e => (Err e, called w)
  | None =>
      match fs w !! path with
      | None => (Err ENOENT, called w)
      | Some Dir => (Err EISDIR, called w)
      | Some _ => (Ok (), set_fs (delete path) (called w))
      end
  end.

(** *** Directories *)

Definition mkdir (path : cstring) : M (res unit) := fun w =>
  match oracle w (calls w) with
  | Some e => (Err e, called w)
  | None =>
      match fs w !! path with
      | Some _ => (Err EEXIST, called w)
      | None =>
          if parent_ok (fs w) path
          then (Ok (), set_fs (<[path := Dir]>) (called w))
          else (Err ENOENT, called w)
      end
  end.

Definition rmdir (path : cstring) : M (res unit) := fun w =>
  match oracle w (calls w) with
  | Some e => (Err e, called w)
  | None =>
      match fs w !! path with
      | None => (Err ENOENT, called w)
      | Some Dir =>
          if decide (children (fs w) path = [])
          then (Ok (), set_fs (delete path) (called w))
          else (Err ENOTEMPTY, called w)
      | Some _ => (Err ENOTDIR, called w)
      end
  end.

(** [opendir]: the stream of names that [readdir] will return. *)
Definition opendir (path : cstring) : M (res (list cstring)) := fun w =>
  match oracle w (calls w) with
  | Some e => (Err e, called w)
  | None =>
      (match fs w !! path with
       | None => Err ENOENT
       | Some Dir => Ok (str "." :: str ".." :: children (fs w) path)
       | Some _ => Err ENOTDIR
       end, called w)
  end.

(** *** The clock *)

(** What the program finds in a local it never initialised because the
    call that should have filled it failed and was not checked (undefined in
    C): an empty buffer, a zero size. *)
Definition unwritten : cstring := [].
Definition unwritten_size : nat := 0.

End Sys.

Import Sys.

(** ** utils.c *)

Definition EXIT_SUCCESS : Z := 0%Z.
Definition EXIT_FAILURE : Z := 1%Z.

(** [get_timestamp(buffer, size)]: [Some] text when it returns [buffer],
    [None] when it returns NULL.  [strftime] yields 0 when the text and its
    terminator do not fit in [size]. *)
Definition get_timestamp (size : nat) : M (option cstring) := fun w =>
  if decide (size < 22) then (None, w)
  else
    let t := clock w (ticks w) in
    if decide (0 < length t < size) then (Some t, tick w) else (None, tick w).

Definition file_exists (filename : cstring) : M bool :=
  r ← stat filename;
  mret (match r with Ok n => S_ISREG n | Err _ => false end).

Definition directory_exists (dirname : cstring) : M bool :=
  r ← stat dirname;
  mret (match r with Ok n => S_ISDIR n | Err _ => false end).

Definition S_ (s : cstring) : fmt_arg := ArgStr (Some s).

(** [int len = string_format(buffer, size, format, ...)]: the buffer and the
    length it returns. *)
Definition sprint (size : nat) (format : string) (args : list fmt_arg) : cstring :=
  (string_format size (str format) args).2.
Definition sprint_len (size : nat) (format : string) (args : list fmt_arg) : Z :=
  (string_format size (str format) args).1.

(** The recurring three lines
    [char msg[256]; int len = string_format(msg, sizeof(msg), format, ...);
     write(STDERR_FILENO, msg, len);] and their standard-output twin. *)
Definition report (size : nat) (format : string) (args : list fmt_arg) : M unit :=
  let error_msg := sprint size format args in
  let len := sprint_len size format args in
  write_stderr error_msg len.

Definition announce (size : nat) (format : string) (args : list fmt_arg) : M unit :=
  let msg := sprint size format args in
  let len := sprint_len size format args in
  write_stdout msg len.

(** *** write_message and write_error

    The two functions loop over [write] until the whole message is out.  A
    [write] on a stream may take fewer bytes than it is given, or fail;
    [answers] lists what the successive calls of one run do. *)

Inductive answer : Type :=
  | Accepts (n : nat)    (* the stream takes at most [n] bytes *)
  | Fails (e : errno).   (* the call returns -1 with [errno] set *)

(** The loop [while (total_written < len)], with [rest] the bytes from
    [message + total_written] on.  The value is what has reached the
    stream when the loop ends; [None] when the answers run out first. *)
Fixpoint write_loop (answers : list answer) (rest : cstring) : option cstring :=
  match answers with
  | [] => if decide (rest = []) then Some [] else None
  | a :: answers' =>
      if decide (rest = []) then Some []
      else
        match a with
        | Accepts n =>
            let bytes_written := n `min` length rest in
            written ← write_loop answers' (drop bytes_written rest);
            Some (take bytes_written rest ++ written)
        | Fails e =>
            if decide (e = EINTR) then write_loop answers' rest   (* continue *)
            else Some []                                           (* break *)
        end
  end.

(** [write_message(message)] and [write_error(message)]: the bytes that
    reach standard output, respectively standard error; NULL is [None]. *)
Definition write_message (answers : list answer) (message : option cstring)
  : option cstring :=
  match message with
  | None => Some []
  | Some m => write_loop answers m
  end.

Definition write_error (answers : list answer) (message : option cstring)
  : option cstring :=
  match message with
  | None => Some []
  | Some m => write_loop answers m
  end.

(** An answer after which the loop goes on, and the number of bytes the
    answers take between them. *)
Definition retried (a : answer) : Prop :=
  match a with Accepts _ => True | Fails e => e = EINTR end.

Fixpoint capacity (answers : list answer) : nat :=
  match answers with
  | [] => 0
  | Accepts n :: answers' => n + capacity answers'
  | Fails _ :: answers' => capacity answers'
  end.

(** ** logging.c *)

Definition LOG_FILE : cstring := str "log.txt".

Definition init_logging : M Z :=
  r ← open LOG_FILE (OFlags O_WRONLY true false true);
  match r with
  | Err e =>
      _ ← report 256 "Error: Could not initialize logging: %s\n" [S_ (strerror e)];
      mret (-1)%Z
  | Ok fd =>
      r ← close;
      match r with
      | Err e =>
          _ ← report 256 "Error: Could not close log file: %s\n" [S_ (strerror e)];
          mret (-1)%Z
      | Ok _ => mret 0%Z
      end
  end.

Definition log_operation (message : cstring) : M Z :=
  r ← open LOG_FILE (OFlags O_WRONLY false false true);
  match r with
  | Err e =>
      _ ← report 256 "Error: Could not open log file: %s\n" [S_ (strerror e)];
      mret (-1)%Z
  | Ok fd =>
      r ← flock;
      match r with
      | Err e =>
          _ ← report 256 "Error: Could not lock log file: %s\n" [S_ (strerror e)];
          _ ← close;
          mret (-1)%Z
      | Ok _ =>
          ts ← get_timestamp 64;
          let timestamp := default unwritten ts in
          let log_entry := sprint 512 "%s %s\n" [S_ timestamp; S_ message] in
          let entry_len := sprint_len 512 "%s %s\n" [S_ timestamp; S_ message] in
          '(r, fd) ← write fd log_entry entry_len;
          match r with
          | Err e =>
              _ ← report 256 "Error: Could not write to log file: %s\n" [S_ (strerror e)];
              _ ← flock;
              _ ← close;
              mret (-1)%Z
          | Ok _ =>
              r ← flock;
              match r with
              | Err e =>
                  _ ← report 256 "Error: Could not unlock log file: %s\n" [S_ (strerror e)];
                  _ ← close;
                  mret (-1)%Z
              | Ok _ =>
                  r ← close;
                  match r with
                  | Err e =>
                      _ ← report 256 "Error: Could not close log file: %s\n" [S_ (strerror e)];
                      mret (-1)%Z
                  | Ok _ => mret 0%Z
                  end
              end
          end
      end
  end.

(** [if (bytes_read > 0 && buffer[bytes_read - 1] != '\n') write(1, "\n", 1)] *)
Definition newline_if_missing (buffer : cstring) : M unit :=
  match last buffer with
  | Some c => if decide (c ≠ LF) then write_stdout (str "\n") 1 else mret ()
  | None => mret ()
  end.

Definition show_logs : M Z :=
  r ← stat LOG_FILE;
  match r with
  | Err e =>
      if decide (e = ENOENT) then
        let no_logs_msg := str "No logs available.\n" in
        _ ← write_stdout no_logs_msg (strlen no_logs_msg);
        mret 0%Z
      else
        _ ← report 256 "Error: Could not access log file: %s\n" [S_ (strerror e)];
        mret (-1)%Z
  | Ok _ =>
      r ← open LOG_FILE (OFlags O_RDONLY false false false);
      match r with
      | Err e =>
          _ ← report 256 "Error: Could not open log file: %s\n" [S_ (strerror e)];
          mret (-1)%Z
      | Ok fd =>
          r ← flock;
          match r with
          | Err e =>
              _ ← report 256 "Error: Could not lock log file: %s\n" [S_ (strerror e)];
              _ ← close;
              mret (-1)%Z
          | Ok _ =>
              r ← fstat fd;
              match r with
              | Err e =>
                  _ ← report 256 "Error: Could not get log file size: %s\n" [S_ (strerror e)];
                  _ ← flock;
                  _ ← close;
                  mret (-1)%Z
              | Ok size =>
                  if decide (size = 0) then
                    let empty_log_msg := str "Log file is empty.\n" in
                    _ ← write_stdout empty_log_msg (strlen empty_log_msg);
                    _ ← flock;
                    _ ← close;
                    mret 0%Z
                  else
                    r ← malloc;
                    match r with
                    | Err _ =>
                        let error_msg := str "Error: Memory allocation failed\n" in
                        _ ← write_stderr error_msg (strlen error_msg);
                        _ ← flock;
                        _ ← close;
                        mret (-1)%Z
                    | Ok _ =>
                        '(r, fd) ← read fd size;
                        match r with
                        | Err e =>
                            _ ← report 256 "Error: Could not read log file: %s\n" [S_ (strerror e)];
                            _ ← flock;
                            _ ← close;
                            mret (-1)%Z
                        | Ok buffer =>
                            r ← flock;
                            match r with
                            | Err e =>
                                _ ← report 256 "Error: Could not unlock log file: %s\n" [S_ (strerror e)];
                                _ ← close;
                                mret (-1)%Z
                            | Ok _ =>
                                r ← close;
                                match r with
                                | Err e =>
                                    _ ← report 256 "Error: Could not close log file: %s\n" [S_ (strerror e)];
                                    mret (-1)%Z
                                | Ok _ =>
                                    let bytes_read := Z.of_nat (length buffer) in
                                    let logs_header := str "Operation Logs:\n" in
                                    _ ← write_stdout logs_header (strlen logs_header);
                                    _ ← write_stdout buffer bytes_read;
                                    _ ← newline_if_missing buffer;
                                    mret 0%Z
                                end
                            end
                        end
                    end
              end
          end
      end
  end.

(** ** fileops.c *)

Definition create_file (filename : cstring) : M Z :=
  found ← file_exists filename;
  if (found : bool) then
    _ ← report 256 "Error: File \q%s\q already exists.\n" [S_ filename];
    mret (-1)%Z
  else
    r ← open filename (OFlags O_WRONLY true true false);
    match r with
    | Err e =>
        _ ← report 256 "Error: Could not create file \q%s\q: %s\n"
              [S_ filename; S_ (strerror e)];
        mret (-1)%Z
    | Ok fd =>
        ts ← get_timestamp 64;
        let timestamp := default unwritten ts in
        '(r, fd) ← write fd timestamp (strlen timestamp);
        match r with
        | Err e =>
            _ ← report 256 "Error: Could not write to file \q%s\q: %s\n"
                  [S_ filename; S_ (strerror e)];
            _ ← close;
            mret (-1)%Z
        | Ok _ =>
            r ← close;
            match r with
            | Err e =>
                _ ← report 256 "Error: Could not close file \q%s\q: %s\n"
                      [S_ filename; S_ (strerror e)];
                mret (-1)%Z
            | Ok _ =>
                let log_msg := sprint 256 "File \q%s\q created successfully." [S_ filename] in
                _ ← log_operation log_msg;
                _ ← announce 256 "File \q%s\q created successfully.\n" [S_ filename];
                mret 0%Z
            end
        end
    end.

Definition read_file (filename : cstring) : M Z :=
  found ← file_exists filename;
  if negb found then
    _ ← report 256 "Error: File \q%s\q not found.\n" [S_ filename];
    mret (-1)%Z
  else
    r ← open filename (OFlags O_RDONLY false false false);
    match r with
    | Err e =>
        _ ← report 256 "Error: Could not open file \q%s\q: %s\n"
              [S_ filename; S_ (strerror e)];
        mret (-1)%Z
    | Ok fd =>
        r ← fstat fd;
        match r with
        | Err e =>
            _ ← report 256 "Error: Could not get file size for \q%s\q: %s\n"
                  [S_ filename; S_ (strerror e)];
            _ ← close;
            mret (-1)%Z
        | Ok size =>
            r ← malloc;
            match r with
            | Err _ =>
                let error_msg := str "Error: Memory allocation failed\n" in
                _ ← write_stderr error_msg (strlen error_msg);
                _ ← close;
                mret (-1)%Z
            | Ok _ =>
                '(r, fd) ← read fd size;
                match r with
                | Err e =>
                    _ ← report 256 "Error: Could not read file \q%s\q: %s\n"
                          [S_ filename; S_ (strerror e)];
                    _ ← close;
                    mret (-1)%Z
                | Ok buffer =>
                    let bytes_read := Z.of_nat (length buffer) in
                    r ← close;
                    match r with
                    | Err e =>
                        _ ← report 256 "Error: Could not close file \q%s\q: %s\n"
                              [S_ filename; S_ (strerror e)];
                        mret (-1)%Z
                    | Ok _ =>
                        let log_msg := sprint 256 "File \q%s\q read successfully." [S_ filename] in
                        _ ← log_operation log_msg;
                        _ ← announce 256 "Contents of \q%s\q:\n" [S_ filename];
                        _ ← write_stdout buffer bytes_read;
                        _ ← newline_if_missing buffer;
                        mret 0%Z
                    end
                end
            end
        end
    end.

(** [append_to_file] of fileops.c: a blocking exclusive lock, then a newline
    and the content. *)
Definition append_to_file (filename content : cstring) : M Z :=
  found ← file_exists filename;
  if negb found then
    _ ← report 256 "Error: File \q%s\q not found.\n" [S_ filename];
    mret (-1)%Z
  else
    r ← open filename (OFlags O_WRONLY false false true);
    match r with
    | Err e =>
        _ ← report 256 "Error: Could not open file \q%s\q: %s\n"
              [S_ filename; S_ (strerror e)];
        mret (-1)%Z
    | Ok fd =>
        r ← flock;
        match r with
        | Err e =>
            _ ← report 256 "Error: Could not lock file \q%s\q: %s\n"
                  [S_ filename; S_ (strerror e)];
            _ ← close;
            mret (-1)%Z
        | Ok _ =>
            (* write(fd, "\n", 1) == -1 || write(fd, content, strlen(content)) == -1 *)
            '(r1, fd) ← write fd (str "\n") 1;
            '(r2, fd) ← (if is_ok r1 then write fd content (strlen content)
                         else mret (r1, fd));
            if negb (is_ok r2) then
              _ ← report 256 "Error: Cannot write to \q%s\q. File is locked or read-only.\n"
                    [S_ filename];
              _ ← flock;
              _ ← close;
              mret (-1)%Z
            else
              r ← flock;
              match r with
              | Err e =>
                  _ ← report 256 "Error: Could not unlock file \q%s\q: %s\n"
                        [S_ filename; S_ (strerror e)];
                  _ ← close;
                  mret (-1)%Z
              | Ok _ =>
                  r ← close;
                  match r with
                  | Err e =>
                      _ ← report 256 "Error: Could not close file \q%s\q: %s\n"
                            [S_ filename; S_ (strerror e)];
                      mret (-1)%Z
                  | Ok _ =>
                      let log_msg := sprint 256 "Content appended to file \q%s\q successfully." [S_ filename] in
                      _ ← log_operation log_msg;
                      _ ← announce 256 "Content appended to file \q%s\q successfully.\n"
                            [S_ filename];
                      mret 0%Z
                  end
              end
        end
    end.

(** The child of the other variant's [append_to_file]; the value is its
    exit status. *)
Definition append_child (filename content : cstring) : M Z :=
  r ← open filename (OFlags O_RDWR false false true);
  match r with
  | Err e =>
      _ ← report 256 "Error: Could not open file \q%s\q: %s\n"
            [S_ filename; S_ (strerror e)];
      mret EXIT_FAILURE
  | Ok fd =>
      r ← flock;   (* LOCK_EX | LOCK_NB *)
      match r with
      | Err e =>
          if decide (e = EWOULDBLOCK) then
            _ ← report 256 "Error: Cannot write to \q%s\q. File is locked or read-only.\n"
                  [S_ filename];
            _ ← close;
            mret EXIT_FAILURE
          else
            _ ← report 256 "Error: Could not lock file \q%s\q: %s\n"
                  [S_ filename; S_ (strerror e)];
            _ ← close;
            mret EXIT_FAILURE
      | Ok _ =>
          r ← fstat fd;
          let size := match r with Ok n => n | Err _ => unwritten_size end in
          fd ← (if decide (0 < size) then
                  '(r, fd) ← lseek_end fd (-1);
                  fd ← (if is_ok r then
                          '(r, fd) ← read fd 1;
                          match r with
                          | Ok [last_char] =>
                              if decide (last_char ≠ LF) then
                                '(_, fd) ← write fd (str "\n") 1; mret fd
                              else mret fd
                          | _ => mret fd
                          end
                        else mret fd);
                  '(_, fd) ← lseek_end fd 0;
                  mret fd
                else mret fd);
          let content_len := strlen content in
          '(r, fd) ← write fd content content_len;
          r1 ← flock;
          r2 ← close;
          match r with
          | Err e =>
              (* errno is that of the last call that failed *)
              let errno := match r2, r1 with
                           | Err e2, _ => e2
                           | _, Err e1 => e1
                           | _, _ => e
                           end in
              _ ← report 256 "Error: Could not write to file \q%s\q: %s\n"
                    [S_ filename; S_ (strerror errno)];
              mret EXIT_FAILURE
          | Ok _ =>
              let log_msg := sprint 256 "Content appended to file \q%s\q." [S_ filename] in
              _ ← log_operation log_msg;
              _ ← announce 256 "Content appended to file \q%s\q successfully.\n"
                    [S_ filename];
              mret EXIT_SUCCESS
          end
      end
  end.

(** [append_to_file] of the other variant of fileops.c: a forked child, a
    non-blocking lock, and a newline only after a last byte that is not
    one. *)
Definition append_to_file_forked (filename content : cstring) : M Z :=
  found ← file_exists filename;
  if negb found then
    _ ← report 256 "Error: File \q%s\q does not exist\n" [S_ filename];
    mret (-1)%Z
  else
    r ← fork;
    match r with
    | Err e =>
        _ ← report 256 "Error: Could not fork process: %s\n" [S_ (strerror e)];
        mret (-1)%Z
    | Ok _ =>
        status ← append_child filename content;
        mret (if decide (status = EXIT_SUCCESS) then 0 else -1)%Z
    end.

(** The block of the forking [append_to_file] between the lock and the
    write of the content (part_001, lines 244-262): it looks at the last
    byte of a file that is not empty and adds a newline after any other
    byte. *)
Definition newline_fixup (fd : fd) (size : nat) : M Sys.fd :=
  if decide (0 < size) then
    '(r, fd) ← lseek_end fd (-1);
    fd ← (if is_ok r then
            '(r, fd) ← read fd 1;
            match r with
            | Ok [last_char] =>
                if decide (last_char ≠ LF) then
                  '(_, fd) ← write fd (str "\n") 1; mret fd
                else mret fd
            | _ => mret fd
            end
          else mret fd);
    '(_, fd) ← lseek_end fd 0;
    mret fd
  else mret fd.

Definition delete_file (filename : cstring) : M Z :=
  found ← file_exists filename;
  if negb found then
    _ ← report 256 "Error: File \q%s\q not found.\n" [S_ filename];
    mret (-1)%Z
  else
    r ← fork;
    match r with
    | Err e =>
        _ ← report 256 "Error: Could not create process: %s\n" [S_ (strerror e)];
        mret (-1)%Z
    | Ok _ =>
        status ← (r ← unlink filename;
                  match r with
                  | Err e =>
                      _ ← report 256 "Error: Could not delete file \q%s\q: %s\n"
                            [S_ filename; S_ (strerror e)];
                      mret EXIT_FAILURE
                  | Ok _ => mret EXIT_SUCCESS
                  end);
        if decide (status = EXIT_SUCCESS) then
          let log_msg := sprint 256 "File \q%s\q deleted successfully." [S_ filename] in
          _ ← log_operation log_msg;
          _ ← announce 256 "File \q%s\q deleted successfully.\n" [S_ filename];
          mret 0%Z
        else mret (-1)%Z
    end.

(** ** dirops.c *)

Definition create_directory (dirname : cstring) : M Z :=
  found ← directory_exists dirname;
  if (found : bool) then
    _ ← report 256 "Error: Directory \q%s\q already exists.\n" [S_ dirname];
    mret (-1)%Z
  else
    r ← mkdir dirname;
    match r with
    | Err e =>
        _ ← report 256 "Error: Could not create directory \q%s\q: %s\n"
              [S_ dirname; S_ (strerror e)];
        mret (-1)%Z
    | Ok _ =>
        let log_msg := sprint 256 "Directory \q%s\q created successfully." [S_ dirname] in
        _ ← log_operation log_msg;
        _ ← announce 256 "Directory \q%s\q created successfully.\n" [S_ dirname];
        mret 0%Z
    end.

(** [strcmp(name, ".") == 0 || strcmp(name, "..") == 0] *)
Definition is_dot (name : cstring) : bool :=
  bool_decide (name = str ".") || bool_decide (name = str "..").

(** The [readdir] loop of [list_directory]; the value is [count]. *)
Fixpoint list_directory_loop (dirname : cstring) (entries : list cstring)
    (count : nat) : M nat :=
  match entries with
  | [] => mret count
  | d_name :: rest =>
      if is_dot d_name then list_directory_loop dirname rest count
      else
        let path := sprint 512 "%s/%s" [S_ dirname; S_ d_name] in
        r ← stat path;
        match r with
        | Err _ => list_directory_loop dirname rest count
        | Ok st =>
            _ ← (if S_ISDIR st then announce 512 "  [DIR] %s\n" [S_ d_name]
                 else announce 512 "  %s\n" [S_ d_name]);
            list_directory_loop dirname rest (S count)
        end
  end.

Definition list_directory (dirname : cstring) : M Z :=
  found ← directory_exists dirname;
  if negb found then
    _ ← report 256 "Error: Directory \q%s\q not found.\n" [S_ dirname];
    mret (-1)%Z
  else
    r ← fork;
    match r with
    | Err e =>
        _ ← report 256 "Error: Could not create process: %s\n" [S_ (strerror e)];
        mret (-1)%Z
    | Ok _ =>
        status ← (r ← opendir dirname;
                  match r with
                  | Err e =>
                      _ ← report 256 "Error: Could not open directory \q%s\q: %s\n"
                            [S_ dirname; S_ (strerror e)];
                      mret EXIT_FAILURE
                  | Ok dir =>
                      _ ← announce 256 "Contents of directory \q%s\q:\n" [S_ dirname];
                      count ← list_directory_loop dirname dir 0;
                      _ ← close;   (* closedir *)
                      _ ← (if decide (count = 0) then
                             let empty_msg := str "  (empty directory)\n" in
                             write_stdout empty_msg (strlen empty_msg)
                           else mret ());
                      mret EXIT_SUCCESS
                  end);
        if decide (status = EXIT_SUCCESS) then
          let log_msg := sprint 256 "Listed contents of directory \q%s\q." [S_ dirname] in
          _ ← log_operation log_msg;
          mret 0%Z
        else mret (-1)%Z
    end.

(** [name_len > ext_len && strcmp(d_name + name_len - ext_len, extension) == 0] *)
Definition has_extension (d_name extension : cstring) : bool :=
  let name_len := length d_name in
  let ext_len := length extension in
  bool_decide (ext_len < name_len)
  && bool_decide (drop (name_len - ext_len) d_name = extension).

(** The [readdir] loop of [list_files_by_extension]. *)
Fixpoint list_files_loop (dirname extension : cstring) (entries : list cstring)
    (count : nat) : M nat :=
  match entries with
  | [] => mret count
  | d_name :: rest =>
      if is_dot d_name then list_files_loop dirname extension rest count
      else if has_extension d_name extension then
        let path := sprint 512 "%s/%s" [S_ dirname; S_ d_name] in
        r ← stat path;
        match r with
        | Err _ => list_files_loop dirname extension rest count
        | Ok st =>
            if S_ISREG st then
              _ ← announce 512 "  %s\n" [S_ d_name];
              list_files_loop dirname extension rest (S count)
            else list_files_loop dirname extension rest count
        end
      else list_files_loop dirname extension rest count
  end.

Definition list_files_by_extension (dirname extension : cstring) : M Z :=
  found ← directory_exists dirname;
  if negb found then
    _ ← report 256 "Error: Directory \q%s\q not found.\n" [S_ dirname];
    mret (-1)%Z
  else
    r ← fork;
    match r with
    | Err e =>
        _ ← report 256 "Error: Could not create process: %s\n" [S_ (strerror e)];
        mret (-1)%Z
    | Ok _ =>
        status ← (r ← opendir dirname;
                  match r with
                  | Err e =>
                      _ ← report 256 "Error: Could not open directory \q%s\q: %s\n"
                            [S_ dirname; S_ (strerror e)];
                      mret EXIT_FAILURE
                  | Ok dir =>
                      _ ← announce 256 "Files with extension \q%s\q in directory \q%s\q:\n"
                            [S_ extension; S_ dirname];
                      count ← list_files_loop dirname extension dir 0;
                      _ ← close;   (* closedir *)
                      _ ← (if decide (count = 0) then
                             announce 256 "No files with extension \q%s\q found in \q%s\q.\n"
                               [S_ extension; S_ dirname]
                           else mret ());
                      mret EXIT_SUCCESS
                  end);
        if decide (status = EXIT_SUCCESS) then
          let log_msg := sprint 256 "Listed files with extension \q%s\q in directory \q%s\q." [S_ extension; S_ dirname] in
          _ ← log_operation log_msg;
          mret 0%Z
        else mret (-1)%Z
    end.

(** The [readdir] loop of [delete_directory]: [is_empty]. *)
Fixpoint is_empty_loop (entries : list cstring) : bool :=
  match entries with
  | [] => true
  | d_name :: rest => if is_dot d_name then is_empty_loop rest else false
  end.

Definition delete_directory (dirname : cstring) : M Z :=
  found ← directory_exists dirname;
  if negb found then
    _ ← report 256 "Error: Directory \q%s\q not found.\n" [S_ dirname];
    mret (-1)%Z
  else
    r ← fork;
    match r with
    | Err e =>
        _ ← report 256 "Error: Could not create process: %s\n" [S_ (strerror e)];
        mret (-1)%Z
    | Ok _ =>
        status ← (r ← opendir dirname;
                  match r with
                  | Err e =>
                      _ ← report 256 "Error: Could not open directory \q%s\q: %s\n"
                            [S_ dirname; S_ (strerror e)];
                      mret EXIT_FAILURE
                  | Ok dir =>
                      let is_empty := is_empty_loop dir in
                      _ ← close;   (* closedir *)
                      if negb is_empty then
                        _ ← report 256 "Error: Directory \q%s\q is not empty.\n" [S_ dirname];
                        mret EXIT_FAILURE
                      else
                        r ← rmdir dirname;
                        match r with
                        | Err e =>
                            _ ← report 256 "Error: Could not delete directory \q%s\q: %s\n"
                                  [S_ dirname; S_ (strerror e)];
                            mret EXIT_FAILURE
                        | Ok _ => mret EXIT_SUCCESS
                        end
                  end);
        if decide (status = EXIT_SUCCESS) then
          let log_msg := sprint 256 "Directory \q%s\q deleted successfully." [S_ dirname] in
          _ ← log_operation log_msg;
          _ ← announce 256 "Directory \q%s\q deleted successfully.\n" [S_ dirname];
          mret 0%Z
        else mret (-1)%Z
    end.

(** ** fileManager.c: the dispatcher *)

Definition help_text : cstring :=
  str "Usage: fileManager <command> [arguments]\n\n"
  ++ str "Commands:\n\n"
  ++ str "  createDir \qfolderName\q - Create a new directory\n\n"
  ++ str "  createFile \qfileName\q - Create a new file\n\n"
  ++ str "  listDir \qfolderName\q - List all files in a directory\n\n"
  ++ str "  listFilesByExtension \qfolderName\q \q.txt\q - List files with specific extension\n\n"
  ++ str "  readFile \qfileName\q - Read a file's content\n\n"
  ++ str "  appendToFile \qfileName\q \qnew content\q - Append content to a file\n\n"
  ++ str "  deleteFile \qfileName\q - Delete a file\n\n"
  ++ str "  deleteDir \qfolderName\q - Delete an empty directory\n\n"
  ++ str "  showLogs - Display operation logs\n\n".

Definition display_help : M unit := write_stdout help_text (strlen help_text).

(** Which of the two variants of fileops.c the program is linked with. *)
Inductive fileops_variant : Type := Locking | Forking.

Definition append_with (v : fileops_variant) : cstring -> cstring -> M Z :=
  match v with
  | Locking => append_to_file
  | Forking => append_to_file_forked
  end.

(** [execute_command(args, arg_count)]; [args] holds the [arg_count]
    strings that are set. *)
Definition execute_command (v : fileops_variant) (args : list cstring) : M Z :=
  let arg_count := length args in
  match args with
  | [] => mret 0%Z
  | cmd :: _ =>
      let arg k := default [] (args !! k) in
      if decide (cmd = str "createDir") then
        if decide (arg_count ≠ 2) then
          _ ← write_stderr (str "Error: createDir requires one argument\n") 39;
          mret (-1)%Z
        else create_directory (arg 1)
      else if decide (cmd = str "createFile") then
        if decide (arg_count ≠ 2) then
          _ ← write_stderr (str "Error: createFile requires one argument\n") 40;
          mret (-1)%Z
        else create_file (arg 1)
      else if decide (cmd = str "listDir") then
        if decide (arg_count ≠ 2) then
          _ ← write_stderr (str "Error: listDir requires one argument\n") 37;
          mret (-1)%Z
        else list_directory (arg 1)
      else if decide (cmd = str "listFilesByExtension") then
        if decide (arg_count ≠ 3) then
          _ ← write_stderr (str "Error: listFilesByExtension requires two arguments\n") 51;
          mret (-1)%Z
        else list_files_by_extension (arg 1) (arg 2)
      else if decide (cmd = str "readFile") then
        if decide (arg_count ≠ 2) then
          _ ← write_stderr (str "Error: readFile requires one argument\n") 38;
          mret (-1)%Z
        else read_file (arg 1)
      else if decide (cmd = str "appendToFile") then
        if decide (arg_count ≠ 3) then
          _ ← write_stderr (str "Error: appendToFile requires two arguments\n") 43;
          mret (-1)%Z
        else append_with v (arg 1) (arg 2)
      else if decide (cmd = str "deleteFile") then
        if decide (arg_count ≠ 2) then
          _ ← write_stderr (str "Error: deleteFile requires one argument\n") 40;
          mret (-1)%Z
        else delete_file (arg 1)
      else if decide (cmd = str "deleteDir") then
        if decide (arg_count ≠ 2) then
          _ ← write_stderr (str "Error: deleteDir requires one argument\n") 39;
          mret (-1)%Z
        else delete_directory (arg 1)
      else if decide (cmd = str "showLogs") then show_logs
      else if decide (cmd = str "exit" \/ cmd = str "quit") then mret 1%Z
      else if decide (cmd = str "help") then
        _ ← display_help; mret 0%Z
      else
        _ ← report 100 "Error: Unknown command '%s'\n" [S_ cmd];
        mret (-1)%Z
  end.

(** [strdup] of each argument; [false] when an allocation fails. *)
Fixpoint dup_args (argv : list cstring) : M bool :=
  match argv with
  | [] => mret true
  | _ :: rest =>
      r ← malloc;
      if is_ok r then dup_args rest else mret false
  end.

(** [main]: [argv] without the program name; the value is the exit status. *)
Definition main (v : fileops_variant) (argv : list cstring) : M Z :=
  _ ← init_logging;
  if decide (length argv = 0) then
    _ ← display_help; mret EXIT_SUCCESS
  else if decide (Parser.MAX_ARGS < length argv) then
    _ ← write_stderr (str "Error: Too many arguments\n") 26;
    mret EXIT_FAILURE
  else
    copied ← dup_args argv;
    if negb copied then
      _ ← write_stderr (str "Error: Memory allocation failed\n") 32;
      mret EXIT_FAILURE
    else
      result ← execute_command v argv;
      mret (if decide (result < 0)%Z then EXIT_FAILURE else EXIT_SUCCESS).

(** ** fileManager.c: the argument blocks and the handlers that free them

    [main] copies its arguments with [strdup] into [args], and [g_args]
    holds the same pointers for [exit_handler] (run by [exit]) and
    [cleanup_handler] (run on SIGINT and SIGTERM).  The two arrays alias:
    this part of the embedding keeps the pointers, not the strings. *)

Module Blocks.

(** A pointer to a block; NULL is [None]. *)
Abbreviation ptr := (option nat).

Record mem : Type := Mem {
  args : list ptr;      (* char *args[MAX_ARGS] of main *)
  g_args : list ptr;    (* static char *g_args[MAX_ARGS] *)
  live : list nat;      (* the blocks allocated and not freed *)
  brk : nat             (* the next block malloc hands out *)
}.

(** [free(p)] for [p] not NULL; [None] when the block is not allocated
    (it was freed before). *)
Definition free (b : nat) (live : list nat) : option (list nat) :=
  if decide (b ∈ live) then Some (List.filter (fun b' => bool_decide (b' ≠ b)) live)
  else None.

(** [for (i = 0; i < MAX_ARGS; i++) if (a[i]) { free(a[i]); a[i] = NULL; }],
    the body of [free_args], [exit_handler] and [cleanup_handler]: the
    blocks that stay allocated. *)
Fixpoint free_all (a : list ptr) (live : list nat) : option (list nat) :=
  match a with
  | [] => Some live
  | None :: a' => free_all a' live
  | Some b :: a' => live' ← free b live; free_all a' live'
  end.

Definition free_args (m : mem) : option mem :=
  live' ← free_all (args m) (live m);
  Some (Mem ((fun _ => None) <$> args m) (g_args m) live' (brk m)).

Definition exit_handler (m : mem) : option mem :=
  live' ← free_all (g_args m) (live m);
  Some (Mem (args m) ((fun _ => None) <$> g_args m) live' (brk m)).

(** [cleanup_handler] does the same and then calls [_exit], so that
    [exit_handler] does not run after it. *)
Definition cleanup_handler (m : mem) : option mem := exit_handler m.

(** [g_args[i] = args[i]]: the pointers, not copies of the blocks. *)
Definition sync_args (m : mem) : mem :=
  Mem (args m) (args m) (live m) (brk m).

(** [args[i] = strdup(...)], which succeeds or returns NULL. *)
Definition strdup (ok : bool) (i : nat) (m : mem) : mem :=
  if ok then Mem (<[i := Some (brk m)]> (args m)) (g_args m) (brk m :: live m) (S (brk m))
  else Mem (<[i := None]> (args m)) (g_args m) (live m) (brk m).

(** The statements of [main] that touch the blocks. *)
Inductive stmt : Type :=
  | SyncArgs
  | Strdup (i : nat) (ok : bool)
  | ExecuteCommand
  | FreeArgs.

#[global] Instance stmt_eq_dec : EqDecision stmt.
Proof. solve_decision. Defined.

#[global] Instance mem_eq_dec : EqDecision mem.
Proof. solve_decision. Defined.

Definition exec_stmt (s : stmt) (m : mem) : option mem :=
  match s with
  | SyncArgs => Some (sync_args m)
  | Strdup i ok => Some (strdup ok i m)
  | ExecuteCommand => Some m
  | FreeArgs => free_args m
  end.

Fixpoint run (p : list stmt) (m : mem) : option mem :=
  match p with
  | [] => Some m
  | s :: p' => m' ← exec_stmt s m; run p' m'
  end.

(** The copying loop from index [i] on, for [n] arguments still to copy;
    [oks] tells which calls of [strdup] succeed (all those it does not
    list).  After the loop come the statements of the path taken. *)
Fixpoint copy_args (n i : nat) (oks : list bool) : list stmt :=
  match n with
  | 0 => [SyncArgs; ExecuteCommand; FreeArgs; SyncArgs]
  | S n' =>
      let ok := default true (head oks) in
      Strdup i ok ::
        (if ok then copy_args n' (S i) (tail oks) else [FreeArgs; SyncArgs])
  end.

(** [main] with [arg_count] arguments after the program name. *)
Definition main (arg_count : nat) (oks : list bool) : list stmt :=
  if decide (arg_count = 0) then []
  else SyncArgs ::
    (if decide (MAX_ARGS < arg_count) then [] else copy_args arg_count 0 oks).

Definition start : mem :=
  Mem (replicate MAX_ARGS None) (replicate MAX_ARGS None) [] 0.

End Blocks.

(** ** The tokenizer of the specification

    Section 4.3 of the specification, word for word: two states, a quote
    toggles the state and is dropped, an unquoted space ends a token,
    empty tokens are dropped, the line ends at a newline.  This is the
    reference that [parse_command] is compared with. *)

Module ParserSpec.

Definition close_token (cur : cstring) (more : list cstring) : list cstring :=
  if decide (cur = []) then more else cur :: more.

Fixpoint spec_tokens_from (input : list ascii) (quoted : bool) (cur : cstring)
  : list cstring :=
  match input with
  | [] => close_token cur []
  | c :: rest =>
      if decide (c = NUL \/ c = LF) then close_token cur []
      else if decide (c = DQUOTE) then spec_tokens_from rest (negb quoted) cur
      else if decide (c = SPACE /\ quoted = false) then
        close_token cur (spec_tokens_from rest quoted [])
      else spec_tokens_from rest quoted (cur ++ [c])
  end.

Definition spec_tokens (input : cstring) : list cstring :=
  spec_tokens_from input false [].

End ParserSpec.

Import ParserSpec.

(** ** Vocabulary of the statements *)

(** The log as the program sees it: the bytes of [LOG_FILE]. *)
Definition log_content (w : world) : option cstring :=
  match fs w !! LOG_FILE with
  | Some (Reg c) => Some c
  | _ => None
  end.

(** A run without environmental failures. *)
Definition calm (w : world) : Prop := forall k, oracle w k = None.

(** The timestamp a caller finds in its buffer after [get_timestamp]. *)
Definition stamp (w : world) : cstring := default unwritten (get_timestamp 64 w).1.

(** The line [log_operation] formats for [message] at time [ts]. *)
Definition entry_of (ts msg : cstring) : cstring :=
  sprint 512 "%s %s\n" [S_ ts; S_ msg].

(** The newline [read_file] and [show_logs] print after content that does
    not end in one. *)
Definition trailing_newline (c : cstring) : cstring :=
  match last c with
  | Some a => if decide (a = LF) then [] else [LF]
  | None => []
  end.

(** A world for examples: the given files, empty streams, a clock that
    stands still, and no environmental failure. *)
Definition calm_world (files : list (cstring * node)) : world :=
  World (list_to_map files) [] [] (fun _ => str "[2024-01-02 03:04:05]") 0
    (fun _ => None) 0.

(** A reported failure without side effect: the result is [-1], the file
    system (the log with it) and standard output are as before, and
    standard error has grown by a message. *)
Definition failed (w : world) (r : Z * world) : Prop :=
  r.1 = (-1)%Z /\ fs r.2 = fs w /\ out r.2 = out w
  /\ exists m, m ≠ [] /\ err r.2 = err w ++ m.

(** A successful operation leaves the log one entry longer: [c] then a
    timestamp and [msg]. *)
Definition logs_one (c msg : cstring) (r : Z * world) : Prop :=
  r.1 = 0%Z ->
  exists ts, length ts < 64 /\ log_content r.2 = Some (c ++ entry_of ts msg).

(** The log message documented for each command that has one. *)
Definition template (v : fileops_variant) (args : list cstring)
  : option (string * list fmt_arg) :=
  match args with
  | [cmd; a] =>
      if decide (cmd = str "createDir") then
        Some ("Directory \q%s\q created successfully."%string, [S_ a])
      else if decide (cmd = str "createFile") then
        Some ("File \q%s\q created successfully."%string, [S_ a])
      else if decide (cmd = str "listDir") then
        Some ("Listed contents of directory \q%s\q."%string, [S_ a])
      else if decide (cmd = str "readFile") then
        Some ("File \q%s\q read successfully."%string, [S_ a])
      else if decide (cmd = str "deleteFile") then
        Some ("File \q%s\q deleted successfully."%string, [S_ a])
      else if decide (cmd = str "deleteDir") then
        Some ("Directory \q%s\q deleted successfully."%string, [S_ a])
      else None
  | [cmd; a; b] =>
      if decide (cmd = str "listFilesByExtension") then
        Some ("Listed files with extension \q%s\q in directory \q%s\q."%string,
              [S_ b; S_ a])
      else if decide (cmd = str "appendToFile") then
        Some (match v with
              | Locking => "Content appended to file \q%s\q successfully."%string
              | Forking => "Content appended to file \q%s\q."%string
              end, [S_ a])
      else None
  | _ => None
  end.

(** The test [list_files_by_extension] applies to an entry [n] of
    directory [d]. *)
Definition selected (m : gmap cstring node) (d ext n : cstring) : bool :=
  negb (is_dot n) && has_extension n ext
  && match m !! sprint 512 "%s/%s" [S_ d; S_ n] with
     | Some (Reg _) => true
     | _ => false
     end.

(** The line printed for a listed entry. *)
Definition entry_line (n : cstring) : cstring := sprint 512 "  %s\n" [S_ n].

(** A block that holds the terminated token [t]. *)
Definition holds (buf : list ascii) (t : cstring) : Prop :=
  (NUL ∉ t) /\ exists rest, buf = t ++ NUL :: rest.

(** The loop invariant of [parse_loop]: [done] are the finished tokens,
    [cur] the characters of the token under construction. *)
Record rep (st : pstate) (done : list cstring) (cur : cstring) : Prop := Rep {
  rep_len : length (args st) = MAX_ARGS;
  rep_count : arg_count st = length done;
  rep_lt : arg_count st < MAX_ARGS;
  rep_done : forall k t, done !! k = Some t ->
             exists buf, args st !! k = Some (Some buf) /\ holds buf t;
  rep_cur : exists buf, args st !! arg_count st = Some (Some buf)
                        /\ length buf = MAX_ARG_SIZE /\ take (j st) buf = cur;
  rep_j : j st = length cur;
  rep_nul : NUL ∉ cur
}.

(** A character that neither ends the line nor toggles the state, and one
    that the loop stores in state [quoted]. *)
Definition plain (c : ascii) : Prop := c ≠ NUL /\ c ≠ LF /\ c ≠ DQUOTE.
Definition stored (quoted : bool) (c : ascii) : Prop :=
  plain c /\ (quoted = true \/ c ≠ SPACE).

(** An unquoted token that fits its block with its terminator. *)
Definition word (t : cstring) : Prop :=
  Forall (stored false) t /\ 0 < length t < MAX_ARG_SIZE.

(** A token that fits its block with its terminator. *)
Definition short (t : cstring) : Prop := length t < MAX_ARG_SIZE.

(** The number a run of decimal digits denotes. *)
Definition digit_value (c : ascii) : Z := (Z.of_nat (nat_of_ascii c) - 48)%Z.
Definition decimal (l : list ascii) : Z :=
  fold_left (fun acc c => (10 * acc + digit_value c)%Z) l 0%Z.
Definition is_digit (c : ascii) : Prop := (0 <= digit_value c <= 9)%Z.

(** What the block can do, whatever the environment does: it moves the
    offset, and it leaves every file as it was but for one newline at the
    end of its own. *)
Definition fixed_up (f : fd) (w : world) (r : fd * world) : Prop :=
  (exists off, r.1 = seek f off)
  /\ oracle r.2 = oracle w /\ out r.2 = out w /\ err r.2 = err w
  /\ clock r.2 = clock w /\ ticks r.2 = ticks w
  /\ (forall q, q ≠ fd_path f -> fs r.2 !! q = fs w !! q)
  /\ (fs w !! fd_path f = None -> fs r.2 !! fd_path f = None)
  /\ (fd_append f = true -> forall c, fs w !! fd_path f = Some (Reg c) ->
      fs r.2 !! fd_path f = Some (Reg c) \/ fs r.2 !! fd_path f = Some (Reg (c ++ [LF]))).

(** What every operation on the path [p] keeps to, whatever the environment
    does: it returns 0 or -1, it leaves the behaviour of the environment and
    every path but [p] and the log as they were, a failure is reported on
    standard error and prints nothing on standard output, and the log only
    grows, by one entry at most and by none on failure. *)
Definition contained (p : cstring) (w : world) (r : Z * world) : Prop :=
  (r.1 = 0 \/ r.1 = -1)%Z
  /\ oracle r.2 = oracle w
  /\ (forall q, q ≠ p -> q ≠ LOG_FILE -> fs r.2 !! q = fs w !! q)
  /\ (r.1 = (-1)%Z -> out r.2 = out w /\ exists m, m ≠ [] /\ err r.2 = err w ++ m)
  /\ (p ≠ LOG_FILE -> forall c, fs w !! LOG_FILE = Some (Reg c) ->
      exists s, fs r.2 !! LOG_FILE = Some (Reg (c ++ s))
        /\ (s = [] \/ exists ts msg, s = entry_of ts msg)
        /\ (r.1 = (-1)%Z -> s = [])).

(** The commands that only read. *)
Definition read_only (cmd : cstring) : Prop :=
  cmd = str "readFile" \/ cmd = str "listDir" \/ cmd = str "listFilesByExtension"
  \/ cmd = str "showLogs" \/ cmd = str "help".

(** [r] is a success, and then [P] holds of the world it leaves. *)
Definition on_success (P : world -> Prop) (r : Z * world) : Prop :=
  r.1 = 0%Z -> P r.2.

(** The file at [p] still starts with [c]. *)
Definition grows (p c : cstring) (r : Z * world) : Prop :=
  exists s, fs r.2 !! p = Some (Reg (c ++ s)).


(** The line [list_directory] prints for entry [n] of directory [d], if it
    prints one. *)
Definition dir_line (m : gmap cstring node) (d n : cstring) : option cstring :=
  if is_dot n then None
  else match m !! sprint 512 "%s/%s" [S_ d; S_ n] with
       | Some Dir => Some (sprint 512 "  [DIR] %s\n" [S_ n])
       | Some _ => Some (sprint 512 "  %s\n" [S_ n])
       | None => None
       end.


(** The names the dispatcher knows. *)
Definition commands : list cstring :=
  [str "createDir"; str "createFile"; str "listDir"; str "listFilesByExtension";
   str "readFile"; str "appendToFile"; str "deleteFile"; str "deleteDir";
   str "showLogs"; str "exit"; str "quit"; str "help"].

Arguments sprint : simpl never.
Arguments sprint_len : simpl never.
Arguments str : simpl never.

(** * Properties *)

(** ** The tokenizer *)

Section parser_facts.

Implicit Types (st : pstate) (buf : list ascii) (t cur : cstring).

Lemma c_str_app_nul t rest : NUL ∉ t -> c_str (t ++ NUL :: rest) = t.
Proof.
  induction t as [|c t IH]; intros Hn; cbn [c_str app].
  - by case_decide.
  - apply not_elem_of_cons in Hn as [Hc Ht].
    case_decide; [congruence|]. by rewrite IH.
Qed.

Lemma holds_c_str buf t : holds buf t -> c_str buf = t.
Proof. intros [Hn [rest ->]]. by apply c_str_app_nul. Qed.

Lemma rep_store st done cur c :
  rep st done cur -> j st < MAX_ARG_SIZE ->
  exists buf, args st !! arg_count st = Some (Some buf)
    /\ length buf = MAX_ARG_SIZE /\ take (j st) buf = cur
    /\ store (args st) (arg_count st) (j st) c
       = Done (<[arg_count st := Some (<[j st := c]> buf)]> (args st)).
Proof.
  intros [? ? ? ? (buf & Hb & Hl & Ht) ? ?] Hj.
  exists buf. repeat split; try done.
  unfold store. rewrite Hb. by rewrite decide_True.
Qed.

Lemma rep_store_crash st done cur c :
  rep st done cur -> MAX_ARG_SIZE <= j st ->
  store (args st) (arg_count st) (j st) c
  = Crash (BufferOverrun (arg_count st) (j st)).
Proof.
  intros [? ? ? ? (buf & Hb & Hl & Ht) ? ?] Hj.
  unfold store. rewrite Hb. rewrite decide_False by lia. done.
Qed.

Lemma rep_toggle st done cur :
  rep st done cur ->
  rep (PState (args st) (arg_count st) (negb (in_quotes st)) (j st) (heap st)) done cur.
Proof. intros []. by constructor. Qed.

Lemma rep_push st done cur buf c :
  rep st done cur -> c ≠ NUL -> j st < MAX_ARG_SIZE ->
  args st !! arg_count st = Some (Some buf) -> length buf = MAX_ARG_SIZE ->
  take (j st) buf = cur ->
  rep (PState (<[arg_count st := Some (<[j st := c]> buf)]> (args st))
         (arg_count st) (in_quotes st) (S (j st)) (heap st)) done (cur ++ [c]).
Proof.
  intros [Hlen Hc Hlt Hd _ Hj Hn] Hc0 Hjlt Hb Hl Ht.
  constructor; simpl.
  - by rewrite length_insert.
  - done.
  - done.
  - intros k t Hk.
    assert (k < arg_count st) by (rewrite Hc; by eapply lookup_lt_Some).
    rewrite list_lookup_insert_ne by lia. by apply Hd.
  - exists (<[j st := c]> buf). split_and!.
    + rewrite list_lookup_insert_eq; [done | lia].
    + by rewrite length_insert.
    + rewrite (take_S_r _ _ c).
      * rewrite take_insert_ge by lia. by rewrite Ht.
      * rewrite list_lookup_insert_eq; [done | lia].
  - rewrite length_app. simpl. lia.
  - rewrite elem_of_app, list_elem_of_singleton. intuition congruence.
Qed.

Lemma rep_next st done cur buf junk h :
  rep st done cur -> S (arg_count st) < MAX_ARGS ->
  args st !! arg_count st = Some (Some buf) -> length buf = MAX_ARG_SIZE ->
  take (j st) buf = cur -> j st < MAX_ARG_SIZE ->
  rep (PState (<[S (arg_count st) := Some (block junk)]>
                 (<[arg_count st := Some (<[j st := NUL]> buf)]> (args st)))
         (S (arg_count st)) (in_quotes st) 0 h) (done ++ [cur]) [].
Proof.
  intros [Hlen Hc Hlt Hd _ Hj Hn] Hlt' Hb Hl Ht Hjlt.
  constructor; simpl.
  - by rewrite !length_insert.
  - rewrite length_app. simpl. lia.
  - done.
  - intros k t Hk.
    destruct (decide (k = arg_count st)) as [->|Hne].
    + rewrite Hc, list_lookup_middle in Hk by done. simplify_eq.
      exists (<[j st := NUL]> buf). split.
      * rewrite list_lookup_insert_ne by lia.
        rewrite list_lookup_insert_eq; [done | lia].
      * split; [done |]. exists (drop (S (j st)) buf).
        rewrite insert_take_drop by lia. done.
    + assert (k < arg_count st).
      { apply lookup_lt_Some in Hk. rewrite length_app in Hk. simpl in Hk. lia. }
      rewrite lookup_app_l in Hk by lia.
      rewrite !list_lookup_insert_ne by lia. by apply Hd.
  - exists (block junk). split_and!.
    + rewrite list_lookup_insert_eq; [done |]. rewrite length_insert. lia.
    + unfold block. by rewrite length_replicate.
    + done.
  - done.
  - apply not_elem_of_nil.
Qed.

(** What a caller reads back after [parse_finish], for a state that
    satisfies the invariant. *)
Lemma parse_finish_refines st done cur n args' :
  rep st done cur ->
  parse_finish st = Done (n, args') ->
  tokens (n, args') = Some <$> (done ++ close_token cur []).
Proof.
  intros Hrep. pose proof Hrep as [Hlen Hc Hlt Hd _ Hj Hn].
  unfold parse_finish, close_token.
  assert (Hdone : forall args0, length args0 = MAX_ARGS ->
            (forall k, k < arg_count st -> args0 !! k = args st !! k) ->
            token args0 <$> seq 0 (arg_count st) = Some <$> done).
  { intros args0 Hl0 Hsame. apply list_eq. intros k.
    rewrite !list_lookup_fmap.
    destruct (decide (k < arg_count st)) as [Hk|Hk].
    - rewrite lookup_seq_lt by done. simpl.
      destruct (lookup_lt_is_Some_2 done k) as [t Ht]; [lia|].
      rewrite Ht. simpl. destruct (Hd _ _ Ht) as (buf & Hb & Hh).
      unfold token. rewrite Hsame, Hb by done. by rewrite (holds_c_str _ _ Hh).
    - rewrite lookup_seq_ge by lia. rewrite lookup_ge_None_2 by lia. done. }
  case_decide as Hj0.
  - destruct (decide (MAX_ARG_SIZE <= j st)) as [Hbig|Hsmall].
    { rewrite (rep_store_crash _ _ _ _ Hrep Hbig). done. }
    destruct (rep_store st done cur NUL Hrep) as (buf & Hb & Hl & Ht & ->); [lia|].
    simpl. intros [= <- <-]. unfold tokens. simpl.
    rewrite Nat2Z.id.
    rewrite decide_False by (intros ->; simpl in Hj; lia).
    replace (S (arg_count st)) with (arg_count st + 1) by lia.
    rewrite seq_app, fmap_app, fmap_app. f_equal.
    + apply Hdone; [by rewrite length_insert|].
      intros k Hk. by rewrite list_lookup_insert_ne by lia.
    + simpl. unfold token. rewrite list_lookup_insert_eq by lia.
      do 2 f_equal. apply holds_c_str. split; [done|].
      exists (drop (S (j st)) buf). rewrite insert_take_drop by lia. by rewrite Ht.
  - assert (cur = []) as -> by (destruct cur; [done | simpl in Hj; lia]).
    destruct (decide (@nil ascii = [])) as [_|]; [|done]. rewrite app_nil_r.
    case_decide as Hac.
    + destruct (args st !! arg_count st) eqn:Ha; [|done].
      intros [= <- <-]. unfold tokens. simpl. rewrite Nat2Z.id.
      apply Hdone; [by rewrite length_insert|].
      intros k Hk. by rewrite list_lookup_insert_ne by lia.
    + intros [= <- <-]. unfold tokens. simpl. rewrite Nat2Z.id.
      by apply Hdone.
Qed.

(** [parse_command] refines the tokenizer of the specification: whenever it
    returns a count other than [-1], the tokens a caller reads back are the
    specified ones. *)
Lemma parse_loop_refines junk input : forall st done cur n args',
  rep st done cur ->
  parse_loop junk input st = Done (n, args') -> n ≠ (-1)%Z ->
  tokens (n, args') = Some <$> (done ++ spec_tokens_from input (in_quotes st) cur).
Proof.
  induction input as [|c rest IH]; intros st done cur n args' Hrep; simpl.
  { intros H _. by eapply parse_finish_refines. }
  case_decide as Hend.
  { intros H _. by eapply parse_finish_refines. }
  case_decide as Hq.
  { intros H Hn. by apply (IH _ _ _ _ _ (rep_toggle _ _ _ Hrep) H Hn). }
  destruct (decide (MAX_ARG_SIZE <= j st)) as [Hbig|Hsmall].
  { repeat case_decide; rewrite ?(rep_store_crash _ _ _ _ Hrep Hbig); try done.
    unfold MAX_ARG_SIZE in *. lia. }
  case_decide as Hsp.
  - destruct Hsp as [-> Hnq]. case_decide as Hj0.
    + destruct (rep_store st done cur NUL Hrep) as (buf & Hb & Hl & Ht & ->); [lia|].
      simpl. case_decide as Hfull.
      * (* the break: the code after the loop indexes args[MAX_ARGS] *)
        unfold parse_finish. simpl. rewrite decide_True by done.
        unfold store. rewrite lookup_ge_None_2; [done|].
        rewrite length_insert, (rep_len _ _ _ Hrep). lia.
      * destruct (heap st) as [|h] eqn:Hh.
        { intros [= <- <-] Hn. done. }
        intros H Hn.
        assert (Hnext := rep_next st done cur buf junk h Hrep ltac:(lia) Hb Hl Ht ltac:(lia)).
        specialize (IH _ _ _ _ _ Hnext H Hn). simpl in IH. rewrite IH.
        unfold close_token. rewrite decide_False.
        -- by rewrite <- app_assoc.
        -- intros ->. pose proof (rep_j _ _ _ Hrep) as Hjl. simpl in *. lia.
    + intros H Hn. pose proof (rep_j _ _ _ Hrep) as Hjl.
      assert (cur = []) as -> by (destruct cur; [done | simpl in *; lia]).
      specialize (IH _ _ _ _ _ Hrep H Hn). unfold close_token.
      by destruct (decide (@nil ascii = [])).
  - destruct (rep_store st done cur c Hrep) as (buf & Hb & Hl & Ht & ->); [lia|].
    simpl. intros H Hn.
    assert (c ≠ NUL) by tauto.
    assert (Hpush := rep_push st done cur buf c Hrep ltac:(done) ltac:(lia) Hb Hl Ht).
    by apply (IH _ _ _ _ _ Hpush H Hn).
Qed.

Lemma rep_initial junk h :
  rep (PState (<[0 := Some (block junk)]> (replicate MAX_ARGS None)) 0 false 0 h) [] [].
Proof.
  constructor; simpl; try done.
  - unfold MAX_ARGS. lia.
  - exists (block junk). split_and!; try done.
  - apply not_elem_of_nil.
Qed.

Lemma parse_command_refines junk heap input n args' :
  parse_command junk heap input = Done (n, args') -> n ≠ (-1)%Z ->
  tokens (n, args') = Some <$> spec_tokens input.
Proof.
  unfold parse_command. destruct heap as [|h].
  - intros [= <- <-]. done.
  - intros H Hn. by apply (parse_loop_refines _ _ _ [] [] _ _ (rep_initial junk h) H Hn).
Qed.

Lemma elem_of_close_token t cur more :
  t ∈ close_token cur more -> t = cur \/ t ∈ more.
Proof.
  unfold close_token. case_decide; [by right|].
  rewrite elem_of_cons. tauto.
Qed.

Lemma spec_tokens_no_quote input : forall quoted cur t,
  DQUOTE ∉ cur -> t ∈ spec_tokens_from input quoted cur -> DQUOTE ∉ t.
Proof.
  induction input as [|c rest IH]; intros quoted cur t Hcur; simpl.
  - intros [->|H]%elem_of_close_token; [done|]. by apply elem_of_nil in H.
  - case_decide as Hend.
    { intros [->|H]%elem_of_close_token; [done|]. by apply elem_of_nil in H. }
    case_decide as Hq; [by apply IH|].
    case_decide as Hsp.
    + intros [->|H]%elem_of_close_token; [done|].
      eapply IH; [|done]. apply not_elem_of_nil.
    + apply IH. rewrite elem_of_app, list_elem_of_singleton. intuition congruence.
Qed.

(** The loop stores a run of characters that its state stores. *)
Lemma parse_loop_span junk s : forall st done cur,
  rep st done cur -> Forall (stored (in_quotes st)) s ->
  length cur + length s <= MAX_ARG_SIZE ->
  exists st', rep st' done (cur ++ s) /\ in_quotes st' = in_quotes st
    /\ heap st' = heap st /\ arg_count st' = arg_count st
    /\ forall rest, parse_loop junk (s ++ rest) st = parse_loop junk rest st'.
Proof.
  induction s as [|c s IH]; intros st done cur Hrep Hs Hlen.
  - exists st. rewrite app_nil_r. done.
  - apply Forall_cons in Hs as [((Hc1 & Hc2 & Hc3) & Hsp) Hs]. simpl in Hlen.
    pose proof (rep_j _ _ _ Hrep) as Hj.
    destruct (rep_store st done cur c Hrep) as (buf & Hb & Hl & Ht & Hst); [lia|].
    assert (Hpush := rep_push st done cur buf c Hrep Hc1 ltac:(lia) Hb Hl Ht).
    destruct (IH _ done (cur ++ [c]) Hpush) as (st' & Hrep' & Hq' & Hh' & Hn' & Hrun);
      [done | rewrite length_app; simpl; lia |].
    exists st'. rewrite <- app_assoc in Hrep'. split_and!; [done..|].
    intros rest. rewrite <- Hrun. simpl.
    rewrite decide_False by tauto. rewrite decide_False by done.
    rewrite decide_False by (intros [-> Hq]; destruct Hsp; congruence).
    rewrite Hst. done.
Qed.

(** Once a block is full, the next store is out of bounds, whatever the
    rest of the line is. *)
Lemma parse_loop_full junk rest : forall st done cur,
  rep st done cur -> j st = MAX_ARG_SIZE ->
  parse_loop junk rest st = Crash (BufferOverrun (arg_count st) MAX_ARG_SIZE).
Proof.
  induction rest as [|c rest IH]; intros st done cur Hrep Hj.
  - simpl. unfold parse_finish. rewrite decide_True by (rewrite Hj; unfold MAX_ARG_SIZE; lia).
    rewrite (rep_store_crash _ _ _ _ Hrep) by lia. by rewrite Hj.
  - simpl. case_decide.
    { unfold parse_finish. rewrite decide_True by (rewrite Hj; unfold MAX_ARG_SIZE; lia).
      rewrite (rep_store_crash _ _ _ _ Hrep) by lia. by rewrite Hj. }
    case_decide.
    { by rewrite (IH _ done cur (rep_toggle _ _ _ Hrep)). }
    case_decide.
    + rewrite decide_True by (rewrite Hj; unfold MAX_ARG_SIZE; lia).
      rewrite (rep_store_crash _ _ _ _ Hrep) by lia. by rewrite Hj.
    + rewrite (rep_store_crash _ _ _ _ Hrep) by lia. by rewrite Hj.
Qed.

(** A word followed by a space, when a slot is left for the next token. *)
Lemma parse_loop_word junk t h : forall st done,
  rep st done [] -> in_quotes st = false -> heap st = S h ->
  S (arg_count st) < MAX_ARGS -> word t ->
  exists st', rep st' (done ++ [t]) [] /\ in_quotes st' = false /\ heap st' = h
    /\ arg_count st' = S (arg_count st)
    /\ forall rest, parse_loop junk (t ++ SPACE :: rest) st = parse_loop junk rest st'.
Proof.
  intros st done Hrep Hq Hh Hlt [Ht Hlen].
  destruct (parse_loop_span junk t st done [] Hrep) as (st1 & Hrep1 & Hq1 & Hh1 & Hn1 & Hrun);
    [by rewrite Hq | simpl; lia |].
  simpl in Hrep1. pose proof (rep_j _ _ _ Hrep1) as Hj1.
  destruct (rep_store st1 done t NUL Hrep1) as (buf & Hb & Hl & Htk & Hst); [lia|].
  eexists. split_and!; [| | | | intros rest; rewrite Hrun; simpl].
  5: { rewrite decide_True by (by rewrite Hq1, Hq). rewrite decide_True by lia.
       rewrite Hst. simpl. rewrite decide_False by lia. rewrite Hh1, Hh. reflexivity. }
  - apply (rep_next st1 done t buf junk h Hrep1); [lia | done | done | done | lia].
  - simpl. by rewrite Hq1.
  - done.
  - simpl. by rewrite Hn1.
Qed.

(** The space after the fourth token: the [break], then the store through
    [args[MAX_ARGS]]. *)
Lemma parse_loop_break junk t rest : forall st done,
  rep st done [] -> in_quotes st = false -> S (arg_count st) = MAX_ARGS -> word t ->
  parse_loop junk (t ++ SPACE :: rest) st = Crash (ArgsOverrun MAX_ARGS).
Proof.
  intros st done Hrep Hq Hn [Ht Hlen].
  destruct (parse_loop_span junk t st done [] Hrep) as (st1 & Hrep1 & Hq1 & Hh1 & Hn1 & Hrun);
    [by rewrite Hq | simpl; lia |].
  simpl in Hrep1. pose proof (rep_j _ _ _ Hrep1) as Hj1.
  destruct (rep_store st1 done t NUL Hrep1) as (buf & Hb & Hl & Htk & Hst); [lia|].
  rewrite Hrun. simpl.
  rewrite decide_True by (by rewrite Hq1, Hq). rewrite decide_True by lia.
  rewrite Hst. simpl. rewrite decide_True by lia.
  unfold parse_finish. simpl. rewrite decide_True by lia.
  unfold store. rewrite lookup_ge_None_2; [by rewrite Hn1, Hn|].
  rewrite length_insert, (rep_len _ _ _ Hrep1). lia.
Qed.

End parser_facts.

(** C4. The line [createFile "my file.txt"] parses to exactly two tokens,
    [createFile] and [my file.txt]; and for every line: a double quote only
    flips the quoted state, whatever [parse_command] returns holds the
    tokens of the specification's two-state machine, no returned token
    contains a double quote, and a quoted span (spaces included) comes back
    as one token. *)
Theorem parse_command_quoting :
  (forall junk h, exists args',
      parse_command junk (S (S h)) (str "createFile \qmy file.txt\q") = Done (2%Z, args')
      /\ tokens (2%Z, args') = [Some (str "createFile"); Some (str "my file.txt")])
  /\ (forall junk rest st,
        parse_loop junk (DQUOTE :: rest) st
        = parse_loop junk rest
            (PState (args st) (arg_count st) (negb (in_quotes st)) (j st) (heap st)))
  /\ (forall junk heap input n args',
        parse_command junk heap input = Done (n, args') -> n ≠ (-1)%Z ->
        tokens (n, args') = Some <$> spec_tokens input
        /\ forall t, Some t ∈ tokens (n, args') -> DQUOTE ∉ t)
  /\ (forall junk h s,
        Forall plain s -> 0 < length s < MAX_ARG_SIZE ->
        exists args',
          parse_command junk (S h) (DQUOTE :: s ++ [DQUOTE]) = Done (1%Z, args')
          /\ tokens (1%Z, args') = [Some s]).
Proof.
  split_and!.
  - intros junk h. eexists. split; [vm_compute; reflexivity|]. vm_compute. reflexivity.
  - intros junk rest st. simpl. done.
  - intros junk heap input n args' H Hn.
    pose proof (parse_command_refines _ _ _ _ _ H Hn) as Hr. split; [done|].
    intros t Ht. rewrite Hr in Ht.
    apply list_elem_of_fmap in Ht as (t' & [= ->] & Ht').
    eapply spec_tokens_no_quote; [|exact Ht']. apply not_elem_of_nil.
  - intros junk h s Hs Hlen. unfold parse_command.
    cbn [parse_loop]. rewrite decide_False by (intros [[=]|[=]]).
    rewrite decide_True by done. cbn [negb in_quotes args arg_count j heap].
    pose proof (rep_toggle _ _ _ (rep_initial junk h)) as Hrep0.
    cbn [negb in_quotes args arg_count j heap] in Hrep0.
    destruct (parse_loop_span junk s _ [] [] Hrep0)
      as (st' & Hrep' & Hq' & _ & _ & Hrun);
      [eapply Forall_impl; [exact Hs | by split; [|left]] | simpl; lia |].
    rewrite Hrun. simpl in Hrep'. cbn [parse_loop].
    rewrite decide_False by (intros [[=]|[=]]).
    rewrite decide_True by done.
    set (st2 := PState _ _ _ _ _).
    assert (Hrep2 : rep st2 [] s) by (by apply rep_toggle).
    pose proof (rep_j _ _ _ Hrep2) as Hj. pose proof (rep_count _ _ _ Hrep2) as Hc.
    simpl in Hc.
    destruct (rep_store st2 [] s NUL Hrep2) as (buf & Hb & Hl & Ht & Hst); [lia|].
    assert (Hfin : parse_finish st2
                   = Done (1%Z, <[arg_count st2 := Some (<[j st2 := NUL]> buf)]> (args st2))).
    { unfold parse_finish. rewrite decide_True by lia. rewrite Hst. simpl.
      by rewrite Hc. }
    eexists. split; [exact Hfin|].
    rewrite (parse_finish_refines _ _ _ _ _ Hrep2 Hfin). simpl.
    unfold close_token. rewrite decide_False; [done|].
    intros ->. simpl in Hlen. lia.
Qed.

(** A quoted token with two interior spaces comes back whole. *)
Lemma parse_command_quoting_witness :
  exists args',
    parse_command "x"%char 1 (DQUOTE :: str "a b c" ++ [DQUOTE]) = Done (1%Z, args')
    /\ tokens (1%Z, args') = [Some (str "a b c")].
Proof.
  apply (proj2 (proj2 (proj2 parse_command_quoting)) "x"%char 0 (str "a b c")).
  - unfold plain. repeat constructor; discriminate.
  - vm_compute. split; lia.
Defined.

(** C5. On a line with material for a fifth token the function does not
    return 4: at the space after the fourth token the loop breaks with
    [arg_count = MAX_ARGS] and the [j] of the fourth token, and the code
    after the loop stores a terminator through [args[MAX_ARGS]], outside
    the argument array (and would count a fifth token).  This is so for
    every line that starts with four words and a space, [a b c d e] and
    [a b c d ] among them. *)
Theorem parse_command_fifth_token :
  (forall junk h,
      parse_command junk (S (S (S (S h)))) (str "a b c d e") = Crash (ArgsOverrun 4)
      /\ parse_command junk (S (S (S (S h)))) (str "a b c d ") = Crash (ArgsOverrun 4))
  /\ (forall junk h t1 t2 t3 t4 rest,
        word t1 -> word t2 -> word t3 -> word t4 ->
        parse_command junk (S (S (S (S h))))
          (t1 ++ SPACE :: t2 ++ SPACE :: t3 ++ SPACE :: t4 ++ SPACE :: rest)
        = Crash (ArgsOverrun MAX_ARGS)).
Proof.
  split.
  - intros junk h. split; vm_compute; reflexivity.
  - intros junk h t1 t2 t3 t4 rest H1 H2 H3 H4. unfold parse_command.
    destruct (parse_loop_word junk t1 (S (S h)) _ [] (rep_initial junk (S (S (S h)))))
      as (st1 & Hrep1 & Hq1 & Hh1 & Hn1 & ->);
      [done | done | simpl; unfold MAX_ARGS; lia | done |].
    destruct (parse_loop_word junk t2 (S h) st1 _ Hrep1)
      as (st2 & Hrep2 & Hq2 & Hh2 & Hn2 & ->);
      [done | done | rewrite Hn1; simpl; unfold MAX_ARGS; lia | done |].
    destruct (parse_loop_word junk t3 h st2 _ Hrep2)
      as (st3 & Hrep3 & Hq3 & Hh3 & Hn3 & ->);
      [done | done | rewrite Hn2, Hn1; simpl; unfold MAX_ARGS; lia | done |].
    apply (parse_loop_break junk t4 rest st3 _ Hrep3); [done | | done].
    by rewrite Hn3, Hn2, Hn1.
Qed.

(** Four one-letter words, then a fifth. *)
Lemma parse_command_fifth_token_witness :
  parse_command "x"%char 4
    (str "a" ++ SPACE :: str "b" ++ SPACE :: str "c" ++ SPACE :: str "d" ++ SPACE :: str "e")
  = Crash (ArgsOverrun MAX_ARGS).
Proof.
  apply (proj2 parse_command_fifth_token "x"%char 0).
  all: split; [repeat constructor; (discriminate || (right; discriminate))
              | vm_compute; split; lia].
Defined.

(** C9. The stores of [parse_command] are not confined to the block: a
    line whose first token has [MAX_ARG_SIZE] characters or more runs into
    a store at index [MAX_ARG_SIZE], whatever follows; a token of 257
    characters has a character stored there, one of 256 characters its
    terminator, and quoting changes nothing. *)
Theorem parse_command_long_token :
  (forall junk h,
      parse_command junk (S h) (replicate 257 "a"%char) = Crash (BufferOverrun 0 256)
      /\ parse_command junk (S h) (replicate 256 "a"%char) = Crash (BufferOverrun 0 256)
      /\ parse_command junk (S h) (DQUOTE :: replicate 257 "a"%char ++ [DQUOTE])
         = Crash (BufferOverrun 0 256))
  /\ (forall junk h s rest,
        Forall (stored false) s -> length s = MAX_ARG_SIZE ->
        parse_command junk (S h) (s ++ rest) = Crash (BufferOverrun 0 MAX_ARG_SIZE)).
Proof.
  split.
  - intros junk h. split_and!; vm_compute; reflexivity.
  - intros junk h s rest Hs Hlen. unfold parse_command.
    destruct (parse_loop_span junk s _ [] [] (rep_initial junk h))
      as (st' & Hrep' & _ & _ & Hn' & ->); [done | simpl; lia |].
    rewrite (parse_loop_full junk rest st' [] _ Hrep').
    + by rewrite Hn'.
    + pose proof (rep_j _ _ _ Hrep') as Hj. simpl in Hj. lia.
Qed.

(** A line of 300 letters. *)
Lemma parse_command_long_token_witness :
  parse_command "x"%char 1 (replicate 256 "a"%char ++ replicate 44 "a"%char)
  = Crash (BufferOverrun 0 MAX_ARG_SIZE).
Proof.
  apply (proj2 parse_command_long_token "x"%char 0).
  - apply Forall_replicate. split; [repeat split; discriminate | right; discriminate].
  - vm_compute. reflexivity.
Defined.

(** ** string_format *)

Section format_facts.

Implicit Types (buf s : cstring) (args : list fmt_arg).

Lemma take_app_fill (N : nat) buf s more :
  length buf <= N ->
  take N ((buf ++ take (N - length buf) s) ++ more) = take N (buf ++ s ++ more).
Proof.
  intros Hb. rewrite <- (app_assoc buf).
  rewrite (take_app_ge buf) by done. rewrite (take_app_ge buf) by done.
  f_equal. destruct (decide (length s <= N - length buf)) as [Hs|Hs].
  - by rewrite (take_ge s) by done.
  - rewrite !take_app_le; [by rewrite take_idemp | lia |].
    rewrite length_take. lia.
Qed.

(** The [%d] case writes a prefix of the number's text. *)
Lemma format_int_take room v : 0 < room -> format_int room v = take room (int_text v).
Proof.
  intros Hroom. unfold format_int, int_text.
  destruct (decide (v < 0)%Z) as [Hneg|Hpos].
  - destruct room as [|[|room]]; [lia | |].
    + rewrite decide_True by (split; [done | lia]). done.
    + rewrite decide_False by lia.
      destruct (decide (v = INT_MIN)) as [->|Hmin].
      * rewrite decide_False by done. done.
      * rewrite decide_False by lia. cbn [app length take Nat.sub]. done.
  - rewrite decide_False by tauto.
    destruct (decide (v = 0)%Z) as [->|Hz]; cbn [app length].
    + by rewrite take_ge by (simpl; lia).
    + by rewrite Nat.sub_0_r.
Qed.

(** [string_format] cuts the expanded text at [size - 1] characters. *)
Lemma format_loop_take size fmt : forall args buf,
  length buf <= size - 1 ->
  format_loop size fmt args buf = take (size - 1) (buf ++ expand fmt args).
Proof.
  remember (length fmt) as n eqn:Hn. revert fmt Hn.
  induction n as [n IH] using lt_wf_ind. intros fmt -> args buf Hb.
  assert (Hfull : forall more, length buf = size - 1 -> buf = take (size - 1) (buf ++ more)).
  { intros more Hl. rewrite take_app_le by lia. by rewrite take_ge by lia. }
  assert (Hone : forall c rest, length buf < size - 1 ->
            format_loop size rest args (buf ++ [c])
            = take (size - 1) (buf ++ c :: expand rest args)
            \/ length rest >= length fmt).
  { intros c rest Hl. destruct (decide (length rest < length fmt)) as [Hlt|]; [left | right; lia].
    rewrite (IH _ Hlt rest eq_refl) by (rewrite length_app; simpl; lia).
    by rewrite <- app_assoc. }
  destruct fmt as [|c rest]; simpl.
  { rewrite app_nil_r. by rewrite take_ge by lia. }
  case_decide as Hroom; [|apply Hfull; lia].
  case_decide as Hpc.
  - destruct rest as [|c' rest'].
    { destruct (Hone c [] Hroom) as [?|?]; [done | simpl in *; lia]. }
    case_decide as Hs; [|case_decide as Hd; [|case_decide as Hp]].
    + destruct args as [|[s|v] args']; try (rewrite app_nil_r; by rewrite take_ge by lia).
      rewrite (IH (length rest') ltac:(simpl; lia) rest' eq_refl);
        [|rewrite length_app, length_take; lia].
      replace (size - 1 - length buf) with ((size - 1) - length buf) by lia.
      apply take_app_fill. lia.
    + destruct args as [|[s|v] args']; try (rewrite app_nil_r; by rewrite take_ge by lia).
      rewrite format_int_take by lia.
      rewrite (IH (length rest') ltac:(simpl; lia) rest' eq_refl);
        [|rewrite length_app, length_take; lia].
      apply take_app_fill. lia.
    + rewrite (IH (length rest') ltac:(simpl; lia) rest' eq_refl);
        [|rewrite length_app; simpl; lia].
      by rewrite <- app_assoc.
    + destruct (Hone c (c' :: rest') Hroom) as [->|?]; [done | simpl in *; lia].
  - destruct (Hone c rest Hroom) as [?|?]; [done | simpl in *; lia].
Qed.

Lemma string_format_take size fmt args :
  0 < size ->
  string_format size fmt args
  = (Z.of_nat (length (take (size - 1) (expand fmt args))), take (size - 1) (expand fmt args)).
Proof.
  intros Hs. unfold string_format. rewrite decide_False by lia.
  by rewrite format_loop_take by (simpl; lia).
Qed.

(** The count [string_format] returns covers the whole buffer. *)
Lemma string_format_whole size fmt args :
  take (Z.to_nat (string_format size fmt args).1) (string_format size fmt args).2
  = (string_format size fmt args).2.
Proof.
  unfold string_format. case_decide; simpl; [done|].
  rewrite Nat2Z.id. by rewrite take_ge.
Qed.

Lemma sprint_take size fmt args :
  0 < size -> sprint size fmt args = take (size - 1) (expand (str fmt) args).
Proof. intros Hs. unfold sprint. by rewrite string_format_take. Qed.

End format_facts.

(** ** Running the program *)

Section run_facts.

Implicit Types (w : world) (p : cstring).

Lemma sprint_whole size fmt args :
  take (Z.to_nat (sprint_len size fmt args)) (sprint size fmt args)
  = sprint size fmt args.
Proof. apply string_format_whole. Qed.

Lemma add_out_nil w : add_out [] w = w.
Proof. destruct w. unfold add_out. simpl. by rewrite app_nil_r. Qed.

Lemma report_run size fmt args w :
  report size fmt args w = ((), add_err (sprint size fmt args) w).
Proof. unfold report, write_stderr. by rewrite sprint_whole. Qed.

Lemma announce_run size fmt args w :
  announce size fmt args w = ((), add_out (sprint size fmt args) w).
Proof. unfold announce, write_stdout. by rewrite sprint_whole. Qed.

(** A message whose format starts with an ordinary character is not
    empty. *)
Lemma sprint_nonempty size fmt args c rest :
  2 <= size -> str fmt = c :: rest -> c ≠ "%"%char -> sprint size fmt args ≠ [].
Proof.
  intros Hs Hf Hc. rewrite sprint_take by lia. rewrite Hf. simpl.
  rewrite decide_False by done.
  destruct size as [|[|size]]; [lia | lia | done].
Qed.

Lemma newline_if_missing_run buffer w :
  newline_if_missing buffer w = ((), add_out (trailing_newline buffer) w).
Proof.
  unfold newline_if_missing, trailing_newline, write_stdout, mret, M_ret.
  destruct (last buffer) as [a|]; [|by rewrite add_out_nil].
  destruct (decide (a = LF)) as [->|Hne].
  - rewrite decide_False by (intros H; by apply H). by rewrite add_out_nil.
  - by rewrite decide_True.
Qed.

Lemma pwrite_append c d : pwrite c (length c) d = c ++ d.
Proof.
  unfold pwrite. rewrite take_ge by done. rewrite Nat.sub_diag. simpl.
  rewrite drop_ge by lia. by rewrite app_nil_r.
Qed.

Lemma pwrite_fresh d : pwrite [] 0 d = d.
Proof. unfold pwrite. simpl. by rewrite drop_nil, app_nil_r. Qed.

Lemma take_whole (c : cstring) : take (Z.to_nat (Z.of_nat (length c))) c = c.
Proof. rewrite Nat2Z.id. by rewrite take_ge. Qed.

Lemma take_strlen (s : cstring) : take (Z.to_nat (strlen s)) s = s.
Proof. apply take_whole. Qed.

Lemma read_whole (c : cstring) : take (length c) (drop 0 c) = c.
Proof. rewrite drop_0. by rewrite take_ge. Qed.

Lemma last_byte (c : cstring) :
  0 < length c ->
  take 1 (drop (Z.to_nat (Z.of_nat (length c) + -1)) c)
  = match last c with Some a => [a] | None => [] end.
Proof.
  intros Hl. destruct (last c) as [a|] eqn:Hlast.
  - apply last_Some in Hlast as [c' ->]. rewrite length_app. simpl.
    replace (Z.to_nat (Z.of_nat (length c' + 1) + -1)) with (length c') by lia.
    by rewrite drop_app_length.
  - apply last_None in Hlast as ->. simpl in Hl. lia.
Qed.

Lemma is_empty_loop_dots l :
  is_empty_loop (str "." :: str ".." :: l) = is_empty_loop l.
Proof. reflexivity. Qed.

Lemma stamp_length w : length (stamp w) < 64.
Proof.
  unfold stamp, get_timestamp. repeat case_decide; simpl; lia.
Qed.

End run_facts.

(** ** Symbolic execution

    The operations are run symbolically: the system calls are unfolded, the
    binds are reduced, and the proof splits on what each call consults (the
    oracle, a lookup in the file system), innermost test first.  A call of
    [log_operation] or of a listing loop is kept folded and described by
    its own lemma. *)

Ltac sys_unfold :=
  unfold file_exists, directory_exists;
  unfold stat, open, write, read, fstat, lseek_end, flock, close, malloc, fork,
    unlink, mkdir, rmdir, opendir, write_stdout, write_stderr, get_timestamp;
  unfold env_call.

Ltac red_world :=
  cbn beta iota zeta delta
    [fst snd fs out err clock ticks oracle calls called set_fs add_out add_err
     tick seek fd_path fd_acc fd_append fd_off o_acc o_creat o_excl o_append
     S_ISREG S_ISDIR st_size is_ok negb andb orb default from_option
     EXIT_SUCCESS EXIT_FAILURE] in *.

Ltac case_inner :=
  match goal with
  | H : ?x = _ |- context [match ?x with _ => _ end] => rewrite H
  | |- context [match ?x with _ => _ end] =>
      lazymatch x with
      | context [match _ with _ => _ end] => fail
      | _ => destruct x eqn:?
      end
  end.

Ltac case_calm :=
  match goal with
  | H : calm ?w |- context [oracle ?w ?k] => rewrite (H k)
  end.

Ltac exec_with tac :=
  sys_unfold; unfold mbind, M_bind, mret, M_ret; red_world;
  repeat (first [case_calm | tac | rewrite lookup_insert_eq
                | rewrite report_run | rewrite announce_run
                | rewrite newline_if_missing_run | rewrite sprint_whole | case_inner];
          red_world).

Ltac exec := exec_with fail.

Ltac tidy :=
  rewrite ?read_whole, ?take_whole, ?take_strlen, ?pwrite_append, ?pwrite_fresh in *.

Ltac calm_ok :=
  let k := fresh "k" in
  intros k; red_world;
  repeat match goal with H : oracle _ = oracle _ |- _ => rewrite H end; auto.

Ltac msg_ok :=
  eexists; split; [ | reflexivity];
  eapply sprint_nonempty; [ lia | vm_compute; reflexivity | discriminate ].

Ltac failed_ok :=
  simplify_eq; unfold failed; red_world; split_and!; try done; try msg_ok.

(** ** The logging subsystem *)

(** [init_logging] creates the log when there is none and never truncates
    one that exists. *)
Lemma init_logging_calm w :
  calm w ->
  (fs w !! LOG_FILE = None -> log_content (init_logging w).2 = Some [])
  /\ (forall c, fs w !! LOG_FILE = Some (Reg c) ->
      (init_logging w).1 = 0%Z /\ fs (init_logging w).2 = fs w).
Proof.
  intros Hcalm. split.
  - intros Hn. unfold init_logging, log_content. exec; simplify_map_eq; done.
  - intros c Hc. unfold init_logging. exec; by simplify_eq.
Qed.

Lemma log_operation_effect msg w :
  let w' := (log_operation msg w).2 in
  out w' = out w /\ oracle w' = oracle w /\ clock w' = clock w
  /\ (exists m, err w' = err w ++ m)
  /\ (fs w' = fs w
      \/ exists c ts, fs w !! LOG_FILE = Some (Reg c)
           /\ fs w' = <[LOG_FILE := Reg (c ++ entry_of ts msg)]> (fs w)).
Proof.
  unfold log_operation. exec.
  all: simplify_eq.
  all: split_and!; try done.
  all: try (by exists []; rewrite app_nil_r).
  all: try (by eexists).
  all: try (by left).
  all: try (right; do 2 eexists; split; [done|]; by rewrite pwrite_append).
Qed.

Lemma log_operation_calm msg w c :
  calm w -> fs w !! LOG_FILE = Some (Reg c) ->
  exists w', log_operation msg w = (0%Z, w')
    /\ fs w' = <[LOG_FILE := Reg (c ++ entry_of (stamp w) msg)]> (fs w)
    /\ out w' = out w /\ err w' = err w /\ oracle w' = oracle w
    /\ clock w' = clock w.
Proof.
  intros Hc Hl. unfold log_operation, stamp. exec; simplify_eq; tidy.
  all: eexists; split_and!; try done.
Qed.

Lemma log_operation_other msg w q :
  q ≠ LOG_FILE -> fs (log_operation msg w).2 !! q = fs w !! q.
Proof.
  intros Hq. destruct (log_operation_effect msg w) as (_ & _ & _ & _ & [->|(c & ts & _ & ->)]);
    [done|]. by rewrite lookup_insert_ne.
Qed.

(** What is known of the world after a folded [log_operation]. *)
Ltac use_log p Hp :=
  match goal with
  | H : log_operation ?m ?w0 = _ |- _ =>
      let Hother := fresh "Hother" in
      let Ho := fresh "Ho" in
      pose proof (log_operation_other m w0 p Hp) as Hother;
      pose proof (log_operation_effect m w0) as (_ & Ho & _);
      rewrite H in Hother, Ho; red_world
  end.

(** ** Precondition violations *)

Section violations.
Variables (w : world) (p : cstring).

Lemma create_file_existing : is_Some (fs w !! p) -> failed w (create_file p w).
Proof. intros [n Hn]. unfold create_file. exec. all: failed_ok. Qed.

Lemma read_file_missing : fs w !! p = None -> failed w (read_file p w).
Proof. intros Hn. unfold read_file. exec. all: failed_ok. Qed.

Lemma append_to_file_missing content :
  fs w !! p = None -> failed w (append_to_file p content w).
Proof. intros Hn. unfold append_to_file. exec. all: failed_ok. Qed.

Lemma append_to_file_forked_missing content :
  fs w !! p = None -> failed w (append_to_file_forked p content w).
Proof. intros Hn. unfold append_to_file_forked. exec. all: failed_ok. Qed.

Lemma delete_file_missing : fs w !! p = None -> failed w (delete_file p w).
Proof. intros Hn. unfold delete_file. exec. all: failed_ok. Qed.

Lemma delete_directory_missing : fs w !! p = None -> failed w (delete_directory p w).
Proof. intros Hn. unfold delete_directory. exec. all: failed_ok. Qed.

Lemma create_directory_existing : is_Some (fs w !! p) -> failed w (create_directory p w).
Proof. intros [n Hn]. unfold create_directory. exec. all: failed_ok. Qed.

Lemma delete_directory_nonempty :
  fs w !! p = Some Dir -> children (fs w) p ≠ [] -> failed w (delete_directory p w).
Proof.
  intros Hn Hc. unfold delete_directory.
  exec_with ltac:(rewrite is_empty_loop_dots).
  all: failed_ok.
Qed.
End violations.

(** C3. An operation whose existence precondition is violated returns
    failure, reports an error on standard error, and changes neither the
    file system nor the log nor standard output: [create_file] and
    [create_directory] on a path that exists, [read_file],
    [append_to_file] (both variants), [delete_file] and [delete_directory]
    on a path that does not, [delete_directory] on a directory that has
    entries.  This holds whatever the environment does to the system
    calls. *)
Theorem precondition_violation (v : fileops_variant) (w : world) (p content : cstring) :
  (is_Some (fs w !! p) ->
     failed w (create_file p w) /\ failed w (create_directory p w))
  /\ (fs w !! p = None ->
       failed w (read_file p w) /\ failed w (append_with v p content w)
       /\ failed w (delete_file p w) /\ failed w (delete_directory p w))
  /\ (fs w !! p = Some Dir -> children (fs w) p ≠ [] ->
       failed w (delete_directory p w)).
Proof.
  split_and!.
  - intros Hp. split; [by apply create_file_existing | by apply create_directory_existing].
  - intros Hp. split_and!.
    + by apply read_file_missing.
    + destruct v; [by apply append_to_file_missing | by apply append_to_file_forked_missing].
    + by apply delete_file_missing.
    + by apply delete_directory_missing.
  - apply delete_directory_nonempty.
Qed.

(** A directory that holds one file is not deleted. *)
Lemma precondition_violation_witness :
  failed (calm_world [(str "d", Dir); (str "d/f.txt", Reg [])])
    (delete_directory (str "d") (calm_world [(str "d", Dir); (str "d/f.txt", Reg [])])).
Proof.
  apply (proj2 (proj2 (precondition_violation Locking
           (calm_world [(str "d", Dir); (str "d/f.txt", Reg [])]) (str "d") []))).
  - vm_compute. reflexivity.
  - vm_compute. discriminate.
Defined.

(** ** The existence check *)

(** C10. [file_exists] answers true exactly when its [stat] call is not
    failed by the environment and the path names a regular file; so on a
    path that names a directory [read_file], [append_to_file] (both
    variants) and [delete_file] write their not-found message, return [-1]
    and leave the file system, the log with it, as it was. *)
Theorem file_exists_regular_only (w : world) (p : cstring) :
  ((file_exists p w).1 = true
   <-> oracle w (calls w) = None /\ exists c, fs w !! p = Some (Reg c))
  /\ (fs w !! p = Some Dir ->
      read_file p w
      = ((-1)%Z, add_err (sprint 256 "Error: File \q%s\q not found.\n" [S_ p]) (called w))
      /\ (forall content,
            append_to_file p content w
            = ((-1)%Z, add_err (sprint 256 "Error: File \q%s\q not found.\n" [S_ p]) (called w))
            /\ append_to_file_forked p content w
               = ((-1)%Z, add_err (sprint 256 "Error: File \q%s\q does not exist\n" [S_ p])
                            (called w)))
      /\ delete_file p w
         = ((-1)%Z, add_err (sprint 256 "Error: File \q%s\q not found.\n" [S_ p]) (called w))).
Proof.
  split.
  - unfold file_exists. exec; simplify_eq/=.
    + split; [done | by intros [? _]].
    + destruct n; simpl; split; try done; try (by intros [_ [? [=]]]); eauto.
    + split; [done | by intros [_ [? ?]]].
  - intros Hd. split_and!; [| intros content; split |].
    + unfold read_file. exec; by simplify_eq.
    + unfold append_to_file. exec; by simplify_eq.
    + unfold append_to_file_forked. exec; by simplify_eq.
    + unfold delete_file. exec; by simplify_eq.
Qed.

(** The three file operations on a directory. *)
Lemma file_exists_regular_only_witness :
  let w := calm_world [(str "d", Dir)] in
  read_file (str "d") w
  = ((-1)%Z, add_err (sprint 256 "Error: File \q%s\q not found.\n" [S_ (str "d")]) (called w))
  /\ (forall content,
        append_to_file (str "d") content w
        = ((-1)%Z, add_err (sprint 256 "Error: File \q%s\q not found.\n" [S_ (str "d")])
                     (called w))
        /\ append_to_file_forked (str "d") content w
           = ((-1)%Z, add_err (sprint 256 "Error: File \q%s\q does not exist\n"
                                 [S_ (str "d")]) (called w)))
  /\ delete_file (str "d") w
     = ((-1)%Z, add_err (sprint 256 "Error: File \q%s\q not found.\n" [S_ (str "d")]) (called w)).
Proof.
  apply (proj2 (file_exists_regular_only (calm_world [(str "d", Dir)]) (str "d"))).
  vm_compute. reflexivity.
Defined.

(** ** show_logs *)

Lemma show_logs_fs w : fs (show_logs w).2 = fs w.
Proof. unfold show_logs. exec; by simplify_eq. Qed.

Lemma show_logs_calm w c :
  calm w -> fs w !! LOG_FILE = Some (Reg c) -> (show_logs w).1 = 0%Z.
Proof. intros Hc Hl. unfold show_logs. exec; by simplify_eq. Qed.

(** C7. [show_logs] never changes the file system.  When no system call
    is failed by the environment: without a log file it prints
    [No logs available.] and returns 0; with an empty log file it prints
    [Log file is empty.] and returns 0; otherwise it prints the header
    [Operation Logs:], then the whole content, then a newline if and only
    if the content does not end in one, and returns 0. *)
Theorem show_logs_cases (w : world) :
  fs (show_logs w).2 = fs w
  /\ (calm w -> fs w !! LOG_FILE = None ->
      show_logs w = (0%Z, add_out (str "No logs available.\n") (called w)))
  /\ (calm w -> fs w !! LOG_FILE = Some (Reg []) ->
      (show_logs w).1 = 0%Z
      /\ out (show_logs w).2 = out w ++ str "Log file is empty.\n"
      /\ err (show_logs w).2 = err w)
  /\ (forall c, calm w -> fs w !! LOG_FILE = Some (Reg c) -> c ≠ [] ->
      (show_logs w).1 = 0%Z
      /\ out (show_logs w).2
         = out w ++ str "Operation Logs:\n" ++ c ++ trailing_newline c
      /\ err (show_logs w).2 = err w).
Proof.
  split_and!.
  - apply show_logs_fs.
  - intros Hc Hn. unfold show_logs. exec; by simplify_eq.
  - intros Hc Hn. unfold show_logs. exec; simplify_eq; tidy; done.
  - intros c Hc Hn Hne. unfold show_logs. exec; simplify_eq; tidy.
    all: try (destruct c; simpl in *; done).
    all: by rewrite <- ?app_assoc.
Qed.

(** A log of one line without its final newline. *)
Lemma show_logs_cases_witness :
  let w := calm_world [(LOG_FILE, Reg (str "[2024-01-02 03:04:05] x"))] in
  (show_logs w).1 = 0%Z
  /\ out (show_logs w).2
     = out w ++ str "Operation Logs:\n" ++ str "[2024-01-02 03:04:05] x"
       ++ trailing_newline (str "[2024-01-02 03:04:05] x")
  /\ err (show_logs w).2 = err w.
Proof.
  apply (proj2 (proj2 (proj2 (show_logs_cases
           (calm_world [(LOG_FILE, Reg (str "[2024-01-02 03:04:05] x"))]))))).
  - intros k. reflexivity.
  - vm_compute. reflexivity.
  - vm_compute. discriminate.
Defined.

(** ** create_file, then read_file *)

Lemma create_file_success w p :
  p ≠ LOG_FILE -> (create_file p w).1 = 0%Z ->
  fs w !! p = None
  /\ fs (create_file p w).2 !! p = Some (Reg (stamp w))
  /\ oracle (create_file p w).2 = oracle w.
Proof.
  intros Hp. unfold create_file, stamp. exec; try done.
  all: intros _; simplify_eq; tidy.
  all: match goal with H : log_operation ?m ?w0 = _ |- _ =>
         pose proof (log_operation_other m w0 p Hp) as Hother;
         pose proof (log_operation_effect m w0) as (_ & Ho & _);
         rewrite H in Hother, Ho; red_world end.
  all: rewrite ?Hother, ?Ho; simplify_map_eq; tidy; try done.
Qed.

Lemma read_file_success w p c :
  fs w !! p = Some (Reg c) -> (read_file p w).1 = 0%Z ->
  out (read_file p w).2
  = out w ++ sprint 256 "Contents of \q%s\q:\n" [S_ p] ++ c ++ trailing_newline c.
Proof.
  intros Hp. unfold read_file. exec; try done.
  all: intros _; simplify_eq; tidy.
  all: match goal with H : log_operation ?m ?w0 = _ |- _ =>
         pose proof (log_operation_effect m w0) as (Ho & _);
         rewrite H in Ho; red_world end.
  all: rewrite ?Ho; by rewrite <- ?app_assoc.
Qed.

Lemma read_file_calm w p c :
  calm w -> fs w !! p = Some (Reg c) -> (read_file p w).1 = 0%Z.
Proof. intros Hc Hp. unfold read_file. exec; by simplify_eq. Qed.






(** ** append_to_file *)

(** fileops.c: every successful append writes a newline, then the content. *)
Lemma append_to_file_success w p content c :
  p ≠ LOG_FILE -> fs w !! p = Some (Reg c) ->
  (append_to_file p content w).1 = 0%Z ->
  fs (append_to_file p content w).2 !! p = Some (Reg (c ++ LF :: content))
  /\ oracle (append_to_file p content w).2 = oracle w.
Proof.
  intros Hp Hc. unfold append_to_file. exec; try done.
  all: intros _; simplify_eq; tidy.
  all: use_log p Hp.
  all: rewrite ?Hother, ?Ho; simplify_map_eq; tidy; rewrite <- ?app_assoc; try done.
Qed.

Lemma append_to_file_calm w p content c :
  calm w -> fs w !! p = Some (Reg c) -> (append_to_file p content w).1 = 0%Z.
Proof. intros Hcalm Hc. unfold append_to_file. exec; by simplify_eq. Qed.

(** The other variant: a newline only after a last byte that is not one. *)
Lemma append_to_file_forked_calm w p content c :
  calm w -> p ≠ LOG_FILE -> fs w !! p = Some (Reg c) ->
  (append_to_file_forked p content w).1 = 0%Z
  /\ fs (append_to_file_forked p content w).2 !! p
     = Some (Reg (c ++ trailing_newline c ++ content))
  /\ oracle (append_to_file_forked p content w).2 = oracle w.
Proof.
  intros Hcalm Hp Hc. unfold append_to_file_forked, append_child, trailing_newline.
  exec_with ltac:(rewrite last_byte by lia).
  all: try (exfalso; lia).
  all: simplify_eq; tidy.
  all: try use_log p Hp.
  all: rewrite ?Hother, ?Ho; simplify_map_eq; tidy; rewrite <- ?app_assoc; try done.
  exfalso. destruct c; simpl in *; [done | lia].
Qed.

(** C1. The [append_to_file] of fileops.c writes its newline before the
    content whatever the file held: a successful call turns content [c]
    into [c], a newline, the new content.  On an empty file, and on a file
    that ends in a newline, that is one newline more than the rule allows;
    the other variant of the function writes none there. *)
Theorem append_to_file_newline :
  (forall w p content c,
      p ≠ LOG_FILE -> fs w !! p = Some (Reg c) ->
      (append_to_file p content w).1 = 0%Z ->
      fs (append_to_file p content w).2 !! p = Some (Reg (c ++ LF :: content)))
  /\ (let empty := calm_world [(LOG_FILE, Reg []); (str "a.txt", Reg [])] in
      let ended := calm_world [(LOG_FILE, Reg []); (str "a.txt", Reg (str "a\n"))] in
      (append_to_file (str "a.txt") (str "X") empty).1 = 0%Z
      /\ fs (append_to_file (str "a.txt") (str "X") empty).2 !! str "a.txt"
         = Some (Reg (str "\nX"))
      /\ fs (append_to_file (str "a.txt") (str "X") ended).2 !! str "a.txt"
         = Some (Reg (str "a\n\nX"))
      /\ fs (append_to_file_forked (str "a.txt") (str "X") empty).2 !! str "a.txt"
         = Some (Reg (str "X"))
      /\ fs (append_to_file_forked (str "a.txt") (str "X") ended).2 !! str "a.txt"
         = Some (Reg (str "a\nX"))).
Proof.
  split.
  - intros w p content c Hp Hc Hok. by apply append_to_file_success.
  - vm_compute. split_and!; reflexivity.
Qed.

(** An append to the file that [create_file] seeded. *)
Lemma append_to_file_newline_witness :
  let w := calm_world [(LOG_FILE, Reg []); (str "a.txt", Reg (str "[2024-01-02 03:04:05]"))] in
  fs (append_to_file (str "a.txt") (str "X") w).2 !! str "a.txt"
  = Some (Reg (str "[2024-01-02 03:04:05]" ++ LF :: str "X")).
Proof.
  apply (proj1 append_to_file_newline).
  - vm_compute. discriminate.
  - vm_compute. reflexivity.
  - vm_compute. reflexivity.
Defined.

(** Three appends in a row with the forking variant. *)
Lemma append_to_file_forked_thrice w p c :
  calm w -> p ≠ LOG_FILE -> fs w !! p = Some (Reg c) ->
  let w1 := (append_to_file_forked p (str "X") w).2 in
  let w2 := (append_to_file_forked p (str "X") w1).2 in
  let w3 := (append_to_file_forked p (str "X") w2).2 in
  fs w3 !! p = Some (Reg (c ++ trailing_newline c ++ str "X\nX\nX")).
Proof.
  intros Hcalm Hp Hc.
  destruct (append_to_file_forked_calm w p (str "X") c Hcalm Hp Hc) as (_ & H1 & Ho1).
  assert (Hcalm1 : calm (append_to_file_forked p (str "X") w).2)
    by (intros k; by rewrite Ho1).
  destruct (append_to_file_forked_calm _ p (str "X") _ Hcalm1 Hp H1) as (_ & H2 & Ho2).
  assert (Hcalm2 : calm (append_to_file_forked p (str "X")
                           (append_to_file_forked p (str "X") w).2).2)
    by (intros k; by rewrite Ho2).
  destruct (append_to_file_forked_calm _ p (str "X") _ Hcalm2 Hp H2) as (_ & H3 & _).
  simpl. rewrite H3. do 2 f_equal.
  rewrite <- !app_assoc. f_equal. f_equal.
  assert (Hx : forall l : cstring, trailing_newline (l ++ str "X") = [LF]).
  { intros l. unfold trailing_newline.
    replace (l ++ str "X") with (l ++ ["X"%char]) by done. by rewrite last_snoc. }
  rewrite !app_assoc, !Hx. reflexivity.
Qed.

(** ** One log entry per successful operation *)

Ltac logged c :=
  intros _;
  match goal with
  | H : log_operation ?m ?wk = _ |- _ =>
      let w' := fresh "w" in
      let Heq := fresh "Heq" in
      let Hfs := fresh "Hfs" in
      destruct (log_operation_calm m wk c) as (w' & Heq & Hfs & _);
      [ calm_ok
      | red_world;
        repeat match goal with H : fs _ = fs _ |- _ => rewrite H end;
        simplify_map_eq; done
      | rewrite Heq in H; simplify_eq; unfold log_content; red_world;
        rewrite Hfs, lookup_insert_eq; eexists; split; [apply stamp_length | done] ]
  end.

Section one_entry.
Variables (w : world) (c p : cstring).
Hypothesis Hcalm : calm w.
Hypothesis Hlog : fs w !! LOG_FILE = Some (Reg c).
Hypothesis Hp : p ≠ LOG_FILE.

Lemma create_file_logs :
  logs_one c (sprint 256 "File \q%s\q created successfully." [S_ p]) (create_file p w).
Proof.
  unfold logs_one, create_file. exec; try done.
  all: logged c.
Qed.

Lemma read_file_logs :
  logs_one c (sprint 256 "File \q%s\q read successfully." [S_ p]) (read_file p w).
Proof.
  unfold logs_one, read_file. exec; try done.
  all: logged c.
Qed.

Lemma append_to_file_logs content :
  logs_one c (sprint 256 "Content appended to file \q%s\q successfully." [S_ p])
    (append_to_file p content w).
Proof.
  unfold logs_one, append_to_file. exec; try done.
  all: logged c.
Qed.

Lemma append_to_file_forked_logs content :
  logs_one c (sprint 256 "Content appended to file \q%s\q." [S_ p])
    (append_to_file_forked p content w).
Proof.
  unfold logs_one, append_to_file_forked, append_child. exec; try done.
  all: logged c.
Qed.

Lemma delete_file_logs :
  logs_one c (sprint 256 "File \q%s\q deleted successfully." [S_ p]) (delete_file p w).
Proof.
  unfold logs_one, delete_file. exec; try done.
  all: logged c.
Qed.

Lemma create_directory_logs :
  logs_one c (sprint 256 "Directory \q%s\q created successfully." [S_ p])
    (create_directory p w).
Proof.
  unfold logs_one, create_directory. exec; try done.
  all: logged c.
Qed.

Lemma delete_directory_logs :
  logs_one c (sprint 256 "Directory \q%s\q deleted successfully." [S_ p])
    (delete_directory p w).
Proof.
  unfold logs_one, delete_directory. exec; try done.
  all: logged c.
Qed.

End one_entry.

Lemma list_directory_loop_frame d entries : forall count w,
  fs (list_directory_loop d entries count w).2 = fs w
  /\ oracle (list_directory_loop d entries count w).2 = oracle w
  /\ err (list_directory_loop d entries count w).2 = err w.
Proof.
  induction entries as [|n rest IH]; intros count w; [done|].
  cbn [list_directory_loop]. exec.
  all: match goal with |- context [list_directory_loop _ _ ?k ?w0] =>
         destruct (IH k w0) as (-> & -> & ->) end; done.
Qed.

Lemma list_files_loop_frame d ext entries : forall count w,
  fs (list_files_loop d ext entries count w).2 = fs w
  /\ oracle (list_files_loop d ext entries count w).2 = oracle w
  /\ err (list_files_loop d ext entries count w).2 = err w.
Proof.
  induction entries as [|n rest IH]; intros count w; [done|].
  cbn [list_files_loop]. exec.
  all: match goal with |- context [list_files_loop _ _ _ ?k ?w0] =>
         destruct (IH k w0) as (-> & -> & ->) end; done.
Qed.

Ltac use_loop :=
  match goal with
  | H : list_directory_loop ?d ?l ?k ?w0 = (_, ?w1) |- _ =>
      let Hfs := fresh "Hfs" in let Ho := fresh "Ho" in
      destruct (list_directory_loop_frame d l k w0) as (Hfs & Ho & _);
      rewrite H in Hfs, Ho; red_world
  | H : list_files_loop ?d ?e ?l ?k ?w0 = (_, ?w1) |- _ =>
      let Hfs := fresh "Hfs" in let Ho := fresh "Ho" in
      destruct (list_files_loop_frame d e l k w0) as (Hfs & Ho & _);
      rewrite H in Hfs, Ho; red_world
  end.

Section one_entry_listing.
Variables (w : world) (c p : cstring).
Hypothesis Hcalm : calm w.
Hypothesis Hlog : fs w !! LOG_FILE = Some (Reg c).

Lemma list_directory_logs :
  logs_one c (sprint 256 "Listed contents of directory \q%s\q." [S_ p])
    (list_directory p w).
Proof.
  unfold logs_one, list_directory. exec; try done.
  all: use_loop.
  all: logged c.
Qed.

Lemma list_files_by_extension_logs ext :
  logs_one c
    (sprint 256 "Listed files with extension \q%s\q in directory \q%s\q." [S_ ext; S_ p])
    (list_files_by_extension p ext w).
Proof.
  unfold logs_one, list_files_by_extension. exec; try done.
  all: use_loop.
  all: logged c.
Qed.
End one_entry_listing.

Lemma sprint_length size fmt args : length (sprint size fmt args) <= size - 1.
Proof.
  destruct (decide (size = 0)) as [->|Hs].
  - unfold sprint, string_format. simpl. lia.
  - rewrite sprint_take by lia. rewrite length_take. lia.
Qed.

Lemma entry_of_fits ts msg :
  length ts + length msg + 2 <= 511 ->
  entry_of ts msg = ts ++ SPACE :: msg ++ [LF].
Proof.
  intros Hl. unfold entry_of. rewrite sprint_take by lia.
  change (expand (str "%s %s\n") [S_ ts; S_ msg]) with (ts ++ SPACE :: msg ++ [LF]).
  rewrite take_ge; [done|]. rewrite length_app. simpl. rewrite length_app. simpl. lia.
Qed.

Ltac decide_cmd :=
  repeat match goal with
  | |- context [decide (?x = ?y)] =>
      first [ rewrite (decide_True (P := x = y)) by reflexivity
            | rewrite (decide_False (P := x = y)) by (vm_compute; discriminate) ]
  end.

(** C2, amended.  For each of the eight file and directory commands with
    its exact arity: when no system call is failed by the environment, the
    log file exists as a regular file and is not the command's target, a
    run that returns success leaves the log one line longer, and the line
    is a timestamp, a space, the command's message and a newline, the
    message being the documented template cut at 255 characters.  [help]
    and [showLogs] return success and leave the log as it was. *)
Theorem one_entry_per_success v args fmt fargs w c :
  template v args = Some (fmt, fargs) ->
  calm w -> fs w !! LOG_FILE = Some (Reg c) -> args !! 1 ≠ Some LOG_FILE ->
  (execute_command v args w).1 = 0%Z ->
  (exists ts, length ts < 64
     /\ log_content (execute_command v args w).2
        = Some (c ++ ts ++ SPACE :: sprint 256 fmt fargs ++ [LF]))
  /\ sprint 256 fmt fargs = take 255 (expand (str fmt) fargs)
  /\ (forall cmd, cmd = str "help" \/ cmd = str "showLogs" ->
      (execute_command v [cmd] w).1 = 0%Z
      /\ log_content (execute_command v [cmd] w).2 = Some c).
Proof.
  intros Ht Hcalm Hlog Hne Hok. split_and!.
  - assert (Hone : logs_one c (sprint 256 fmt fargs) (execute_command v args w)).
    { destruct args as [|cmd [|a [|b [|? ?]]]]; try done; simpl in Hne;
        assert (Ha : a ≠ LOG_FILE) by congruence; unfold template in Ht;
        repeat case_decide; simplify_eq; unfold execute_command;
        cbn [length lookup list_lookup default from_option]; decide_cmd;
        (rewrite decide_False by (intros Hx; by apply Hx)).
      - by apply create_directory_logs.
      - by apply create_file_logs.
      - by apply list_directory_logs.
      - by apply read_file_logs.
      - by apply delete_file_logs.
      - by apply delete_directory_logs.
      - by apply list_files_by_extension_logs.
      - destruct v; [by apply append_to_file_logs | by apply append_to_file_forked_logs]. }
    destruct (Hone Hok) as (ts & Hts & Hl). exists ts. split; [done|].
    rewrite Hl. rewrite entry_of_fits; [done|].
    pose proof (sprint_length 256 fmt fargs). lia.
  - by rewrite sprint_take by lia.
  - intros cmd [-> | ->]; unfold execute_command; decide_cmd.
    + unfold display_help, write_stdout, mbind, M_bind, mret, M_ret, log_content.
      simpl. by rewrite Hlog.
    + split; [by eapply show_logs_calm|].
      unfold log_content. by rewrite show_logs_fs, Hlog.
Qed.

(** C2 as stated fails for [help] and [showLogs]: both return success and
    leave the log as it was. *)
Lemma help_and_showLogs_log_nothing :
  let w := calm_world [(LOG_FILE, Reg (str "[2024-01-02 03:04:05] earlier entry\n"))] in
  (execute_command Locking [str "help"] w).1 = 0%Z
  /\ log_content (execute_command Locking [str "help"] w).2 = log_content w
  /\ (execute_command Locking [str "showLogs"] w).1 = 0%Z
  /\ log_content (execute_command Locking [str "showLogs"] w).2 = log_content w.
Proof. vm_compute. split_and!; reflexivity. Qed.

Lemma one_entry_per_success_witness :
  exists ts, length ts < 64
    /\ log_content
         (execute_command Locking [str "createFile"; str "a.txt"]
            (calm_world [(LOG_FILE, Reg [])])).2
       = Some ([] ++ ts ++ SPACE
                  :: sprint 256 "File \q%s\q created successfully." [S_ (str "a.txt")]
                  ++ [LF]).
Proof.
  apply (one_entry_per_success Locking [str "createFile"; str "a.txt"]
           "File \q%s\q created successfully." [S_ (str "a.txt")]
           (calm_world [(LOG_FILE, Reg [])]) []).
  - vm_compute. reflexivity.
  - intros k. reflexivity.
  - vm_compute. reflexivity.
  - vm_compute. discriminate.
  - vm_compute. reflexivity.
Defined.

(** ** list_files_by_extension *)

Lemma list_files_loop_calm d ext entries : forall count w,
  calm w ->
  let L := List.filter (selected (fs w) d ext) entries in
  (list_files_loop d ext entries count w).1 = count + length L
  /\ out (list_files_loop d ext entries count w).2
     = out w ++ concat (entry_line <$> L).
Proof.
  induction entries as [|n rest IH]; intros count w Hcalm.
  { simpl. split; [lia | by rewrite app_nil_r]. }
  cbn [list_files_loop List.filter].
  change (selected (fs w) d ext n)
    with (negb (is_dot n) && has_extension n ext
          && match fs w !! sprint 512 "%s/%s" [S_ d; S_ n] with
             | Some (Reg _) => true
             | _ => false
             end).
  destruct (is_dot n); cbn [negb andb]; [by apply IH|].
  destruct (has_extension n ext); cbn [andb]; [|by apply IH].
  exec.
  all: match goal with |- context [list_files_loop _ _ _ ?k ?w0] =>
         destruct (IH k w0) as (-> & ->); [calm_ok|] end.
  all: red_world; simplify_eq; cbn [length concat fmap list_fmap].
  all: split; [lia | by rewrite <- ?app_assoc].
Qed.

Lemma has_extension_spec n ext :
  has_extension n ext = true <-> length ext < length n /\ ext `suffix_of` n.
Proof.
  unfold has_extension. rewrite andb_true_iff, !bool_decide_eq_true.
  split.
  - intros [Hl Hd]. split; [done|]. exists (take (length n - length ext) n).
    transitivity (take (length n - length ext) n ++ drop (length n - length ext) n);
      [by rewrite take_drop | by rewrite Hd].
  - intros [Hl [k ->]]. split; [done|]. rewrite length_app.
    replace (length k + length ext - length ext) with (length k) by lia.
    by rewrite drop_app_length.
Qed.

Lemma is_dot_spec n : is_dot n = false <-> n ≠ str "." /\ n ≠ str "..".
Proof.
  unfold is_dot. rewrite orb_false_iff, !bool_decide_eq_false. done.
Qed.

Lemma selected_spec m d ext n :
  selected m d ext n = true
  <-> n ≠ str "." /\ n ≠ str ".." /\ length ext < length n /\ ext `suffix_of` n
      /\ exists c, m !! sprint 512 "%s/%s" [S_ d; S_ n] = Some (Reg c).
Proof.
  unfold selected. rewrite !andb_true_iff, negb_true_iff, is_dot_spec, has_extension_spec.
  split.
  - intros [[[? ?] [? ?]] Hm]. split_and!; try done.
    destruct (m !! _) as [[c| |]|]; try done. by exists c.
  - intros (? & ? & ? & ? & [c ->]). done.
Qed.

Lemma path_fits d n :
  length d + length n + 1 <= 511 -> sprint 512 "%s/%s" [S_ d; S_ n] = d ++ SLASH :: n.
Proof.
  intros Hl. rewrite sprint_take by lia.
  change (expand (str "%s/%s") [S_ d; S_ n]) with (d ++ SLASH :: n ++ []).
  rewrite app_nil_r. rewrite take_ge; [done|]. rewrite length_app. simpl. lia.
Qed.

Lemma filter_selected_dots m d ext l :
  List.filter (selected m d ext) (str "." :: str ".." :: l)
  = List.filter (selected m d ext) l.
Proof.
  cbn [List.filter]. unfold selected at 1 2.
  change (is_dot (str ".")) with true. change (is_dot (str "..")) with true. done.
Qed.

Lemma list_files_by_extension_calm w d ext :
  calm w -> fs w !! d = Some Dir ->
  let L := List.filter (selected (fs w) d ext) (children (fs w) d) in
  (list_files_by_extension d ext w).1 = 0%Z
  /\ out (list_files_by_extension d ext w).2
     = out w
       ++ sprint 256 "Files with extension \q%s\q in directory \q%s\q:\n" [S_ ext; S_ d]
       ++ concat (entry_line <$> L)
       ++ (if decide (length L = 0)
           then sprint 256 "No files with extension \q%s\q found in \q%s\q.\n"
                  [S_ ext; S_ d]
           else []).
Proof.
  intros Hcalm Hd L. unfold list_files_by_extension. exec; try done.
  all: match goal with H : list_files_loop ?d0 ?e0 ?l ?k ?w0 = _ |- _ =>
         destruct (list_files_loop_calm d0 e0 l k w0) as (Hn & Hout); [calm_ok|];
         pose proof (log_operation_effect
                       (sprint 256 "Listed files with extension \q%s\q in directory \q%s\q."
                          [S_ ext; S_ d])) as Hlogeff;
         rewrite H in Hn, Hout; red_world end.
  all: rewrite filter_selected_dots in Hn, Hout; fold L in Hn, Hout.
  all: match goal with H : log_operation ?m ?w0 = _ |- _ =>
         destruct (Hlogeff w0) as (Hlo & _); rewrite H in Hlo; red_world end.
  all: split; [done|]; rewrite Hlo; red_world; rewrite ?Hout; red_world.
  all: simpl in Hn; try (exfalso; lia).
  all: by rewrite ?app_nil_r, <- ?app_assoc.
Qed.

Lemma path_cut d n :
  sprint 512 "%s/%s" [S_ d; S_ n] = take 511 (d ++ SLASH :: n).
Proof.
  rewrite sprint_take by lia.
  change (expand (str "%s/%s") [S_ d; S_ n]) with (d ++ SLASH :: n ++ []).
  by rewrite app_nil_r.
Qed.

Lemma entry_line_fits n :
  length n <= 508 -> entry_line n = SPACE :: SPACE :: n ++ [LF].
Proof.
  intros Hl. unfold entry_line. rewrite sprint_take by lia.
  change (expand (str "  %s\n") [S_ n]) with (SPACE :: SPACE :: n ++ [LF]).
  rewrite take_ge; [done|]. cbn [length]. rewrite length_app. cbn [length]. lia.
Qed.

(** C8, amended.  In a directory, when no system call is failed by the
    environment, [list_files_by_extension] returns 0 and prints its header,
    one line for each listed entry, and the no-files message when there is
    none.  The lines come in the order of the directory stream, whatever
    that is: the loop prints the listed names of any sequence [readdir]
    returns in the order of that sequence.  An entry is listed if and only
    if it is not [.] or [..], its name is strictly longer than the extension
    and ends with it (compared byte for byte), and the path [dirname/name]
    cut at 511 bytes names a regular file; for an entry whose path is at
    most 511 bytes long that is its own file.  A name of at most 508 bytes
    is printed whole. *)
Theorem list_files_by_extension_lists (w : world) (d ext : cstring) :
  calm w -> fs w !! d = Some Dir ->
  (list_files_by_extension d ext w).1 = 0%Z
  /\ (exists L, L ≡ₚ List.filter (selected (fs w) d ext) (children (fs w) d)
      /\ out (list_files_by_extension d ext w).2
         = out w
           ++ sprint 256 "Files with extension \q%s\q in directory \q%s\q:\n" [S_ ext; S_ d]
           ++ concat (entry_line <$> L)
           ++ (if decide (L = [])
               then sprint 256 "No files with extension \q%s\q found in \q%s\q.\n"
                      [S_ ext; S_ d]
               else []))
  /\ (forall entries,
        out (list_files_loop d ext entries 0 w).2
        = out w ++ concat (entry_line <$> List.filter (selected (fs w) d ext) entries))
  /\ (forall n, selected (fs w) d ext n = true <->
        n ≠ str "." /\ n ≠ str ".."
        /\ length ext < length n /\ ext `suffix_of` n
        /\ exists c, fs w !! take 511 (d ++ SLASH :: n) = Some (Reg c))
  /\ (forall n, length d + length n + 1 <= 511 ->
        (selected (fs w) d ext n = true <->
         n ≠ str "." /\ n ≠ str ".."
         /\ length ext < length n /\ ext `suffix_of` n
         /\ exists c, fs w !! (d ++ SLASH :: n) = Some (Reg c)))
  /\ (forall n, length n <= 508 -> entry_line n = SPACE :: SPACE :: n ++ [LF]).
Proof.
  intros Hcalm Hd.
  destruct (list_files_by_extension_calm w d ext Hcalm Hd) as (Hr & Hout).
  split_and!; [done | | | | | apply entry_line_fits].
  - eexists. split; [reflexivity|]. rewrite Hout. do 3 f_equal.
    destruct (List.filter _ _); by repeat case_decide.
  - intros entries. apply (list_files_loop_calm d ext entries 0 w Hcalm).
  - intros n. by rewrite selected_spec, path_cut.
  - intros n Hl. by rewrite selected_spec, path_fits.
Qed.

(** C8 as stated fails for a file whose whole name is the suffix. *)
Lemma list_files_by_extension_counterexample :
  let w := calm_world [(str "d", Dir); (str "d/.txt", Reg []); (str "d/a.txt", Reg [])] in
  fs w !! str "d/.txt" = Some (Reg [])
  /\ In (str ".txt") (children (fs w) (str "d"))
  /\ str ".txt" `suffix_of` str ".txt"
  /\ out (list_files_by_extension (str "d") (str ".txt") w).2
     = str "Files with extension \q.txt\q in directory \qd\q:\n  a.txt\n".
Proof.
  split_and!.
  - vm_compute. reflexivity.
  - vm_compute. tauto.
  - by exists [].
  - vm_compute. reflexivity.
Qed.

(** Nor is a regular file listed when its path does not fit the 512 bytes
    of [path]: under a directory name of 501 bytes, [stat] is given the
    path cut in the middle of the file's name. *)
Lemma list_files_by_extension_long_path :
  let d := replicate 501 "d"%char in
  let w := calm_world [(d, Dir); (d ++ str "/longname12.txt", Reg [])] in
  In (str "longname12.txt") (children (fs w) d)
  /\ fs w !! (d ++ str "/longname12.txt") = Some (Reg [])
  /\ str ".txt" `suffix_of` str "longname12.txt"
  /\ sprint 512 "%s/%s" [S_ d; S_ (str "longname12.txt")] = d ++ str "/longname1"
  /\ (list_files_by_extension d (str ".txt") w).1 = 0%Z
  /\ out (list_files_by_extension d (str ".txt") w).2
     = sprint 256 "Files with extension \q%s\q in directory \q%s\q:\n" [S_ (str ".txt"); S_ d]
       ++ sprint 256 "No files with extension \q%s\q found in \q%s\q.\n" [S_ (str ".txt"); S_ d].
Proof.
  split_and!.
  - vm_compute. tauto.
  - vm_compute. reflexivity.
  - by exists (str "longname12").
  - vm_compute. reflexivity.
  - vm_compute. reflexivity.
  - vm_compute. reflexivity.
Qed.

Lemma list_files_by_extension_lists_witness :
  let w := calm_world [(str "d", Dir); (str "d/.txt", Reg []); (str "d/a.txt", Reg [])] in
  (list_files_by_extension (str "d") (str ".txt") w).1 = 0%Z
  /\ (selected (fs w) (str "d") (str ".txt") (str "a.txt") = true <->
      str "a.txt" ≠ str "." /\ str "a.txt" ≠ str ".."
      /\ length (str ".txt") < length (str "a.txt")
      /\ str ".txt" `suffix_of` str "a.txt"
      /\ exists c, fs w !! (str "d" ++ SLASH :: str "a.txt") = Some (Reg c)).
Proof.
  intros w.
  destruct (list_files_by_extension_lists w (str "d") (str ".txt")) as (H1 & _ & _ & _ & H5 & _).
  - intros k. reflexivity.
  - vm_compute. reflexivity.
  - split; [exact H1 | apply H5; vm_compute; lia].
Defined.

(** * Further properties

    What the code shows beyond its specification: the edges of the
    tokenizer and of the formatting helper, the discipline the operations
    keep whatever the environment does, when they succeed and what success
    means, how they compose, and who owns the argument blocks. *)

(** ** The tokenizer, further *)

Section parser_more.
Implicit Types (st : pstate) (buf : list ascii) (t cur : cstring).

Lemma parse_loop_line_end junk input rest : forall st,
  parse_loop junk (input ++ LF :: rest) st = parse_loop junk input st.
Proof.
  induction input as [|c input IH]; intros st.
  - reflexivity.
  - cbn [app parse_loop]. repeat case_decide; try done.
    all: try (destruct (store _ _ _ _); simpl; [|done]).
    all: repeat case_decide; try done.
    all: try (destruct (heap st); [done|]).
    all: apply IH.
Qed.

Lemma parse_loop_nul_end junk input rest : forall st,
  parse_loop junk (input ++ NUL :: rest) st = parse_loop junk input st.
Proof.
  induction input as [|c input IH]; intros st.
  - reflexivity.
  - cbn [app parse_loop]. repeat case_decide; try done.
    all: try (destruct (store _ _ _ _); simpl; [|done]).
    all: repeat case_decide; try done.
    all: try (destruct (heap st); [done|]).
    all: apply IH.
Qed.

Lemma parse_finish_quotes a n q q' k h :
  parse_finish (PState a n q k h) = parse_finish (PState a n q' k h).
Proof. reflexivity. Qed.

Lemma parse_loop_open_quote junk input : forall st,
  parse_loop junk (input ++ [DQUOTE]) st = parse_loop junk input st.
Proof.
  induction input as [|c input IH]; intros st.
  - destruct st. reflexivity.
  - cbn [app parse_loop]. repeat case_decide; try done.
    all: try (destruct (store _ _ _ _); simpl; [|done]).
    all: repeat case_decide; try done.
    all: try (destruct (heap st); [done|]).
    all: apply IH.
Qed.

Lemma free_args_replicate (a : argv) : free_args a = replicate (length a) None.
Proof. unfold free_args. induction a as [|x a IH]; [done|]. simpl. by f_equal. Qed.

Lemma store_length a k i c a' : store a k i c = Done a' -> length a' = length a.
Proof.
  unfold store. destruct (a !! k) as [[buf|]|]; try done.
  case_decide; [|done]. intros [= <-]. by rewrite length_insert.
Qed.

Lemma parse_finish_count st n a : parse_finish st = Done (n, a) -> (0 <= n)%Z.
Proof.
  unfold parse_finish. repeat case_decide.
  - destruct (store _ _ _ _); simpl; [|done]. intros [= <- _]. lia.
  - destruct (args st !! arg_count st); [|done]. intros [= <- _]. lia.
  - intros [= <- _]. lia.
Qed.

(** When the loop gives up for want of memory every slot has been
    released. *)
Lemma parse_loop_gives_up junk input : forall st a,
  parse_loop junk input st = Done ((-1)%Z, a) ->
  a = replicate (length (args st)) None
  /\ heap st + arg_count st < MAX_ARGS - 1.
Proof.
  induction input as [|c input IH]; intros st a.
  { intros H%parse_finish_count. lia. }
  cbn [parse_loop]. case_decide as Hend.
  { intros H%parse_finish_count. lia. }
  case_decide as Hq.
  { intros H%IH. done. }
  case_decide as Hsp.
  - case_decide as Hj0; [|by apply IH].
    destruct (store _ _ _ _) as [a'|] eqn:Hst; simpl; [|done].
    apply store_length in Hst. case_decide as Hfull.
    { intros H'%parse_finish_count. lia. }
    destruct (heap st) as [|h] eqn:Hh.
    + intros [= <-]. rewrite free_args_replicate, Hst. split; [done|]. unfold MAX_ARGS in *. lia.
    + intros [Ha Hlt]%IH. simpl in *. rewrite length_insert, Hst in Ha. split; [done|]. unfold MAX_ARGS in *. lia.
  - destruct (store _ _ _ _) as [a'|] eqn:Hst; simpl; [|done].
    apply store_length in Hst. intros [Ha Hlt]%IH. simpl in *.
    rewrite Hst in Ha. done.
Qed.

Lemma spec_tokens_from_prefix input : forall quoted cur,
  cur ≠ [] ->
  exists t l, spec_tokens_from input quoted cur = t :: l /\ cur `prefix_of` t.
Proof.
  induction input as [|c input IH]; intros quoted cur Hcur; simpl.
  - unfold close_token. rewrite decide_False by done. by eexists _, _.
  - case_decide.
    { unfold close_token. rewrite decide_False by done. by eexists _, _. }
    case_decide; [by apply IH|].
    case_decide.
    { unfold close_token. rewrite decide_False by done. by eexists _, _. }
    destruct (IH quoted (cur ++ [c])) as (t & l & -> & Hp).
    { by destruct cur. }
    exists t, l. split; [done|]. etrans; [|exact Hp]. by apply prefix_app_r.
Qed.

Lemma parse_loop_total junk input : forall st done cur,
  rep st done cur ->
  length done + length (spec_tokens_from input (in_quotes st) cur) < MAX_ARGS ->
  Forall short (spec_tokens_from input (in_quotes st) cur) ->
  MAX_ARGS <= S (arg_count st + heap st) ->
  exists k args', parse_loop junk input st = Done (Z.of_nat k, args').
Proof.
  assert (Hfin : forall st done cur, rep st done cur ->
            Forall short (close_token cur []) ->
            exists k args', parse_finish st = Done (Z.of_nat k, args')).
  { intros st done cur Hrep Hs. pose proof (rep_j _ _ _ Hrep) as Hj.
    unfold parse_finish. case_decide as Hj0.
    - unfold close_token in Hs. rewrite decide_False in Hs by (intros ->; simpl in *; lia).
      apply Forall_cons in Hs as [Hs _]. unfold short in Hs.
      destruct (rep_store st done cur NUL Hrep) as (buf & _ & _ & _ & ->); [lia|].
      simpl. by eexists _, _.
    - case_decide.
      + destruct (rep_cur _ _ _ Hrep) as (buf & -> & _). by eexists _, _.
      + by eexists _, _. }
  induction input as [|c input IH]; intros st done cur Hrep Hn Hs Hheap.
  { by eapply Hfin. }
  pose proof (rep_j _ _ _ Hrep) as Hj. pose proof (rep_count _ _ _ Hrep) as Hc.
  cbn [parse_loop spec_tokens_from] in *. case_decide as Hend.
  { by eapply Hfin. }
  case_decide as Hq.
  { by apply (IH _ done cur (rep_toggle _ _ _ Hrep)). }
  case_decide as Hsp.
  - destruct Hsp as [-> Hnq]. case_decide as Hj0.
    + unfold close_token in Hn, Hs.
      rewrite decide_False in Hn, Hs by (intros ->; simpl in *; lia).
      apply Forall_cons in Hs as [Hcur Hs]. unfold short in Hcur. simpl in Hn.
      destruct (rep_store st done cur NUL Hrep) as (buf & Hb & Hl & Ht & ->); [lia|].
      simpl. rewrite decide_False by lia.
      destruct (heap st) as [|h] eqn:Hh; [lia|].
      apply (IH _ (done ++ [cur]) []).
      * apply (rep_next st done cur buf junk h Hrep); [lia | done | done | done | lia].
      * simpl. rewrite length_app. simpl. lia.
      * done.
      * simpl. lia.
    + assert (cur = []) as -> by (destruct cur; [done | simpl in *; lia]).
      unfold close_token in Hn, Hs. rewrite decide_True in Hn, Hs by done.
      by apply (IH _ done []).
  - assert (Hc0 : c ≠ NUL) by tauto.
    destruct (spec_tokens_from_prefix input (in_quotes st) (cur ++ [c]))
      as (t & l & Heq & Hp); [by destruct cur|].
    pose proof Hs as Hs'. rewrite Heq in Hs'.
    apply Forall_cons in Hs' as [Ht _]. unfold short in Ht.
    apply prefix_length in Hp. rewrite length_app in Hp. simpl in Hp.
    destruct (rep_store st done cur c Hrep) as (buf & Hb & Hl & Htk & ->); [lia|].
    simpl. apply (IH _ done (cur ++ [c])).
    + by apply rep_push; [| | lia | | |].
    + done.
    + done.
    + done.
Qed.

End parser_more.

(** X1. The line ends at its first newline (or NUL): what follows is never
    read, so it changes neither the result nor the stored tokens. *)
Theorem parse_command_line_end junk heap input rest :
  parse_command junk heap (input ++ LF :: rest) = parse_command junk heap input
  /\ parse_command junk heap (input ++ NUL :: rest) = parse_command junk heap input.
Proof.
  unfold parse_command. destruct heap as [|h]; [done|].
  split; [apply parse_loop_line_end | apply parse_loop_nul_end].
Qed.

(** X2. A double quote at the end of the line changes nothing: a quoted
    span needs no closing quote, and a quote left open is not reported. *)
Theorem parse_command_open_quote junk heap input :
  parse_command junk heap (input ++ [DQUOTE]) = parse_command junk heap input.
Proof.
  unfold parse_command. destruct heap as [|h]; [done|]. apply parse_loop_open_quote.
Qed.

(** X3. Totality within the limits: on a line of at most three tokens, each
    shorter than [MAX_ARG_SIZE], and with memory for four blocks,
    [parse_command] returns the number of tokens of the line and leaves
    exactly these tokens in [args]. *)
Theorem parse_command_within_limits junk heap input :
  MAX_ARGS <= heap ->
  length (spec_tokens input) < MAX_ARGS ->
  Forall short (spec_tokens input) ->
  exists args',
    parse_command junk heap input = Done (Z.of_nat (length (spec_tokens input)), args')
    /\ tokens (Z.of_nat (length (spec_tokens input)), args') = Some <$> spec_tokens input.
Proof.
  intros Hheap Hn Hs. unfold parse_command. destruct heap as [|h]; [unfold MAX_ARGS in *; lia|].
  destruct (parse_loop_total junk input _ [] [] (rep_initial junk h)) as (k & args' & Hrun);
    [done | done | simpl; lia |].
  assert (Ht : tokens (Z.of_nat k, args') = Some <$> spec_tokens input).
  { apply (parse_loop_refines junk input _ [] [] _ _ (rep_initial junk h) Hrun). lia. }
  assert (Hk : k = length (spec_tokens input)).
  { apply (f_equal length) in Ht. unfold tokens in Ht. simpl in Ht.
    rewrite !length_fmap, length_seq, Nat2Z.id in Ht. done. }
  subst k. by exists args'.
Qed.

Lemma parse_command_within_limits_witness :
  exists args',
    parse_command "x"%char 4 (str "appendToFile \qmy file.txt\q hello")
    = Done (Z.of_nat (length (spec_tokens (str "appendToFile \qmy file.txt\q hello"))), args')
    /\ tokens (Z.of_nat (length (spec_tokens (str "appendToFile \qmy file.txt\q hello"))), args')
       = Some <$> spec_tokens (str "appendToFile \qmy file.txt\q hello").
Proof.
  apply (parse_command_within_limits "x"%char 4 (str "appendToFile \qmy file.txt\q hello")).
  - vm_compute. lia.
  - vm_compute. lia.
  - vm_compute. repeat constructor.
Defined.

(** X4. [parse_command] returns -1 only when [malloc] fails, and then every
    slot of [args] has been released and set to NULL. *)
Theorem parse_command_out_of_memory junk heap input args' :
  parse_command junk heap input = Done ((-1)%Z, args') ->
  heap < MAX_ARGS /\ args' = replicate MAX_ARGS None.
Proof.
  unfold parse_command. destruct heap as [|h].
  - intros [= <-]. split; [unfold MAX_ARGS; lia | done].
  - intros [Ha Hlt]%parse_loop_gives_up. cbn [args arg_count Parser.heap] in Ha, Hlt.
    rewrite length_insert, length_replicate in Ha. split; [unfold MAX_ARGS in *; lia | done].
Qed.

Lemma parse_command_out_of_memory_witness :
  parse_command "x"%char 1 (str "a b") = Done ((-1)%Z, replicate MAX_ARGS None)
  /\ 1 < MAX_ARGS /\ replicate MAX_ARGS None = replicate MAX_ARGS (@None (list ascii)).
Proof.
  split; [vm_compute; reflexivity|].
  apply (parse_command_out_of_memory "x"%char 1 (str "a b") (replicate MAX_ARGS None)).
  vm_compute. reflexivity.
Defined.

(** ** string_format, further *)

Lemma expand_literal l args : "%"%char ∉ l -> expand l args = l.
Proof.
  induction l as [|c l IH]; intros Hl; [done|].
  apply not_elem_of_cons in Hl as [Hc Hl]. simpl.
  rewrite decide_False by done. by rewrite IH.
Qed.

Lemma expand_string a b arg :
  "%"%char ∉ a -> "%"%char ∉ b ->
  expand (a ++ str "%s" ++ b) [ArgStr arg] = a ++ default (str "(null)") arg ++ b.
Proof.
  intros Ha Hb. induction a as [|c a IH].
  - simpl. by rewrite expand_literal.
  - apply not_elem_of_cons in Ha as [Hc Ha]. simpl.
    rewrite decide_False by done. f_equal. by apply IH.
Qed.

Section format_more.
Implicit Types (buf s : cstring) (args : list fmt_arg).

Lemma digit_value_digit d : (0 <= d < 10)%Z -> digit_value (digit d) = d.
Proof.
  intros Hd. unfold digit_value, digit.
  rewrite nat_ascii_embedding by lia. lia.
Qed.

(** The digits of [v], least significant first, read back. *)
Lemma int_digits_value fuel : forall v,
  (0 <= v < 10 ^ Z.of_nat fuel)%Z ->
  fold_right (fun c acc => (10 * acc + digit_value c)%Z) 0%Z (int_digits fuel v) = v
  /\ Forall is_digit (int_digits fuel v)
  /\ (0 < v -> exists c, last (int_digits fuel v) = Some c /\ digit_value c ≠ 0%Z)%Z
  /\ forall k, (v < 10 ^ Z.of_nat k)%Z -> length (int_digits fuel v) <= k.
Proof.
  induction fuel as [|fuel IH]; intros v Hv.
  { simpl in *. assert (v = 0)%Z as -> by lia. split_and!; [done | done | lia | intros; lia]. }
  cbn [int_digits]. case_decide as Hpos.
  2: { assert (v = 0)%Z as -> by lia. split_and!; [done | done | lia | intros; simpl; lia]. }
  assert (Hq : (0 <= v / 10 < 10 ^ Z.of_nat fuel)%Z).
  { split; [apply Z.div_pos; lia|]. apply Z.div_lt_upper_bound; [lia|].
    rewrite Nat2Z.inj_succ, Z.pow_succ_r in Hv by lia. lia. }
  assert (Hm : (0 <= v mod 10 < 10)%Z) by (apply Z.mod_pos_bound; lia).
  destruct (IH _ Hq) as (Hval & Hdig & Hlast & Hlen).
  split_and!.
  - cbn [fold_right]. rewrite Hval, digit_value_digit by done.
    pose proof (Z.div_mod v 10). lia.
  - constructor; [|done]. unfold is_digit. rewrite digit_value_digit by done. lia.
  - intros _. destruct (decide (0 < v / 10)%Z) as [Hbig|Hsmall].
    + destruct (Hlast Hbig) as (c & Hc & Hc0). exists c. split; [|done].
      destruct (int_digits fuel (v / 10)); [done|]. done.
    + assert (v / 10 = 0)%Z as Hz by lia. rewrite Hz.
      exists (digit (v mod 10)). split.
      * destruct fuel; [done|]. cbn [int_digits]. by rewrite decide_False by lia.
      * rewrite digit_value_digit by done. pose proof (Z.div_mod v 10). lia.
  - intros k Hk. destruct k as [|k]; [simpl in Hk; lia|]. simpl.
    apply le_n_S, Hlen. apply Z.div_lt_upper_bound; [lia|].
    rewrite Nat2Z.inj_succ, Z.pow_succ_r in Hk by lia. lia.
Qed.

Lemma decimal_rev l :
  decimal (rev l) = fold_right (fun c acc => (10 * acc + digit_value c)%Z) 0%Z l.
Proof.
  unfold decimal.
  transitivity (fold_right (fun c acc => (10 * acc + digit_value c)%Z) 0%Z (rev (rev l))).
  - symmetry. apply (fold_left_rev_right (fun c acc => (10 * acc + digit_value c)%Z)).
  - by rewrite rev_involutive.
Qed.

End format_more.

(** X5. [string_format] never writes past its buffer: with the terminator
    the text takes at most [size] bytes, and the value returned is the
    length of the text; a buffer of size 0 is refused with -1. *)
Theorem string_format_bounds size fmt args :
  length (string_format size fmt args).2 <= size - 1
  /\ (string_format size fmt args).1
     = (if decide (size = 0%nat) then -1 else Z.of_nat (length (string_format size fmt args).2))%Z.
Proof.
  destruct (decide (size = 0)) as [->|Hs]; [simpl; split; [lia | done]|].
  rewrite string_format_take by lia. simpl. rewrite length_take. split; [lia | done].
Qed.

(** X6. Truncation only cuts: the text written into a smaller buffer is the
    beginning of the text written into a larger one; and a text that did
    not fill its buffer is complete, a larger buffer gives the same. *)
Theorem string_format_truncates n m fmt args :
  0 < n <= m ->
  (string_format n fmt args).2 = take (n - 1) (string_format m fmt args).2
  /\ (length (string_format n fmt args).2 < n - 1 ->
      string_format m fmt args = string_format n fmt args).
Proof.
  intros Hnm. rewrite !string_format_take by lia. simpl. split.
  - rewrite take_take. f_equal. lia.
  - intros Hl. rewrite length_take in Hl.
    rewrite (take_ge _ (n - 1)), (take_ge _ (m - 1)) by lia. done.
Qed.

Lemma string_format_truncates_witness :
  (string_format 8 (str "File \q%s\q created.") [ArgStr (Some (str "a.txt"))]).2
  = take (8 - 1) (string_format 256 (str "File \q%s\q created.") [ArgStr (Some (str "a.txt"))]).2.
Proof.
  apply (string_format_truncates 8 256). lia.
Defined.

(** X7. A format of plain text around one [%s] gives the text with the
    argument in its place, cut at [size - 1] characters; a NULL argument
    prints as [(null)]. *)
Theorem string_format_string size a b (arg : option cstring) :
  0 < size -> "%"%char ∉ a -> "%"%char ∉ b ->
  (string_format size (a ++ str "%s" ++ b) [ArgStr arg]).2
  = take (size - 1) (a ++ default (str "(null)") arg ++ b).
Proof.
  intros Hs Ha Hb. rewrite string_format_take by lia. cbn [snd].
  by rewrite expand_string.
Qed.

Lemma string_format_string_witness :
  (string_format 256 (str "Error: File \q" ++ str "%s" ++ str "\q not found.\n") [ArgStr None]).2
  = take (256 - 1) (str "Error: File \q" ++ default (str "(null)") None ++ str "\q not found.\n").
Proof.
  apply (string_format_string 256 (str "Error: File \q") (str "\q not found.\n") None).
  - lia.
  - apply (bool_decide_unpack _). vm_compute. exact I.
  - apply (bool_decide_unpack _). vm_compute. exact I.
Defined.

(** X8. [%d] prints an [int] other than [INT_MIN] in decimal: a minus sign
    for a negative value, then digits without a leading zero that read
    back as the absolute value. *)
Theorem string_format_int size v :
  12 <= size -> (INT_MIN < v < 2147483648)%Z ->
  exists ds,
    (string_format size (str "%d") [ArgInt v]).2
    = (if decide (v < 0)%Z then ["-"%char] else []) ++ ds
    /\ Forall is_digit ds /\ decimal ds = Z.abs v
    /\ (v ≠ 0%Z -> exists c, head ds = Some c /\ digit_value c ≠ 0%Z).
Proof.
  intros Hs Hv. rewrite string_format_take by lia.
  change (expand (str "%d") [ArgInt v]) with (int_text v ++ []). rewrite app_nil_r.
  assert (Hd : forall u, (0 < u < 2147483648)%Z ->
            Forall is_digit (rev (int_digits 20 u)) /\ decimal (rev (int_digits 20 u)) = u
            /\ (exists c, head (rev (int_digits 20 u)) = Some c /\ digit_value c ≠ 0%Z)
            /\ length (int_digits 20 u) <= 10).
  { intros u Hu. destruct (int_digits_value 20 u) as (Hval & Hdig & Hlast & Hlen); [lia|].
    split_and!.
    - by apply Forall_rev.
    - by rewrite decimal_rev.
    - destruct (Hlast ltac:(lia)) as (c & Hc & Hc0). exists c. split; [|done].
      rewrite rev_alt. exact (eq_trans (head_reverse _) Hc).
    - apply Hlen. change (Z.of_nat 10) with 10%Z. lia. }
  unfold int_text. cbn [snd]. destruct (decide (v < 0)%Z) as [Hneg|Hpos].
  - rewrite decide_False by (unfold INT_MIN in *; lia).
    destruct (Hd (- v)%Z) as (H1 & H2 & H3 & H4); [unfold INT_MIN in *; lia|].
    exists (rev (int_digits 20 (- v))). split_and!; [| done | lia | done].
    rewrite take_ge; [done|]. cbn [app length]. rewrite length_rev. lia.
  - destruct (decide (v = 0)%Z) as [->|Hnz].
    + exists ["0"%char]. split_and!; [by rewrite take_ge by (cbn [length]; lia) | | done | done].
      repeat constructor; vm_compute; by intros [=].
    + destruct (Hd v) as (H1 & H2 & H3 & H4); [lia|].
      exists (rev (int_digits 20 v)). split_and!; [| done | lia | done].
      rewrite take_ge; [done|]. rewrite length_rev. lia.
Qed.

Lemma string_format_int_witness :
  exists ds,
    (string_format 256 (str "%d") [ArgInt (-2024)%Z]).2
    = (if decide (-2024 < 0)%Z then ["-"%char] else []) ++ ds
    /\ Forall is_digit ds /\ decimal ds = Z.abs (-2024)
    /\ ((-2024)%Z ≠ 0%Z -> exists c, head ds = Some c /\ digit_value c ≠ 0%Z).
Proof.
  apply (string_format_int 256 (-2024)%Z).
  - lia.
  - unfold INT_MIN. lia.
Defined.

(** ** write_message and write_error *)

Section write_facts.

Lemma write_loop_prefix answers : forall rest written,
  write_loop answers rest = Some written ->
  written `prefix_of` rest /\ (Forall retried answers -> written = rest).
Proof.
  induction answers as [|a answers IH]; intros rest written; cbn [write_loop].
  { case_decide; [|done]. intros [= <-]. by subst. }
  case_decide as Hr.
  { intros [= <-]. by subst. }
  destruct a as [n|e].
  - cbn zeta. destruct (write_loop answers _) as [w'|] eqn:Hw; [|done].
    simpl. intros [= <-]. destruct (IH _ _ Hw) as [Hp Hall]. split.
    + destruct Hp as [k Hk]. exists k. rewrite <- app_assoc, <- Hk. by rewrite take_drop.
    + intros [_ Hf]%Forall_cons. rewrite (Hall Hf). apply take_drop.
  - case_decide as He.
    + intros Hw. destruct (IH _ _ Hw) as [Hp Hall]. split; [done|].
      intros [_ Hf]%Forall_cons. by apply Hall.
    + intros [= <-]. split; [apply prefix_nil|]. intros [Hf _]%Forall_cons. done.
Qed.

Lemma write_loop_complete answers : forall rest,
  Forall retried answers -> length rest <= capacity answers ->
  write_loop answers rest = Some rest.
Proof.
  induction answers as [|a answers IH]; intros rest Hall Hlen; cbn [write_loop].
  { destruct rest; [done | simpl in Hlen; lia]. }
  apply Forall_cons in Hall as [Ha Hall].
  case_decide as Hr; [by subst|].
  cbn [capacity] in Hlen. destruct a as [n|e].
  - cbn zeta. rewrite IH; [simpl; by rewrite take_drop | done |].
    rewrite length_drop. lia.
  - simpl in Ha. subst e. rewrite decide_True by done. by apply IH.
Qed.

End write_facts.

(** X9. [write_message] and [write_error] write the message in order and
    nothing else: what has reached the stream when they return is a prefix
    of the message, and all of it unless a [write] failed with an error
    other than [EINTR]; a NULL message writes nothing.  They do return,
    with the whole message out, when the calls that fail are interrupted
    ones and the others take the length of the message between them. *)
Theorem write_message_writes answers (message : cstring) :
  write_message answers None = Some []
  /\ (forall m, write_error answers m = write_message answers m)
  /\ (forall written, write_message answers (Some message) = Some written ->
      written `prefix_of` message /\ (Forall retried answers -> written = message))
  /\ (Forall retried answers ->
      length message <= capacity answers ->
      write_message answers (Some message) = Some message).
Proof.
  split_and!; [done | done | apply write_loop_prefix | apply write_loop_complete].
Qed.

Lemma write_message_writes_witness :
  write_message [Accepts 2; Fails EINTR; Accepts 0; Accepts 5] (Some (str "hello"))
  = Some (str "hello").
Proof.
  apply (write_message_writes [Accepts 2; Fails EINTR; Accepts 0; Accepts 5] (str "hello")).
  - repeat constructor.
  - vm_compute. lia.
Defined.

(** ** What every operation keeps to *)

Lemma append_child_fixup filename content :
  append_child filename content
  = (r ← open filename (OFlags O_RDWR false false true);
     match r with
     | Err e =>
         _ ← report 256 "Error: Could not open file \q%s\q: %s\n"
               [S_ filename; S_ (strerror e)];
         mret EXIT_FAILURE
     | Ok fd =>
         r ← flock;
         match r with
         | Err e =>
             if decide (e = EWOULDBLOCK) then
               _ ← report 256 "Error: Cannot write to \q%s\q. File is locked or read-only.\n"
                     [S_ filename];
               _ ← close;
               mret EXIT_FAILURE
             else
               _ ← report 256 "Error: Could not lock file \q%s\q: %s\n"
                     [S_ filename; S_ (strerror e)];
               _ ← close;
               mret EXIT_FAILURE
         | Ok _ =>
             r ← fstat fd;
             let size := match r with Ok n => n | Err _ => unwritten_size end in
             fd ← newline_fixup fd size;
             let content_len := strlen content in
             '(r, fd) ← write fd content content_len;
             r1 ← flock;
             r2 ← close;
             match r with
             | Err e =>
                 let errno := match r2, r1 with
                              | Err e2, _ => e2
                              | _, Err e1 => e1
                              | _, _ => e
                              end in
                 _ ← report 256 "Error: Could not write to file \q%s\q: %s\n"
                       [S_ filename; S_ (strerror errno)];
                 mret EXIT_FAILURE
             | Ok _ =>
                 let log_msg := sprint 256 "Content appended to file \q%s\q." [S_ filename] in
                 _ ← log_operation log_msg;
                 _ ← announce 256 "Content appended to file \q%s\q successfully.\n"
                       [S_ filename];
                 mret EXIT_SUCCESS
             end
         end
     end).
Proof. reflexivity. Qed.

Lemma newline_fixup_fixed_up f size w : fixed_up f w (newline_fixup f size w).
Proof.
  destruct f as [path acc app off0].
  unfold newline_fixup. exec.
  all: simplify_eq.
  all: unfold fixed_up; red_world; split_and!; try done.
  all: try (by eexists).
  all: try (intros q Hq; by rewrite lookup_insert_ne).
  all: try (intros ?; congruence).
  all: try (intros ? c' Hc'; simplify_eq; red_world; tidy).
  all: try (by left).
  all: try (right; by rewrite lookup_insert_eq).
Qed.

Lemma log_operation_frame msg w :
  let w' := (log_operation msg w).2 in
  out w' = out w /\ oracle w' = oracle w
  /\ (forall q, q ≠ LOG_FILE -> fs w' !! q = fs w !! q)
  /\ (forall c, fs w !! LOG_FILE = Some (Reg c) ->
      exists s, fs w' !! LOG_FILE = Some (Reg (c ++ s))
        /\ (s = [] \/ exists ts msg', s = entry_of ts msg')).
Proof.
  destruct (log_operation_effect msg w) as (Ho & Hor & _ & _ & Hfs). simpl.
  split_and!; [done | done | by intros q Hq; apply log_operation_other |].
  intros c Hc. destruct Hfs as [->|(c' & ts & Hc' & ->)].
  - exists []. rewrite app_nil_r. split; [done | by left].
  - rewrite lookup_insert_eq. simplify_eq. eexists. split; [done|]. right. by eexists _, _.
Qed.

Ltac with_log :=
  try match goal with
  | H : log_operation ?m ?w0 = (_, _) |- _ =>
      let Hlo := fresh "Hlo" in let Hlr := fresh "Hlr" in
      let Hlq := fresh "Hlq" in let Hll := fresh "Hll" in
      pose proof (log_operation_frame m w0) as (Hlo & Hlr & Hlq & Hll);
      rewrite H in Hlo, Hlr, Hlq, Hll; red_world
  end.

Ltac lookups :=
  repeat first
    [ rewrite lookup_insert_ne by done
    | rewrite lookup_delete_ne by done
    | match goal with
      | H : forall q, _ -> fs _ !! q = _ |- _ => rewrite H by done
      | H : fs _ = fs _ |- _ => rewrite H
      end ].

Ltac streams :=
  repeat match goal with
  | H : oracle _ = oracle _ |- _ => rewrite H; clear H
  | H : out _ = _ |- _ => rewrite H; clear H
  | H : err _ = _ |- _ => rewrite H; clear H
  end.

Ltac contained_ok :=
  try use_loop; with_log; unfold contained; red_world; split_and!;
  [ by (left + right)
  | by streams
  | let q := fresh "q" in intros q ? ?; lookups; done
  | first [ by intros [=]
          | intros _; streams; split; [done|]; tidy;
            first [ msg_ok | eexists; split; [|reflexivity]; by vm_compute ] ]
  | let c := fresh "c" in let Hc := fresh "Hc" in intros ? c Hc;
    first [ exists []; rewrite app_nil_r; split_and!; [lookups; done | by left | done]
          | match goal with Hll : forall c, _ -> exists s, _ |- _ =>
              destruct (Hll c) as (s & Hs & Hs');
              [ lookups; done | exists s; split_and!; [done | done | by intros [=]]]
            end ] ].

Lemma create_file_contained w p : contained p w (create_file p w).
Proof. unfold create_file. exec. all: simplify_eq. all: contained_ok. Qed.

Lemma read_file_contained w p p' : contained p' w (read_file p w).
Proof. unfold read_file. exec. all: simplify_eq. all: contained_ok. Qed.

Lemma append_to_file_contained w p content : contained p w (append_to_file p content w).
Proof. unfold append_to_file. exec. all: simplify_eq. all: contained_ok. Qed.

Lemma delete_file_contained w p : contained p w (delete_file p w).
Proof. unfold delete_file. exec. all: simplify_eq. all: contained_ok. Qed.

Lemma create_directory_contained w p : contained p w (create_directory p w).
Proof. unfold create_directory. exec. all: simplify_eq. all: contained_ok. Qed.

Lemma delete_directory_contained w p : contained p w (delete_directory p w).
Proof. unfold delete_directory. exec. all: simplify_eq. all: contained_ok. Qed.

Lemma list_directory_contained w p p' : contained p' w (list_directory p w).
Proof. unfold list_directory. exec. all: simplify_eq. all: contained_ok. Qed.

Lemma list_files_by_extension_contained w p p' ext :
  contained p' w (list_files_by_extension p ext w).
Proof. unfold list_files_by_extension. exec. all: simplify_eq. all: contained_ok. Qed.

Ltac fixup_step :=
  match goal with
  | |- context [newline_fixup ?f ?n ?w0] =>
      let Hfix := fresh "Hfix" in let Hfo := fresh "Hfo" in
      let f' := fresh "f" in let w' := fresh "w" in let off := fresh "off" in
      pose proof (newline_fixup_fixed_up f n w0) as Hfix;
      destruct (newline_fixup f n w0) as [f' w'];
      unfold fixed_up in Hfix; cbn [fst snd] in Hfix;
      destruct Hfix as ([off ?] & Hfo & ? & ? & ? & ? & ? & ? & ?); subst f';
      rewrite ?Hfo
  end.

Lemma append_to_file_forked_contained w p content :
  contained p w (append_to_file_forked p content w).
Proof.
  unfold append_to_file_forked. rewrite append_child_fixup.
  exec_with ltac:(idtac; fixup_step). all: simplify_eq. all: contained_ok.
Qed.

Lemma show_logs_contained w p : contained p w (show_logs w).
Proof. unfold show_logs. exec. all: simplify_eq. all: contained_ok. Qed.

Lemma contained_error p w m : m ≠ [] -> contained p w ((-1)%Z, add_err m w).
Proof.
  intros Hm. unfold contained. simpl. split_and!; try done; [by right | by eauto |].
  intros _ c Hc. exists []. rewrite app_nil_r. split_and!; [done | by left | done].
Qed.

Lemma contained_quiet p w s : contained p w (0%Z, add_out s w).
Proof.
  unfold contained. simpl. split_and!; try done; [by left|].
  intros _ c Hc. exists []. rewrite app_nil_r. split_and!; [done | by left | done].
Qed.

(** The dispatcher: [exit] and [quit] do nothing; every other command is
    confined to the path it names and the log. *)
Lemma execute_command_read_only v cmd rest w p :
  read_only cmd -> contained p w (execute_command v (cmd :: rest) w).
Proof.
  intros Hro. unfold execute_command.
  set (n := length (cmd :: rest)).
  set (a1 := default [] ((cmd :: rest) !! 1)).
  set (a2 := default [] ((cmd :: rest) !! 2)).
  clearbody n a1 a2.
  destruct Hro as [-> | [-> | [-> | [-> | ->]]]]; decide_cmd.
  all: repeat case_decide.
  all: try match goal with H : _ \/ _ |- _ => by destruct H as [H|H]; vm_compute in H end.
  all: unfold mbind, M_bind, mret, M_ret, write_stderr, display_help, write_stdout.
  all: try (apply contained_error; by vm_compute).
  - apply read_file_contained.
  - apply list_directory_contained.
  - apply list_files_by_extension_contained.
  - apply show_logs_contained.
  - apply contained_quiet.
Qed.

Lemma execute_command_contained v args w p :
  (forall a, args !! 1 = Some a -> a = p) ->
  (execute_command v args w = (1%Z, w)
   /\ (args !! 0 = Some (str "exit") \/ args !! 0 = Some (str "quit")))
  \/ contained p w (execute_command v args w).
Proof.
  intros Hp. unfold execute_command.
  destruct args as [|cmd rest].
  { right. rewrite <- (add_out_nil w) at 2. apply contained_quiet. }
  assert (Ha : length (cmd :: rest) = 2 \/ length (cmd :: rest) = 3 ->
               default [] ((cmd :: rest) !! 1) = p).
  { destruct rest as [|a rest]; simpl; [lia|]. intros _. by apply Hp. }
  set (n := length (cmd :: rest)) in *.
  set (a1 := default [] ((cmd :: rest) !! 1)) in *.
  set (a2 := default [] ((cmd :: rest) !! 2)) in *.
  clearbody n a1 a2. clear Hp.
  repeat case_decide; try (left; split; [reflexivity | simpl; intuition congruence]); right.
  all: unfold mbind, M_bind, mret, M_ret, write_stderr, display_help, write_stdout.
  all: try (apply contained_error; by vm_compute).
  all: try (rewrite Ha by lia).
  - apply create_directory_contained.
  - apply create_file_contained.
  - apply list_directory_contained.
  - apply list_files_by_extension_contained.
  - apply read_file_contained.
  - destruct v; [apply append_to_file_contained | apply append_to_file_forked_contained].
  - apply delete_file_contained.
  - apply delete_directory_contained.
  - apply show_logs_contained.
  - apply contained_quiet.
  - rewrite report_run. apply contained_error.
    eapply sprint_nonempty; [lia | vm_compute; reflexivity | discriminate].
Qed.

(** X10. Whatever the environment does, a command changes no path but the
    one it names as its first argument and the log; and [readFile],
    [listDir], [listFilesByExtension], [showLogs] and [help] change nothing
    but the log, whatever their arguments. *)
Theorem execute_command_frame v args w q :
  q ≠ LOG_FILE ->
  (args !! 1 ≠ Some q -> fs (execute_command v args w).2 !! q = fs w !! q)
  /\ (forall cmd rest, read_only cmd ->
      fs (execute_command v (cmd :: rest) w).2 !! q = fs w !! q).
Proof.
  intros Hq.
  assert (Hlen : SPACE :: q ≠ q).
  { intros H. apply (f_equal length) in H. simpl in H. lia. }
  split.
  - intros Ha.
    destruct (execute_command_contained v args w (default (SPACE :: q) (args !! 1)))
      as [[-> _] | (_ & _ & Hf & _)]; [by intros a -> | done |].
    apply Hf; [|done]. destruct (args !! 1) as [a|]; simpl; [congruence | done].
  - intros cmd rest Hro.
    destruct (execute_command_read_only v cmd rest w (SPACE :: q) Hro) as (_ & _ & Hf & _).
    by apply Hf.
Qed.

Lemma execute_command_frame_witness :
  let w := calm_world [(LOG_FILE, Reg []); (str "a.txt", Reg []); (str "b.txt", Reg (str "kept"))] in
  fs (execute_command Locking [str "deleteFile"; str "a.txt"] w).2 !! str "b.txt"
  = fs w !! str "b.txt".
Proof.
  intros w.
  apply (proj1 (execute_command_frame Locking [str "deleteFile"; str "a.txt"] w (str "b.txt")
                  ltac:(vm_compute; discriminate))).
  vm_compute. discriminate.
Defined.





(** ** The logging subsystem, further *)

(** X13. [init_logging] only ever creates an empty log: it changes no other
    path, it leaves whatever [log.txt] names as it is, and in a run without
    environmental failures it creates [log.txt] empty when the name is
    free.  After a run that returned 0 a second run changes nothing. *)
Theorem init_logging_creates w :
  (forall q, q ≠ LOG_FILE -> fs (init_logging w).2 !! q = fs w !! q)
  /\ (forall n, fs w !! LOG_FILE = Some n -> fs (init_logging w).2 = fs w)
  /\ (fs w !! LOG_FILE = None ->
      fs (init_logging w).2 !! LOG_FILE = None
      \/ fs (init_logging w).2 !! LOG_FILE = Some (Reg []))
  /\ (calm w -> fs w !! LOG_FILE = None ->
      (init_logging w).1 = 0%Z /\ fs (init_logging w).2 !! LOG_FILE = Some (Reg []))
  /\ ((init_logging w).1 = 0%Z ->
      fs (init_logging (init_logging w).2).2 = fs (init_logging w).2).
Proof.
  assert (H1 : forall w n, fs w !! LOG_FILE = Some n -> fs (init_logging w).2 = fs w).
  { clear w. intros w n Hn. unfold init_logging. exec; by simplify_eq. }
  assert (H2 : forall w, (init_logging w).1 = 0%Z -> is_Some (fs (init_logging w).2 !! LOG_FILE)).
  { clear w. intros w. unfold init_logging. exec; try done.
    all: intros _; simplify_eq; red_world; rewrite ?lookup_insert_eq; eauto. }
  split_and!.
  - intros q Hq. unfold init_logging. exec; simplify_eq; lookups; done.
  - apply H1.
  - intros Hn. unfold init_logging. exec; simplify_eq; rewrite ?lookup_insert_eq; auto.
  - intros Hcalm Hn. unfold init_logging. exec; simplify_eq; rewrite ?lookup_insert_eq; try done.
  - intros Hok. destruct (H2 w Hok) as [n Hn]. by eapply H1.
Qed.

Lemma init_logging_creates_witness :
  (init_logging (calm_world [])).1 = 0%Z
  /\ fs (init_logging (calm_world [])).2 !! LOG_FILE = Some (Reg []).
Proof.
  apply (init_logging_creates (calm_world [])).
  - intros k. reflexivity.
  - vm_compute. reflexivity.
Defined.

(** X14. [log_operation] does not create the log: without a file [log.txt]
    it returns -1, reports the failure and changes nothing else.  On a
    regular log file a call that returns 0 has added exactly one entry, and
    in a run without environmental failures it does return 0; the entry is
    the timestamp, a space, the message and a newline when these fit in 511
    bytes. *)
Theorem log_operation_entry msg w :
  (fs w !! LOG_FILE = None -> failed w (log_operation msg w))
  /\ (forall c, fs w !! LOG_FILE = Some (Reg c) ->
      ((log_operation msg w).1 = 0%Z ->
       fs (log_operation msg w).2 = <[LOG_FILE := Reg (c ++ entry_of (stamp w) msg)]> (fs w)
       /\ out (log_operation msg w).2 = out w)
      /\ (calm w -> (log_operation msg w).1 = 0%Z))
  /\ (length msg <= 446 -> entry_of (stamp w) msg = stamp w ++ SPACE :: msg ++ [LF]).
Proof.
  split_and!.
  - intros Hn. unfold log_operation. exec. all: failed_ok.
  - intros c Hc. split.
    + unfold log_operation, stamp. exec; try done.
      all: intros _; simplify_eq; tidy; done.
    + intros Hcalm. by destruct (log_operation_calm msg w c Hcalm Hc) as (w' & -> & _).
  - intros Hl. apply entry_of_fits. pose proof (stamp_length w). lia.
Qed.

Lemma log_operation_entry_witness :
  failed (calm_world []) (log_operation (str "x") (calm_world [])).
Proof.
  apply (log_operation_entry (str "x") (calm_world [])). vm_compute. reflexivity.
Defined.

Ltac iff_ok :=
  repeat match goal with
  | n : node |- _ => destruct n; red_world; try done
  end;
  repeat match goal with
  | H : true = true -> forall c, fs ?w !! ?p = Some (Reg c) -> _,
    H' : fs ?w !! ?p = Some (Reg ?c0) |- _ =>
      destruct (H eq_refl c0 H'); clear H
  end;
  (split;
   [ first [ done | intros _; repeat split; eauto; done | congruence ]
   | first [ done
           | intros ?; destruct_and?; repeat match goal with H : ex _ |- _ => destruct H end;
             simplify_eq; try done; congruence ] ]).

(** ** When the operations succeed *)

Section calm_success.
Variables (w : world) (p : cstring).
Hypothesis Hcalm : calm w.

Lemma create_file_succeeds :
  (create_file p w).1 = 0%Z <-> fs w !! p = None /\ parent_ok (fs w) p = true.
Proof. unfold create_file. exec. all: simplify_eq. all: iff_ok. Qed.

Lemma read_file_succeeds :
  (read_file p w).1 = 0%Z <-> exists c, fs w !! p = Some (Reg c).
Proof. unfold read_file. exec. all: simplify_eq. all: iff_ok. Qed.

Lemma append_to_file_succeeds content :
  (append_to_file p content w).1 = 0%Z <-> exists c, fs w !! p = Some (Reg c).
Proof. unfold append_to_file. exec. all: simplify_eq. all: iff_ok. Qed.

Lemma append_to_file_forked_succeeds content :
  (append_to_file_forked p content w).1 = 0%Z <-> exists c, fs w !! p = Some (Reg c).
Proof.
  unfold append_to_file_forked. rewrite append_child_fixup.
  exec_with ltac:(idtac; fixup_step). all: simplify_eq.
  all: iff_ok.
Qed.

Lemma delete_file_succeeds :
  (delete_file p w).1 = 0%Z <-> exists c, fs w !! p = Some (Reg c).
Proof. unfold delete_file. exec. all: simplify_eq. all: iff_ok. Qed.

Lemma create_directory_succeeds :
  (create_directory p w).1 = 0%Z <-> fs w !! p = None /\ parent_ok (fs w) p = true.
Proof. unfold create_directory. exec. all: simplify_eq. all: iff_ok. Qed.

Lemma list_directory_succeeds :
  (list_directory p w).1 = 0%Z <-> fs w !! p = Some Dir.
Proof. unfold list_directory. exec. all: simplify_eq. all: iff_ok. Qed.

Lemma list_files_by_extension_succeeds ext :
  (list_files_by_extension p ext w).1 = 0%Z <-> fs w !! p = Some Dir.
Proof. unfold list_files_by_extension. exec. all: simplify_eq. all: iff_ok. Qed.

Lemma delete_directory_succeeds :
  (delete_directory p w).1 = 0%Z <-> fs w !! p = Some Dir /\ children (fs w) p = [].
Proof.
  unfold delete_directory. exec_with ltac:(rewrite is_empty_loop_dots).
  all: simplify_eq. all: try iff_ok.
  split; [done|]. intros [_ Hc]. rewrite Hc in *. done.
Qed.
End calm_success.

Ltac success_ok :=
  with_log; unfold on_success; red_world;
  first [ by intros [=] | intros _; streams; lookups ].

Lemma delete_file_effect w p :
  p ≠ LOG_FILE ->
  on_success (fun w' =>
      fs w' !! p = None
      /\ out w' = out w ++ sprint 256 "File \q%s\q deleted successfully.\n" [S_ p])
    (delete_file p w).
Proof.
  intros Hp. unfold delete_file. exec. all: simplify_eq. all: success_ok.
  all: by rewrite lookup_delete_eq.
Qed.

Lemma create_directory_effect w p :
  p ≠ LOG_FILE ->
  on_success (fun w' =>
      fs w' !! p = Some Dir
      /\ out w' = out w ++ sprint 256 "Directory \q%s\q created successfully.\n" [S_ p])
    (create_directory p w).
Proof.
  intros Hp. unfold create_directory. exec. all: simplify_eq. all: success_ok.
  all: by rewrite lookup_insert_eq.
Qed.

Lemma delete_directory_effect w p :
  p ≠ LOG_FILE ->
  on_success (fun w' =>
      fs w' !! p = None
      /\ out w' = out w ++ sprint 256 "Directory \q%s\q deleted successfully.\n" [S_ p])
    (delete_directory p w).
Proof.
  intros Hp. unfold delete_directory. exec. all: simplify_eq. all: success_ok.
  all: by rewrite lookup_delete_eq.
Qed.



Ltac fixup_content :=
  repeat match goal with
  | H : true = true -> forall c, fs ?w !! ?p = Some (Reg c) -> _,
    H' : fs ?w !! ?p = Some (Reg ?c0) |- _ =>
      destruct (H eq_refl c0 H'); clear H; simplify_eq
  end.

Ltac grows_here :=
  rewrite ?lookup_insert_eq; tidy;
  first [ by exists []; rewrite app_nil_r
        | eexists; rewrite <- ?app_assoc; reflexivity
        | eexists; rewrite <- ?app_assoc; eassumption ].

Ltac grows_ok :=
  with_log; fixup_content; unfold grows; red_world;
  first
    [ match goal with
      | Hll : forall c, _ -> exists s, _ |- _ =>
          rewrite ?lookup_insert_eq in Hll;
          destruct (Hll _ eq_refl) as (? & -> & _); tidy;
          eexists; rewrite <- ?app_assoc; reflexivity
      end
    | match goal with
      | Hlq : forall q, _ -> fs ?w1 !! q = _ |- context [fs ?w1 !! ?p] =>
          rewrite Hlq by done; red_world; grows_here
      end
    | grows_here ].

Lemma append_to_file_grows w p content c :
  fs w !! p = Some (Reg c) -> grows p c (append_to_file p content w).
Proof.
  intros Hc. unfold append_to_file.
  destruct (decide (p = LOG_FILE)) as [->|Hp].
  all: exec. all: simplify_eq. all: grows_ok.
Qed.

Lemma append_to_file_forked_grows w p content c :
  fs w !! p = Some (Reg c) -> grows p c (append_to_file_forked p content w).
Proof.
  intros Hc. unfold append_to_file_forked. rewrite append_child_fixup.
  destruct (decide (p = LOG_FILE)) as [->|Hp].
  all: exec_with ltac:(idtac; fixup_step). all: simplify_eq. all: grows_ok.
Qed.




Lemma split_path_shorter p : forall d n, split_path p = Some (d, n) -> length d < length p.
Proof.
  induction p as [|c p IH]; intros d n; simpl; [done|].
  destruct (split_path p) as [[d' n']|].
  - intros [= <- <-]. specialize (IH d' n' eq_refl). simpl. lia.
  - case_decide; [|done]. intros [= <- <-]. simpl. lia.
Qed.

Lemma omap_nil {A B} (f : A -> option B) (l : list A) :
  omap f l = [] <-> Forall (fun x => f x = None) l.
Proof.
  induction l as [|x l IH]; simpl; [by split|].
  destruct (f x) eqn:Hx; split.
  - done.
  - intros H. apply Forall_cons in H as [H _]. congruence.
  - intros H. constructor; [done | by apply IH].
  - intros H. apply Forall_cons in H as [_ H]. by apply IH.
Qed.

Lemma children_nil (m : gmap cstring node) d :
  children m d = [] <-> forall k x n, m !! k = Some x -> split_path k ≠ Some (d, n).
Proof.
  unfold children. rewrite omap_nil, Forall_forall. split.
  - intros H k x n Hk Hs. specialize (H (k, x)). simpl in H.
    rewrite Hs in H. rewrite decide_True in H by done.
    assert (Some n = None); [|done]. apply H. by apply elem_of_map_to_list.
  - intros H [k x] Hin%elem_of_map_to_list. simpl.
    destruct (split_path k) as [[d' n]|] eqn:Hs; [|done].
    case_decide; [|done]. subst. by destruct (H k x n).
Qed.

(** X16. In a run without environmental failures [read_file],
    [append_to_file] (both variants) and [delete_file] succeed exactly when
    the path names a regular file; and [create_file] succeeds only where the
    path named nothing and the directory it lies in exists. *)
Theorem file_commands_succeed v w p content :
  calm w ->
  ((create_file p w).1 = 0%Z -> fs w !! p = None /\ parent_ok (fs w) p = true)
  /\ ((read_file p w).1 = 0%Z <-> exists c, fs w !! p = Some (Reg c))
  /\ ((append_with v p content w).1 = 0%Z <-> exists c, fs w !! p = Some (Reg c))
  /\ ((delete_file p w).1 = 0%Z <-> exists c, fs w !! p = Some (Reg c)).
Proof.
  intros Hcalm. split; [exact (proj1 (create_file_succeeds w p Hcalm))|].
  split; [by apply read_file_succeeds|].
  split; [|by apply delete_file_succeeds].
  destruct v; [by apply append_to_file_succeeds | by apply append_to_file_forked_succeeds].
Qed.

Lemma file_commands_succeed_witness :
  (delete_file (str "a.txt") (calm_world [(str "a.txt", Reg (str "x"))])).1 = 0%Z
  <-> exists c, fs (calm_world [(str "a.txt", Reg (str "x"))]) !! str "a.txt" = Some (Reg c).
Proof.
  exact (proj2 (proj2 (proj2
           (file_commands_succeed Locking (calm_world [(str "a.txt", Reg (str "x"))])
              (str "a.txt") [] (fun k => eq_refl))))).
Defined.

(** X17. In a run without environmental failures the two listings succeed
    exactly when the path names a directory; [create_directory] succeeds
    only where the path named nothing and its parent exists, and
    [delete_directory] only on a directory without entries. *)
Theorem directory_commands_succeed w p ext :
  calm w ->
  ((create_directory p w).1 = 0%Z -> fs w !! p = None /\ parent_ok (fs w) p = true)
  /\ ((list_directory p w).1 = 0%Z <-> fs w !! p = Some Dir)
  /\ ((list_files_by_extension p ext w).1 = 0%Z <-> fs w !! p = Some Dir)
  /\ ((delete_directory p w).1 = 0%Z -> fs w !! p = Some Dir /\ children (fs w) p = []).
Proof.
  intros Hcalm. split; [exact (proj1 (create_directory_succeeds w p Hcalm))|].
  split; [by apply list_directory_succeeds|].
  split; [by apply list_files_by_extension_succeeds|].
  exact (proj1 (delete_directory_succeeds w p Hcalm)).
Qed.

Lemma directory_commands_succeed_witness :
  (list_directory (str "d") (calm_world [(str "d", Dir)])).1 = 0%Z
  <-> fs (calm_world [(str "d", Dir)]) !! str "d" = Some Dir.
Proof.
  exact (proj1 (proj2
           (directory_commands_succeed (calm_world [(str "d", Dir)]) (str "d") []
              (fun k => eq_refl)))).
Defined.

(** X18. [append_to_file] never loses data: whatever the environment does
    and whether the call succeeds or not, every regular file still starts
    with the bytes it had. *)
Theorem append_keeps_content v w p content q c :
  fs w !! q = Some (Reg c) ->
  exists s, fs (append_with v p content w).2 !! q = Some (Reg (c ++ s)).
Proof.
  intros Hq.
  assert (Hcont : contained p w (append_with v p content w)).
  { destruct v; [apply append_to_file_contained | apply append_to_file_forked_contained]. }
  destruct (decide (q = p)) as [->|Hqp].
  { destruct v; [by apply append_to_file_grows | by apply append_to_file_forked_grows]. }
  destruct Hcont as (_ & _ & Hf & _ & Hlog).
  destruct (decide (q = LOG_FILE)) as [->|Hql].
  - destruct (Hlog ltac:(done) c Hq) as (s & Hs & _). by exists s.
  - exists []. rewrite app_nil_r, Hf by done. done.
Qed.

Lemma append_keeps_content_witness :
  exists s,
    fs (append_with Forking (str "a.txt") (str "X")
          (calm_world [(str "a.txt", Reg (str "old"))])).2 !! str "a.txt"
    = Some (Reg (str "old" ++ s)).
Proof.
  apply (append_keeps_content Forking (calm_world [(str "a.txt", Reg (str "old"))])).
  vm_compute. reflexivity.
Defined.

(** X19. Round trip, with the log in place: a file that [create_file] has
    created is deleted again by [delete_file] when no system call is failed
    by the environment, and after the two the file system is as it was
    before them, the log apart. *)
Theorem create_delete_file w p :
  is_Some (fs w !! LOG_FILE) -> (create_file p w).1 = 0%Z ->
  let w1 := (create_file p w).2 in
  let w2 := (delete_file p w1).2 in
  (calm w -> (delete_file p w1).1 = 0%Z)
  /\ ((delete_file p w1).1 = 0%Z ->
      forall q, q ≠ LOG_FILE -> fs w2 !! q = fs w !! q).
Proof.
  intros Hlog Hok. cbv zeta.
  assert (Hp : p ≠ LOG_FILE).
  { intros ->. destruct (create_file_existing w LOG_FILE Hlog) as (Hr & _).
    rewrite Hr in Hok. discriminate. }
  destruct (create_file_success w p Hp Hok) as (Hnone & Hc & Ho).
  destruct (create_file_contained w p) as (_ & _ & Hf & _).
  split.
  - intros Hcalm.
    assert (Hcalm1 : calm (create_file p w).2) by (intros k; by rewrite Ho).
    apply (proj2 (delete_file_succeeds _ p Hcalm1)). by eexists.
  - intros Hok2 q Hq.
    destruct (delete_file_effect _ p Hp Hok2) as [Hfs2 _].
    destruct (delete_file_contained (create_file p w).2 p) as (_ & _ & Hf2 & _).
    destruct (decide (q = p)) as [->|Hqp]; [congruence|].
    by rewrite Hf2, Hf.
Qed.

Lemma create_delete_file_witness :
  let w := calm_world [(LOG_FILE, Reg []); (str "b.txt", Reg (str "kept"))] in
  let w1 := (create_file (str "a.txt") w).2 in
  let w2 := (delete_file (str "a.txt") w1).2 in
  (calm w -> (delete_file (str "a.txt") w1).1 = 0%Z)
  /\ ((delete_file (str "a.txt") w1).1 = 0%Z ->
      forall q, q ≠ LOG_FILE -> fs w2 !! q = fs w !! q).
Proof.
  apply (create_delete_file
           (calm_world [(LOG_FILE, Reg []); (str "b.txt", Reg (str "kept"))]) (str "a.txt")).
  - vm_compute. eauto.
  - vm_compute. reflexivity.
Defined.

(** X20. Round trip, with the log in place: [create_directory] succeeds only
    on a path that named nothing and leaves a directory there; when nothing
    lay under that name [delete_directory] removes it again in a run
    without environmental failures, and after the two the file system is
    as it was before them, the log apart. *)
Theorem create_delete_directory w p :
  is_Some (fs w !! LOG_FILE) -> (create_directory p w).1 = 0%Z ->
  let w1 := (create_directory p w).2 in
  let w2 := (delete_directory p w1).2 in
  fs w !! p = None /\ fs w1 !! p = Some Dir
  /\ (calm w -> children (fs w) p = [] -> (delete_directory p w1).1 = 0%Z)
  /\ ((delete_directory p w1).1 = 0%Z ->
      forall q, q ≠ LOG_FILE -> fs w2 !! q = fs w !! q).
Proof.
  intros Hlog Hok. cbv zeta.
  assert (Hnone : fs w !! p = None).
  { destruct (fs w !! p) eqn:Hn; [|done].
    destruct (create_directory_existing w p) as (Hr & _); [by eexists|].
    rewrite Hr in Hok. discriminate. }
  assert (Hp : p ≠ LOG_FILE).
  { intros ->. rewrite Hnone in Hlog. by destruct Hlog. }
  destruct (create_directory_effect w p Hp Hok) as [Hfs _].
  destruct (create_directory_contained w p) as (_ & Ho & Hf & _).
  split_and!; [done | done | |].
  - intros Hcalm Hch.
    assert (Hcalm1 : calm (create_directory p w).2) by (intros k; by rewrite Ho).
    apply (proj2 (delete_directory_succeeds _ p Hcalm1)).
    split; [done|].
    apply children_nil. intros k x n Hk Hs.
    destruct (decide (k = p)) as [->|Hkp].
    { apply split_path_shorter in Hs. lia. }
    destruct (decide (k = LOG_FILE)) as [->|Hkl]; [by vm_compute in Hs|].
    rewrite Hf in Hk by done.
    by eapply (proj1 (children_nil (fs w) p) Hch).
  - intros Hok2 q Hq.
    destruct (delete_directory_effect _ p Hp Hok2) as [Hfs2 _].
    destruct (delete_directory_contained (create_directory p w).2 p) as (_ & _ & Hf2 & _).
    destruct (decide (q = p)) as [->|Hqp]; [congruence|].
    by rewrite Hf2, Hf.
Qed.

Lemma create_delete_directory_witness :
  let w := calm_world [(LOG_FILE, Reg []); (str "b.txt", Reg (str "kept"))] in
  let w1 := (create_directory (str "d") w).2 in
  let w2 := (delete_directory (str "d") w1).2 in
  fs w !! str "d" = None /\ fs w1 !! str "d" = Some Dir
  /\ (calm w -> children (fs w) (str "d") = [] -> (delete_directory (str "d") w1).1 = 0%Z)
  /\ ((delete_directory (str "d") w1).1 = 0%Z ->
      forall q, q ≠ LOG_FILE -> fs w2 !! q = fs w !! q).
Proof.
  apply (create_delete_directory
           (calm_world [(LOG_FILE, Reg []); (str "b.txt", Reg (str "kept"))]) (str "d")).
  - vm_compute. eauto.
  - vm_compute. reflexivity.
Defined.

(** ** Directories *)

Lemma list_directory_loop_calm d entries : forall count w,
  calm w ->
  let L := omap (dir_line (fs w) d) entries in
  (list_directory_loop d entries count w).1 = count + length L
  /\ out (list_directory_loop d entries count w).2 = out w ++ concat L.
Proof.
  induction entries as [|n rest IH]; intros count w Hcalm.
  { simpl. split; [lia | by rewrite app_nil_r]. }
  cbn [list_directory_loop omap list_omap].
  change (dir_line (fs w) d n)
    with (if is_dot n then None
          else match fs w !! sprint 512 "%s/%s" [S_ d; S_ n] with
               | Some Dir => Some (sprint 512 "  [DIR] %s\n" [S_ n])
               | Some _ => Some (sprint 512 "  %s\n" [S_ n])
               | None => None
               end).
  destruct (is_dot n); [by apply IH|].
  exec.
  all: match goal with |- context [list_directory_loop _ _ ?k ?w0] =>
         destruct (IH k w0) as (-> & ->); [calm_ok|] end.
  all: red_world; simplify_eq; cbn [length concat].
  all: split; [lia | by rewrite <- ?app_assoc].
Qed.

(** X21. [directory_exists] answers true exactly when its [stat] call is not
    failed by the environment and the path names a directory.  On any other
    path the two listings and [delete_directory] write their not-found
    message, return -1 and change nothing, whatever the environment does;
    and [create_directory] on a path that names something other than a
    directory is refused by [mkdir] with [File exists]. *)
Theorem directory_exists_directories_only w p :
  ((directory_exists p w).1 = true <-> oracle w (calls w) = None /\ fs w !! p = Some Dir)
  /\ (fs w !! p ≠ Some Dir ->
      let gone := ((-1)%Z, add_err (sprint 256 "Error: Directory \q%s\q not found.\n" [S_ p])
                             (called w)) in
      list_directory p w = gone
      /\ (forall ext, list_files_by_extension p ext w = gone)
      /\ delete_directory p w = gone)
  /\ (calm w -> forall n, fs w !! p = Some n -> n ≠ Dir ->
      create_directory p w
      = ((-1)%Z, add_err (sprint 256 "Error: Could not create directory \q%s\q: %s\n"
                            [S_ p; S_ (strerror EEXIST)])
                   (called (called w)))).
Proof.
  split_and!.
  - unfold directory_exists. exec; simplify_eq/=.
    all: try (destruct n; simpl).
    all: split; [try done; by intros _ | try done; by intros [? ?]].
  - intros Hd. simpl. split_and!; [| intros ext |].
    + unfold list_directory. exec; simplify_eq; try done.
      all: destruct n; simpl in *; done.
    + unfold list_files_by_extension. exec; simplify_eq; try done.
      all: destruct n; simpl in *; done.
    + unfold delete_directory. exec; simplify_eq; try done.
      all: destruct n; simpl in *; done.
  - intros Hcalm n Hn Hnd. unfold create_directory. exec; simplify_eq; try done.
    all: destruct n; simpl in *; done.
Qed.

Lemma directory_exists_directories_only_witness :
  let w := calm_world [(str "a.txt", Reg [])] in
  create_directory (str "a.txt") w
  = ((-1)%Z, add_err (sprint 256 "Error: Could not create directory \q%s\q: %s\n"
                        [S_ (str "a.txt"); S_ (strerror EEXIST)])
               (called (called w))).
Proof.
  intros w.
  apply (proj2 (proj2 (directory_exists_directories_only w (str "a.txt"))) ltac:(by intros k)
           (Reg [])); [vm_compute; reflexivity | discriminate].
Defined.

Lemma split_path_join p : forall d n, split_path p = Some (d, n) -> p = d ++ SLASH :: n.
Proof.
  induction p as [|c p IH]; intros d n; simpl; [done|].
  destruct (split_path p) as [[d' n']|].
  - intros [= <- <-]. by rewrite (IH d' n' eq_refl).
  - case_decide; [|done]. intros [= <- <-]. by subst.
Qed.

Lemma elem_of_children (m : gmap cstring node) d n :
  n ∈ children m d -> is_Some (m !! (d ++ SLASH :: n)).
Proof.
  unfold children. rewrite list_elem_of_omap.
  intros ([k x] & Hin%elem_of_map_to_list & Hs). simpl in Hs.
  destruct (split_path k) as [[d' n']|] eqn:E; [|done].
  case_decide; [|done]. simplify_eq.
  apply split_path_join in E as ->. by eexists.
Qed.

Lemma dir_line_fits (m : gmap cstring node) d n x :
  m !! (d ++ SLASH :: n) = Some x ->
  n ≠ str "." -> n ≠ str ".." ->
  length d + length n + 1 <= 511 -> length n <= 502 ->
  dir_line m d n
  = Some ((if S_ISDIR x then str "  [DIR] " else str "  ") ++ n ++ [LF]).
Proof.
  intros Hx H1 H2 Hl Hn. unfold dir_line.
  rewrite (proj2 (is_dot_spec n)) by done.
  rewrite path_fits by done. rewrite Hx.
  assert (Hd : sprint 512 "  [DIR] %s\n" [S_ n] = str "  [DIR] " ++ n ++ [LF]).
  { rewrite sprint_take by lia.
    change (expand (str "  [DIR] %s\n") [S_ n]) with (str "  [DIR] " ++ n ++ [LF]).
    rewrite take_ge; [done|]. rewrite !length_app. cbn [length str]. simpl. lia. }
  assert (Hf : sprint 512 "  %s\n" [S_ n] = str "  " ++ n ++ [LF]).
  { rewrite sprint_take by lia.
    change (expand (str "  %s\n") [S_ n]) with (str "  " ++ n ++ [LF]).
    rewrite take_ge; [done|]. rewrite !length_app. simpl. lia. }
  destruct x; by rewrite ?Hd, ?Hf.
Qed.

Lemma list_directory_calm w d :
  calm w -> fs w !! d = Some Dir ->
  let L := omap (dir_line (fs w) d) (children (fs w) d) in
  (list_directory d w).1 = 0%Z
  /\ out (list_directory d w).2
     = out w ++ sprint 256 "Contents of directory \q%s\q:\n" [S_ d]
       ++ concat L
       ++ (if decide (length L = 0) then str "  (empty directory)\n" else []).
Proof.
  intros Hcalm Hd L. unfold list_directory. exec; try done.
  all: match goal with H : list_directory_loop ?d0 ?l ?k ?w0 = _ |- _ =>
         destruct (list_directory_loop_calm d0 l k w0) as (Hn & Hout); [calm_ok|];
         rewrite H in Hn, Hout; red_world end.
  all: with_log.
  all: change (omap (dir_line (fs w) d) (str "." :: str ".." :: children (fs w) d))
         with L in Hn, Hout.
  all: split; [done|]; streams; red_world; rewrite ?Hout; red_world; tidy.
  all: simpl in Hn; try (exfalso; lia).
  all: by rewrite ?app_nil_r, <- ?app_assoc.
Qed.

(** X22. In a directory, when no system call is failed by the environment,
    [list_directory] returns 0 and prints its header, then one line for
    each entry, then [(empty directory)] when no line was printed.  The
    lines come in the order of the directory stream, whatever that is: the
    loop prints the lines of any sequence of names in the order of that
    sequence.  Every entry other than [.] and [..] whose path
    [dirname/name] is at most 511 bytes long has a line: two spaces, the
    mark [[DIR]] and a space if it is a directory, its name (whole, up to
    502 bytes) and a newline. *)
Theorem list_directory_lists w d :
  calm w -> fs w !! d = Some Dir ->
  (list_directory d w).1 = 0%Z
  /\ (exists L, L ≡ₚ children (fs w) d
      /\ out (list_directory d w).2
         = out w ++ sprint 256 "Contents of directory \q%s\q:\n" [S_ d]
           ++ concat (omap (dir_line (fs w) d) L)
           ++ (if decide (omap (dir_line (fs w) d) L = [])
               then str "  (empty directory)\n" else []))
  /\ (forall entries,
        out (list_directory_loop d entries 0 w).2
        = out w ++ concat (omap (dir_line (fs w) d) entries))
  /\ (forall n, n ∈ children (fs w) d ->
        n ≠ str "." -> n ≠ str ".." ->
        length d + length n + 1 <= 511 -> length n <= 502 ->
        dir_line (fs w) d n
        = Some ((match fs w !! (d ++ SLASH :: n) with
                 | Some Dir => str "  [DIR] "
                 | _ => str "  "
                 end) ++ n ++ [LF])).
Proof.
  intros Hcalm Hd.
  destruct (list_directory_calm w d Hcalm Hd) as (Hr & Hout).
  split_and!; [done | | |].
  - eexists. split; [reflexivity|]. rewrite Hout. do 3 f_equal.
    destruct (omap _ _); by repeat case_decide.
  - intros entries. apply (list_directory_loop_calm d entries 0 w Hcalm).
  - intros n [x Hx]%elem_of_children H1 H2 Hl Hn.
    rewrite (dir_line_fits _ _ _ x) by done. rewrite Hx.
    by destruct x.
Qed.

Lemma list_directory_lists_witness :
  let w := calm_world [(str "d", Dir); (str "d/sub", Dir); (str "d/a.txt", Reg [])] in
  (list_directory (str "d") w).1 = 0%Z
  /\ dir_line (fs w) (str "d") (str "sub") = Some (str "  [DIR] sub\n").
Proof.
  intros w.
  destruct (list_directory_lists w (str "d")) as (H1 & _ & _ & H4).
  - intros k. reflexivity.
  - vm_compute. reflexivity.
  - split; [exact H1|]. rewrite (H4 (str "sub")).
    + vm_compute. reflexivity.
    + apply (bool_decide_unpack _). vm_compute. exact I.
    + discriminate.
    + discriminate.
    + vm_compute. lia.
    + vm_compute. lia.
Defined.

(** X23. [read_file] on a regular file: a call that returns 0 has printed
    the header, then the bytes of the file, then a newline if and only if
    the content is not empty and does not end in one; it does return 0 when
    no system call is failed by the environment; and the file is left as it
    was in every case. *)
Theorem read_file_prints w p c :
  fs w !! p = Some (Reg c) -> p ≠ LOG_FILE ->
  ((read_file p w).1 = 0%Z ->
   out (read_file p w).2
   = out w ++ sprint 256 "Contents of \q%s\q:\n" [S_ p] ++ c ++ trailing_newline c)
  /\ (calm w -> (read_file p w).1 = 0%Z)
  /\ fs (read_file p w).2 !! p = Some (Reg c).
Proof.
  intros Hc Hp. split_and!.
  - by apply read_file_success.
  - intros Hcalm. by eapply read_file_calm.
  - destruct (read_file_contained w p (SPACE :: p)) as (_ & _ & Hf & _).
    rewrite Hf; [done | | done]. intros H. apply (f_equal length) in H. simpl in H. lia.
Qed.

Lemma read_file_prints_witness :
  let w := calm_world [(str "a.txt", Reg (str "one\ntwo"))] in
  out (read_file (str "a.txt") w).2
  = out w ++ sprint 256 "Contents of \q%s\q:\n" [S_ (str "a.txt")]
    ++ str "one\ntwo" ++ trailing_newline (str "one\ntwo").
Proof.
  intros w.
  destruct (read_file_prints w (str "a.txt") (str "one\ntwo")) as (H1 & H2 & _).
  - vm_compute. reflexivity.
  - vm_compute. discriminate.
  - apply H1, H2. intros k. reflexivity.
Defined.

(** ** The dispatcher *)



(** X25. The edges of the dispatcher: an empty command line does nothing and
    returns 0; [showLogs], [help], [exit] and [quit] ignore any arguments
    that follow; a name that is no command is reported as
    [Error: Unknown command '<name>'], the message cut at 99 bytes. *)
Theorem execute_command_edges v w :
  execute_command v [] w = (0%Z, w)
  /\ (forall cmd rest,
        cmd ∈ [str "showLogs"; str "help"; str "exit"; str "quit"] ->
        execute_command v (cmd :: rest) w = execute_command v [cmd] w)
  /\ (forall cmd rest,
        cmd ∉ commands ->
        execute_command v (cmd :: rest) w
        = ((-1)%Z, add_err (take 99 (str "Error: Unknown command '" ++ cmd ++ str "'\n")) w)).
Proof.
  split_and!; [done | |].
  - intros cmd rest Hc. rewrite !elem_of_cons, elem_of_nil in Hc.
    destruct Hc as [-> | [-> | [-> | [-> | []]]]]; unfold execute_command; decide_cmd; try done.
    all: rewrite ?decide_True by (by left); rewrite ?decide_True by (by right); done.
  - intros cmd rest Hc. unfold commands in Hc. rewrite !not_elem_of_cons in Hc.
    destruct_and!. unfold execute_command.
    repeat (rewrite decide_False by tauto).
    unfold mbind, M_bind, mret, M_ret. rewrite report_run. do 2 f_equal.
    rewrite sprint_take by lia. unfold S_.
    change (str "Error: Unknown command '%s'\n")
      with (str "Error: Unknown command '" ++ str "%s" ++ str "'\n").
    rewrite expand_string; [done | |]; apply (bool_decide_unpack _); vm_compute; exact I.
Qed.

Lemma execute_command_edges_witness :
  execute_command Locking [str "rename"; str "a"; str "b"] (calm_world [])
  = ((-1)%Z, add_err (take 99 (str "Error: Unknown command '" ++ str "rename" ++ str "'\n"))
               (calm_world [])).
Proof.
  apply (proj2 (proj2 (execute_command_edges Locking (calm_world [])))).
  apply (bool_decide_unpack _). vm_compute. exact I.
Defined.

(** ** Logging is best effort *)





Section best_effort.
Variables (w : world) (p : cstring).
Hypothesis Hcalm : calm w.
Hypothesis Hlog : fs w !! LOG_FILE = None.
Hypothesis Hp : p ≠ LOG_FILE.










End best_effort.



(** ** The program *)

Lemma init_logging_ready w c :
  calm w -> (fs w !! LOG_FILE = None /\ c = []) \/ fs w !! LOG_FILE = Some (Reg c) ->
  exists w1, init_logging w = (0%Z, w1)
    /\ oracle w1 = oracle w /\ out w1 = out w /\ err w1 = err w
    /\ clock w1 = clock w /\ ticks w1 = ticks w
    /\ fs w1 = <[LOG_FILE := Reg c]> (fs w).
Proof.
  intros Hcalm [[Hn ->] | Hc]; unfold init_logging; exec; simplify_eq.
  all: eexists; split_and!; try done.
  red_world. by rewrite insert_id.
Qed.

Lemma dup_args_calm argv : forall w,
  calm w ->
  exists w', dup_args argv w = (true, w')
    /\ oracle w' = oracle w /\ out w' = out w /\ err w' = err w
    /\ clock w' = clock w /\ ticks w' = ticks w /\ fs w' = fs w.
Proof.
  induction argv as [|a argv IH]; intros w Hcalm; [by eexists|].
  cbn [dup_args]. exec.
  destruct (IH (called w)) as (w' & -> & ? & ? & ? & ? & ? & ?); [calm_ok|].
  by eexists.
Qed.

Lemma show_logs_prints w c :
  calm w -> fs w !! LOG_FILE = Some (Reg c) ->
  (show_logs w).1 = 0%Z
  /\ out (show_logs w).2
     = out w ++ (if decide (c = []) then str "Log file is empty.\n"
                 else str "Operation Logs:\n" ++ c ++ trailing_newline c).
Proof.
  intros Hcalm Hc. unfold show_logs. exec; simplify_eq; tidy.
  all: try (destruct c; simpl in *; done).
  all: split; [done|]; case_decide; simplify_eq; try done.
  all: try (destruct c; simpl in *; done).
  all: by rewrite <- ?app_assoc.
Qed.

(** [main] on a command line of one to four words, when nothing fails and
    the log is there or can be created. *)
Lemma main_runs v argv w c :
  calm w -> (fs w !! LOG_FILE = None /\ c = []) \/ fs w !! LOG_FILE = Some (Reg c) ->
  0 < length argv <= MAX_ARGS ->
  exists w2,
    main v argv w
    = ((if decide ((execute_command v argv w2).1 < 0)%Z then EXIT_FAILURE else EXIT_SUCCESS),
       (execute_command v argv w2).2)
    /\ oracle w2 = oracle w /\ out w2 = out w /\ err w2 = err w
    /\ clock w2 = clock w /\ ticks w2 = ticks w
    /\ fs w2 = <[LOG_FILE := Reg c]> (fs w).
Proof.
  intros Hcalm Hlog Hlen.
  destruct (init_logging_ready w c Hcalm Hlog) as (w1 & Hi & Ho & Hout & Herr & Hc & Ht & Hfs).
  destruct (dup_args_calm argv w1) as (w2 & Hd & Ho2 & Hout2 & Herr2 & Hc2 & Ht2 & Hfs2);
    [intros k; by rewrite Ho|].
  exists w2. split_and!; try congruence.
  unfold main. unfold mbind at 1, M_bind at 1. rewrite Hi.
  rewrite decide_False by lia. rewrite decide_False by lia.
  unfold mbind at 1, M_bind at 1. rewrite Hd. cbn [negb].
  unfold mbind, M_bind, mret, M_ret. by destruct (execute_command v argv w2).
Qed.

(** X27. Through [main] the message [No logs available.] cannot appear in a
    run without environmental failures: [init_logging] has created the log
    before [showLogs] looks for it, so a first [showLogs] prints
    [Log file is empty.], exits with success and leaves an empty log.txt
    behind; on a log with content it prints the header, the content and
    the newline the content lacks. *)
Theorem main_show_logs v w :
  calm w ->
  (fs w !! LOG_FILE = None ->
   (main v [str "showLogs"] w).1 = EXIT_SUCCESS
   /\ out (main v [str "showLogs"] w).2 = out w ++ str "Log file is empty.\n"
   /\ fs (main v [str "showLogs"] w).2 = <[LOG_FILE := Reg []]> (fs w))
  /\ (forall c, fs w !! LOG_FILE = Some (Reg c) -> c ≠ [] ->
      (main v [str "showLogs"] w).1 = EXIT_SUCCESS
      /\ out (main v [str "showLogs"] w).2
         = out w ++ str "Operation Logs:\n" ++ c ++ trailing_newline c
      /\ fs (main v [str "showLogs"] w).2 = fs w).
Proof.
  intros Hcalm.
  assert (Hrun : forall c,
            (fs w !! LOG_FILE = None /\ c = []) \/ fs w !! LOG_FILE = Some (Reg c) ->
            (main v [str "showLogs"] w).1 = EXIT_SUCCESS
            /\ out (main v [str "showLogs"] w).2
               = out w ++ (if decide (c = []) then str "Log file is empty.\n"
                           else str "Operation Logs:\n" ++ c ++ trailing_newline c)
            /\ fs (main v [str "showLogs"] w).2 = <[LOG_FILE := Reg c]> (fs w)).
  { intros c Hlog.
    destruct (main_runs v [str "showLogs"] w c Hcalm Hlog) as (w2 & -> & Ho & Hout & _ & _ & _ & Hfs);
      [unfold MAX_ARGS; simpl; lia|].
    unfold execute_command. decide_cmd.
    destruct (show_logs_prints w2 c) as (Hr & Hp);
      [intros k; by rewrite Ho | by rewrite Hfs, lookup_insert_eq |].
    cbn [fst snd]. rewrite Hr, Hp, show_logs_fs, Hout, Hfs. done. }
  split.
  - intros Hn. destruct (Hrun []) as (H1 & H2 & H3); [by left|].
    rewrite decide_True in H2 by done. done.
  - intros c Hc Hne. destruct (Hrun c) as (H1 & H2 & H3); [by right|].
    rewrite decide_False in H2 by done. rewrite insert_id in H3 by done. done.
Qed.

Lemma main_show_logs_witness :
  (main Locking [str "showLogs"] (calm_world [])).1 = EXIT_SUCCESS
  /\ out (main Locking [str "showLogs"] (calm_world [])).2
     = out (calm_world []) ++ str "Log file is empty.\n"
  /\ fs (main Locking [str "showLogs"] (calm_world [])).2
     = <[LOG_FILE := Reg []]> (fs (calm_world [])).
Proof.
  apply (main_show_logs Locking (calm_world [])).
  - intros k. reflexivity.
  - vm_compute. reflexivity.
Defined.

(** The eight commands that log, through the dispatcher. *)
Lemma execute_command_template v args fmt fargs w c :
  template v args = Some (fmt, fargs) ->
  calm w -> fs w !! LOG_FILE = Some (Reg c) -> args !! 1 ≠ Some LOG_FILE ->
  logs_one c (sprint 256 fmt fargs) (execute_command v args w)
  /\ ((execute_command v args w).1 = 0 \/ (execute_command v args w).1 = -1)%Z.
Proof.
  intros Ht Hcalm Hlog Hne.
  destruct args as [|cmd [|a [|b [|? ?]]]]; try done; simpl in Hne;
    assert (Ha : a ≠ LOG_FILE) by congruence; unfold template in Ht;
    repeat case_decide; simplify_eq; unfold execute_command;
    cbn [length lookup list_lookup default from_option]; decide_cmd;
    (rewrite decide_False by (intros Hx; by apply Hx)).
  - split; [by apply create_directory_logs | exact (proj1 (create_directory_contained w a))].
  - split; [by apply create_file_logs | exact (proj1 (create_file_contained w a))].
  - split; [by apply list_directory_logs | exact (proj1 (list_directory_contained w a a))].
  - split; [by apply read_file_logs | exact (proj1 (read_file_contained w a a))].
  - split; [by apply delete_file_logs | exact (proj1 (delete_file_contained w a))].
  - split; [by apply delete_directory_logs | exact (proj1 (delete_directory_contained w a))].
  - split; [by apply list_files_by_extension_logs
           | exact (proj1 (list_files_by_extension_contained w a a b))].
  - destruct v.
    + split; [by apply append_to_file_logs | exact (proj1 (append_to_file_contained w a b))].
    + split; [by apply append_to_file_forked_logs
             | exact (proj1 (append_to_file_forked_contained w a b))].
Qed.

(** X28. From the command line to the log: when [main] runs one of the eight
    logging commands without environmental failures and exits with
    success, the log holds what it held (nothing, if [main] had to create
    it) followed by exactly one line: a timestamp, a space, the message of
    the command and a newline. *)
Theorem main_logs_one v args fmt fargs w c :
  template v args = Some (fmt, fargs) ->
  calm w -> (fs w !! LOG_FILE = None /\ c = []) \/ fs w !! LOG_FILE = Some (Reg c) ->
  args !! 1 ≠ Some LOG_FILE ->
  (main v args w).1 = EXIT_SUCCESS ->
  exists ts, length ts < 64
    /\ log_content (main v args w).2 = Some (c ++ ts ++ SPACE :: sprint 256 fmt fargs ++ [LF]).
Proof.
  intros Ht Hcalm Hlog Hne.
  assert (Hlen : 0 < length args <= MAX_ARGS).
  { unfold MAX_ARGS. destruct args as [|cmd [|a [|b [|? ?]]]]; try done; simpl; lia. }
  destruct (main_runs v args w c Hcalm Hlog Hlen) as (w2 & -> & Ho & _ & _ & _ & _ & Hfs).
  destruct (execute_command_template v args fmt fargs w2 c Ht) as (Hone & Hr);
    [intros k; by rewrite Ho | by rewrite Hfs, lookup_insert_eq | done |].
  cbn [fst snd]. case_decide as Hneg; [done|]. intros _.
  destruct (Hone ltac:(lia)) as (ts & Hts & Hl). exists ts. split; [done|].
  rewrite Hl. rewrite entry_of_fits; [done|].
  pose proof (sprint_length 256 fmt fargs). lia.
Qed.

Lemma main_logs_one_witness :
  exists ts, length ts < 64
    /\ log_content (main Forking [str "createDir"; str "d"] (calm_world [])).2
       = Some ([] ++ ts ++ SPACE
                  :: sprint 256 "Directory \q%s\q created successfully." [S_ (str "d")]
                  ++ [LF]).
Proof.
  apply (main_logs_one Forking [str "createDir"; str "d"]
           "Directory \q%s\q created successfully." [S_ (str "d")] (calm_world []) []).
  - vm_compute. reflexivity.
  - intros k. reflexivity.
  - left. split; [vm_compute|]; reflexivity.
  - vm_compute. discriminate.
  - vm_compute. reflexivity.
Defined.

(** ** The argument blocks *)

(** X29. Every block is freed exactly once: whatever the number of arguments
    and whichever [strdup] fails, [main] followed by [exit_handler] frees
    no block twice and leaves none allocated. *)
Theorem blocks_freed_once arg_count oks :
  exists m, Blocks.run (Blocks.main arg_count oks) Blocks.start ≫= Blocks.exit_handler = Some m
    /\ Blocks.live m = [].
Proof.
  destruct arg_count as [|[|[|[|[|n]]]]]; try (by eexists).
  all: destruct oks as [|[|] [|[|] [|[|] [|[|] oks]]]]; by eexists.
Qed.

(** X30. A signal between the statements of [main]: [cleanup_handler] frees
    a block for the second time exactly when it runs after the last
    [free_args] of a run that copied at least one argument, before
    [sync_args] has cleared [g_args]. *)
Theorem cleanup_handler_window arg_count oks k :
  let before := take k (Blocks.main arg_count oks) in
  Blocks.run before Blocks.start ≫= Blocks.cleanup_handler = None
  <-> last before = Some Blocks.FreeArgs
      /\ Blocks.Strdup 0 true ∈ before
      /\ Blocks.ExecuteCommand ∈ before.
Proof.
  cbv zeta.
  destruct arg_count as [|[|[|[|[|n]]]]].
  6: { unfold Blocks.main. rewrite decide_False by done.
       rewrite decide_True by (unfold MAX_ARGS; lia).
       do 2 (destruct k as [|k];
             [split; apply (bool_decide_unpack _); vm_compute; exact I|]).
       split; apply (bool_decide_unpack _); vm_compute; exact I. }
  all: destruct oks as [|[|] [|[|] [|[|] [|[|] oks]]]].
  all: do 10 (destruct k as [|k];
              [split; apply (bool_decide_unpack _); vm_compute; exact I|]).
  all: split; apply (bool_decide_unpack _); vm_compute; exact I.
Qed.

Lemma cleanup_handler_window_witness :
  Blocks.run (take 6 (Blocks.main 2 [])) Blocks.start ≫= Blocks.cleanup_handler = None.
Proof.
  apply (cleanup_handler_window 2 [] 6).
  split_and!; apply (bool_decide_unpack _); vm_compute; exact I.
Defined.
